(** * Entity resolution for Latin bibliographic records

    A shallow embedding of the deduplication and cross-catalogue matching
    code of the repository, and the properties its specification states
    about it.

    - [Py]                  the Python values the code computes with
    - [Dedupe]              latin_pub_db/scripts/dedupe.py
    - [DedupeFloat]         the same file, [similarity_score] over any
                            arithmetic
    - [Deduplicator]        scripts/utils/deduplicator.py
    - [DeduplicatorFrames]  the same file, the methods over a DataFrame
    - [FuzzyMatch]          scripts/bph_ia_fuzzy_match.py
    - [FuzzyStrategies]     the same file, the index and the strategies
    - [AgentMatch]          scripts/matching/bph_ia_agent_match.py
    - [AgentRun]            the same file, [extract_surname] and the run
    - [AgentOracle]         the same file, the oracle as a service

    Python floats are read as exact rationals ([Q]): what is stated
    about a score is a matter of the arithmetic the code writes down,
    not of rounding.  [DedupeFloat] embeds [similarity_score] once more
    over any arithmetic, IEEE doubles among them. *)

From Stdlib Require Import ZArith QArith Lqa String Ascii.
From Stdlib Require SpecFloat.
From stdpp Require Import gmap list sets.

Local Open Scope Q_scope.

(* ================================================================== *)
(** * Part I: the embedding                                            *)
(* ================================================================== *)

(** ** Python strings and values *)

Module Py.

(** A [str] is a sequence of Unicode code points. *)
Definition char := N.
Definition str := list char.

(** A literal: the code points of an ASCII string. *)
Fixpoint lit (s : string) : str :=
  match s with
  | EmptyString => []
  | String a s' => N_of_ascii a :: lit s'
  end.

(** [str.isspace] on one code point; this is also what [str.split()]
    splits on and what [\s] matches in a [str] pattern. *)
Definition isspace (c : char) : bool :=
  ((9 <=? c) && (c <=? 13) || (28 <=? c) && (c <=? 32)
   || (c =? 133) || (c =? 160) || (c =? 5760)
   || (8192 <=? c) && (c <=? 8202)
   || (c =? 8232) || (c =? 8233) || (c =? 8239) || (c =? 8287)
   || (c =? 12288))%N.

(** [s.split()]: the maximal runs of non-whitespace, in order. *)
Fixpoint split (s : str) : list str :=
  match s with
  | [] => []
  | c :: s' =>
      if isspace c then split s'
      else match s' with
           | [] => [[c]]
           | c' :: _ =>
               if isspace c' then [c] :: split s'
               else match split s' with
                    | w :: ws => (c :: w) :: ws
                    | [] => [[c]]
                    end
           end
  end.

(** [sep.join(words)]. *)
Fixpoint join (sep : str) (words : list str) : str :=
  match words with
  | [] => []
  | [w] => w
  | w :: ws => w ++ sep ++ join sep ws
  end.

(** [s.strip()]. *)
Fixpoint lstrip (s : str) : str :=
  match s with
  | [] => []
  | c :: s' => if isspace c then lstrip s' else s
  end.
Definition strip (s : str) : str := reverse (lstrip (reverse (lstrip s))).

(** [s.replace(old, new)]: leftmost, non-overlapping occurrences of a
    non-empty [old]. *)
Fixpoint starts_with (p s : str) : bool :=
  match p, s with
  | [], _ => true
  | _ :: _, [] => false
  | a :: p', b :: s' => (a =? b)%N && starts_with p' s'
  end.

Fixpoint replace_fuel (fuel : nat) (old new s : str) : str :=
  match fuel, s with
  | O, _ => s
  | _, [] => []
  | S k, c :: s' =>
      if starts_with old s
      then new ++ replace_fuel k old new (drop (length old) s)
      else c :: replace_fuel k old new s'
  end.

Definition replace (old new s : str) : str :=
  replace_fuel (S (length s)) old new s.

(** [needle in haystack]. *)
Fixpoint contains (needle haystack : str) : bool :=
  starts_with needle haystack
  || match haystack with
     | [] => false
     | _ :: h' => contains needle h'
     end.

(** What the interpreter's Unicode tables decide: [str.lower], the
    alphanumeric code points ([\w] is these and the underscore) and
    [unicodedata.normalize('NFKD', _)]. *)
Class Unicode := {
  lower : str -> str;
  isalnum : char -> bool;
  nfkd : str -> str;
}.

(** [\w] and [\s] of [re] on a [str] pattern. *)
Definition is_word {U : Unicode} (c : char) : bool := isalnum c || (c =? 95)%N.

(** [re.sub(r'[^\w\s]', ' ', s)]. *)
Definition sub_non_word_space {U : Unicode} (s : str) : str :=
  map (fun c => if is_word c || isspace c then c else 32%N) s.

(** [re.sub(r'\s+', ' ', s)]. *)
Fixpoint collapse_spaces (s : str) : str :=
  match s with
  | [] => []
  | c :: s' =>
      if isspace c
      then match s' with
           | c' :: _ => if isspace c' then collapse_spaces s'
                        else 32%N :: collapse_spaces s'
           | [] => [32%N]
           end
      else c :: collapse_spaces s'
  end.

(** The two functions of rapidfuzz the code calls, each a score out of
    100. *)
Class Rapidfuzz := {
  ratio : str -> str -> Q;
  token_set_ratio : str -> str -> Q;
}.

(** The values an [and] chain over strings, integers and comparisons
    can leave, with their truth value. *)
Inductive value :=
| VNone
| VBool (b : bool)
| VInt (z : Z)
| VStr (s : str).

Definition truthy (v : value) : bool :=
  match v with
  | VNone => false
  | VBool b => b
  | VInt z => negb (z =? 0)%Z
  | VStr s => negb (bool_decide (s = []))
  end.

(** [a and b], with [b] evaluated only when [a] is truthy. *)
Definition and_ (a : value) (b : value) : value :=
  if truthy a then b else a.

End Py.

Import Py.

(** [a >= b] on floats. *)
Definition Qge_bool (a b : Q) : bool := Qle_bool b a.

(** [min(a, b)] and [max(a, b)]: the first argument unless the second
    is strictly smaller (larger). *)
Definition py_min (a b : Q) : Q := if Qlt_le_dec b a then b else a.
Definition py_max (a b : Q) : Q := if Qlt_le_dec a b then b else a.

(** ** latin_pub_db/scripts/dedupe.py *)

Module Dedupe.

(** A row of [publications] as the query of [deduplicate] selects it:
    [None] is SQL NULL. *)
Record record := mkRecord {
  id : Z;
  title_normalized : option str;
  creator_normalized : option str;
  year : option Z;
}.

#[global] Instance record_eq_dec : EqDecision record.
Proof. solve_decision. Defined.

Definition YEAR_TOLERANCE : Z := 2.
Definition TITLE_PREFIX_LENGTH : nat := 3.
Definition SIMILARITY_THRESHOLD : Q := 85.

(** [get_title_prefix]. *)
Definition get_title_prefix (title_normalized : str) : str :=
  match title_normalized with
  | [] => []
  | _ => join (lit " ") (take TITLE_PREFIX_LENGTH (split title_normalized))
  end.

(** [record.get(field)] as a condition: neither NULL nor empty. *)
Definition present (field : option str) : bool :=
  match field with
  | Some (_ :: _) => true
  | _ => false
  end.

Definition text (field : option str) : str := default [] field.

(** The fallback the module uses when rapidfuzz is not installed:
    the Jaccard index of the two word sets, times 100. *)
Definition word_set (s : str) : gset str := list_to_set (split s).

Definition basic_sim (s1 s2 : str) : Q :=
  let t1 := word_set s1 in
  let t2 := word_set s2 in
  if negb (bool_decide (t1 = ∅)) && negb (bool_decide (t2 = ∅))
  then inject_Z (Z.of_nat (size (t1 ∩ t2)))
       / inject_Z (Z.of_nat (size (t1 ∪ t2))) * 100
  else 0.

(** [fuzz] is rapidfuzz when it was imported (RAPIDFUZZ_AVAILABLE)
    and [None] otherwise. *)
Definition field_sim (fuzz : option Rapidfuzz) (s1 s2 : str) : Q :=
  match fuzz with
  | Some F => token_set_ratio s1 s2
  | None => basic_sim s1 s2
  end.

Definition year_present (y : option Z) : bool :=
  match y with
  | Some z => negb (z =? 0)%Z
  | None => false
  end.

Definition year_sim (y1 y2 : Z) : Q :=
  let year_diff := Z.abs (y1 - y2) in
  if (year_diff <=? YEAR_TOLERANCE)%Z
  then inject_Z (100 - year_diff * 20)
  else 0.

(** The two accumulators of [similarity_score] after each of its three
    blocks. *)
Definition add_title fuzz (r1 r2 : record) (acc : Q * Q) : Q * Q :=
  let '(score, weights_total) := acc in
  if present (title_normalized r1) && present (title_normalized r2)
  then (score + field_sim fuzz (text (title_normalized r1))
                               (text (title_normalized r2)) * 0.6,
        weights_total + 0.6)
  else acc.

Definition add_creator fuzz (r1 r2 : record) (acc : Q * Q) : Q * Q :=
  let '(score, weights_total) := acc in
  if present (creator_normalized r1) && present (creator_normalized r2)
  then (score + field_sim fuzz (text (creator_normalized r1))
                               (text (creator_normalized r2)) * 0.3,
        weights_total + 0.3)
  else acc.

Definition add_year (r1 r2 : record) (acc : Q * Q) : Q * Q :=
  let '(score, weights_total) := acc in
  if year_present (year r1) && year_present (year r2)
  then (score + year_sim (default 0%Z (year r1)) (default 0%Z (year r2)) * 0.1,
        weights_total + 0.1)
  else acc.

Definition accumulate fuzz (r1 r2 : record) : Q * Q :=
  add_year r1 r2 (add_creator fuzz r1 r2 (add_title fuzz r1 r2 (0, 0))).

(** [similarity_score]. *)
Definition similarity_score fuzz (record1 record2 : record) : Q :=
  let '(score, weights_total) := accumulate fuzz record1 record2 in
  if Qlt_le_dec 0 weights_total
  then score / weights_total * 100
  else 0.

(** *** Union-find over record indices

    [parent] is the list of [find_clusters]; [find] recurses along
    parent links, so the embedding gives it fuel and returns [None]
    when it runs out (or on an index out of range). *)
Fixpoint find (fuel : nat) (parent : list nat) (x : nat)
  : option (list nat * nat) :=
  match fuel with
  | O => None
  | S k =>
      match parent !! x with
      | None => None
      | Some p =>
          if decide (p = x) then Some (parent, p)
          else match find k parent p with
               | None => None
               | Some (parent', r) => Some (<[x := r]> parent', r)
               end
      end
  end.

Definition union (fuel : nat) (parent : list nat) (x y : nat)
  : option (list nat) :=
  match find fuel parent x with
  | None => None
  | Some (parent1, px) =>
      match find fuel parent1 y with
      | None => None
      | Some (parent2, py) =>
          Some (if decide (px = py) then parent2 else <[px := py]> parent2)
      end
  end.

(** The index pairs of the two nested loops, in the order they run. *)
Definition pairs (n : nat) : list (nat * nat) :=
  flat_map (fun i => map (pair i) (seq (S i) (n - S i))) (seq 0 n).

Definition compare fuzz (records : list record) (fuel : nat)
    (parent : list nat) (ij : nat * nat) : option (list nat) :=
  match records !! ij.1, records !! ij.2 with
  | Some ri, Some rj =>
      if Qge_bool (similarity_score fuzz ri rj) SIMILARITY_THRESHOLD
      then union fuel parent ij.1 ij.2
      else Some parent
  | _, _ => None
  end.

Fixpoint compare_all fuzz (records : list record) (fuel : nat)
    (todo : list (nat * nat)) (parent : list nat) : option (list nat) :=
  match todo with
  | [] => Some parent
  | ij :: rest =>
      match compare fuzz records fuel parent ij with
      | None => None
      | Some parent' => compare_all fuzz records fuel rest parent'
      end
  end.

(** [clusters_map[root].add(rid)] on a [defaultdict(set)]; the
    association list keeps the keys in insertion order, as the dict
    does. *)
Fixpoint add_to_cluster (root : nat) (rid : Z)
    (clusters_map : list (nat * gset Z)) : list (nat * gset Z) :=
  match clusters_map with
  | [] => [(root, {[rid]})]
  | (k, c) :: rest =>
      if decide (k = root) then (k, c ∪ {[rid]}) :: rest
      else (k, c) :: add_to_cluster root rid rest
  end.

Fixpoint build_clusters (records : list record) (fuel : nat)
    (todo : list nat) (parent : list nat)
    (clusters_map : list (nat * gset Z)) : option (list (nat * gset Z)) :=
  match todo with
  | [] => Some clusters_map
  | i :: rest =>
      match find fuel parent i, records !! i with
      | Some (parent', root), Some r =>
          build_clusters records fuel rest parent'
            (add_to_cluster root (id r) clusters_map)
      | _, _ => None
      end
  end.

(** [find_clusters].  A chain of parent links never gets longer than
    the number of unions made, which is below [n * n], so the fuel is
    never what stops [find].  The interpreter's limit on the depth of
    recursion is not part of this embedding: where a chain of parent
    links outgrows it the code raises RecursionError. *)
Definition find_clusters fuzz (records : list record)
  : option (list (gset Z)) :=
  let n := length records in
  match n with
  | O => Some []
  | _ =>
      let fuel := S (n * n) in
      match compare_all fuzz records fuel (pairs n) (seq 0 n) with
      | None => None
      | Some parent =>
          match build_clusters records fuel (seq 0 n) parent [] with
          | None => None
          | Some clusters_map => Some (clusters_map.*2)
          end
      end
  end.

(** *** Blocking and the main pass *)

(** The rows the query of [deduplicate] fetches:
    [WHERE title_normalized IS NOT NULL AND year IS NOT NULL].  The
    table is listed in the order of its [ORDER BY]. *)
Definition selected (r : record) : bool :=
  bool_decide (title_normalized r <> None) && bool_decide (year r <> None).

Definition fetch (publications : list record) : list record :=
  filter (fun r => selected r = true) publications.

Definition block_key : Type := Z * str.

(** [blocks[key].append(record)] on a [defaultdict(list)], keys in
    insertion order. *)
Fixpoint append_to_block (key : block_key) (r : record)
    (blocks : list (block_key * list record))
  : list (block_key * list record) :=
  match blocks with
  | [] => [(key, [r])]
  | (k, rs) :: rest =>
      if decide (k = key) then (k, rs ++ [r]) :: rest
      else (k, rs) :: append_to_block key r rest
  end.

Definition year_bucket (y : Z) : Z := (y / 5 * 5)%Z.

(** The keys one record is filed under, in the order the loop body
    appends them. *)
Definition block_keys (r : record) : list block_key :=
  match year r, title_normalized r with
  | Some y, Some t =>
      let title_prefix := get_title_prefix t in
      match title_prefix with
      | [] => []
      | _ => [(year_bucket y, title_prefix);
              ((year_bucket y - 5)%Z, title_prefix);
              ((year_bucket y + 5)%Z, title_prefix)]
      end
  | _, _ => []
  end.

Definition file_record (blocks : list (block_key * list record))
    (r : record) : list (block_key * list record) :=
  foldl (fun b key => append_to_block key r b) blocks (block_keys r).

Definition build_blocks (records : list record)
  : list (block_key * list record) :=
  foldl file_record [] records.

(** The first record of each id, in order. *)
Fixpoint unique_from (seen_ids : gset Z) (block_records : list record)
  : list record :=
  match block_records with
  | [] => []
  | r :: rest =>
      if decide (id r ∈ seen_ids) then unique_from seen_ids rest
      else r :: unique_from (seen_ids ∪ {[id r]}) rest
  end.

Definition unique_records (block_records : list record) : list record :=
  unique_from ∅ block_records.

(** The state of the loop over blocks: [all_clusters] and
    [processed_ids]. *)
Definition accept (st : list (gset Z) * gset Z) (cluster : gset Z)
  : list (gset Z) * gset Z :=
  let '(all_clusters, processed_ids) := st in
  if (1 <? size cluster)%nat
  then if decide (cluster ∩ processed_ids = ∅)
       then (all_clusters ++ [cluster], processed_ids ∪ cluster)
       else st
  else st.

(** The clusters [find_clusters] returns for one block; [Some []] for a
    block the loop skips. *)
Definition block_clusters fuzz (block_records : list record)
  : option (list (gset Z)) :=
  if (length block_records <? 2)%nat then Some []
  else
    let unique := unique_records block_records in
    if (length unique <? 2)%nat then Some []
    else find_clusters fuzz unique.

Fixpoint process_blocks fuzz (blocks : list (block_key * list record))
    (st : list (gset Z) * gset Z) : option (list (gset Z) * gset Z) :=
  match blocks with
  | [] => Some st
  | (_, block_records) :: rest =>
      match block_clusters fuzz block_records with
      | None => None
      | Some clusters => process_blocks fuzz rest (foldl accept st clusters)
      end
  end.

(** [min(cluster)]; [None] stands for the [ValueError] on an empty
    set. *)
Definition set_min (cluster : gset Z) : option Z :=
  match elements cluster with
  | [] => None
  | x :: xs => Some (foldr Z.min x xs)
  end.

(** The column [canonical_id] as a map from [id]; an id without an
    entry is NULL.  [assign] runs the [UPDATE]s of one cluster. *)
Definition assign (canonical : gmap Z Z) (cluster : gset Z)
  : option (gmap Z Z) :=
  match set_min cluster with
  | None => None
  | Some canonical_id =>
      Some (set_fold (fun record_id m => <[record_id := canonical_id]> m)
                     canonical cluster)
  end.

Fixpoint assign_all (canonical : gmap Z Z) (all_clusters : list (gset Z))
  : option (gmap Z Z) :=
  match all_clusters with
  | [] => Some canonical
  | cluster :: rest =>
      match assign canonical cluster with
      | None => None
      | Some canonical' => assign_all canonical' rest
      end
  end.

(** The clusters [deduplicate] keeps. *)
Definition duplicate_clusters fuzz (publications : list record)
  : option (list (gset Z)) :=
  match process_blocks fuzz (build_blocks (fetch publications)) ([], ∅) with
  | None => None
  | Some (all_clusters, _) => Some all_clusters
  end.

(** [deduplicate]: the column [canonical_id] it leaves, starting from
    all NULL. *)
Definition deduplicate fuzz (publications : list record)
  : option (gmap Z Z) :=
  match duplicate_clusters fuzz publications with
  | None => None
  | Some all_clusters => assign_all ∅ all_clusters
  end.

(** A record counts as a unique work when
    [canonical_id IS NULL OR canonical_id = id]. *)
Definition is_canonical (canonical : gmap Z Z) (r : record) : bool :=
  match canonical !! id r with
  | None => true
  | Some c => (c =? id r)%Z
  end.

Definition canonical_records (canonical : gmap Z Z)
    (publications : list record) : list record :=
  filter (fun r => is_canonical canonical r = true) publications.

End Dedupe.

(** ** dedupe.py: [similarity_score] in the arithmetic it is run in *)

Module DedupeFloat.
Import Dedupe.

(** The numbers [similarity_score] computes with and what it does with
    them: an [int] used as a float, a float literal, [+], [*], [/] and
    the test [> 0].  The interpreter computes in IEEE doubles
    ([binary64]); [Dedupe] reads the same operations over the rationals
    ([exact]). *)
Class Arith := {
  num : Type;
  of_int : Z -> num;
  literal : Q -> num;
  add : num -> num -> num;
  mul : num -> num -> num;
  div : num -> num -> num;
  positive : num -> bool;
}.

Definition exact : Arith := {|
  num := Q;
  of_int := inject_Z;
  literal := fun q => q;
  add := Qplus;
  mul := Qmult;
  div := Qdiv;
  positive := fun x => if Qlt_le_dec 0 x then true else false;
|}.

(** IEEE 754 doubles, rounding to nearest even.  A literal is the
    double nearest to the decimal written. *)
Definition double_of_int (z : Z) : SpecFloat.spec_float :=
  SpecFloat.binary_normalize 53 1024 z 0 false.

Definition binary64 : Arith := {|
  num := SpecFloat.spec_float;
  of_int := double_of_int;
  literal := fun q =>
    SpecFloat.SFdiv 53 1024 (double_of_int (Qnum q))
                            (double_of_int (Zpos (Qden q)));
  add := SpecFloat.SFadd 53 1024;
  mul := SpecFloat.SFmul 53 1024;
  div := SpecFloat.SFdiv 53 1024;
  positive := fun x => SpecFloat.SFltb (double_of_int 0) x;
|}.

Section Score.
Context {A : Arith}.

(** rapidfuzz's [token_set_ratio] when it was imported, [None]
    otherwise. *)
Variable fuzz : option (str -> str -> num).

Definition basic_sim (s1 s2 : str) : num :=
  let t1 := word_set s1 in
  let t2 := word_set s2 in
  if negb (bool_decide (t1 = ∅)) && negb (bool_decide (t2 = ∅))
  then mul (div (of_int (Z.of_nat (size (t1 ∩ t2))))
                (of_int (Z.of_nat (size (t1 ∪ t2)))))
           (of_int 100)
  else of_int 0.

Definition field_sim (s1 s2 : str) : num :=
  match fuzz with
  | Some token_set_ratio => token_set_ratio s1 s2
  | None => basic_sim s1 s2
  end.

Definition year_sim (y1 y2 : Z) : num :=
  let year_diff := Z.abs (y1 - y2) in
  of_int (if (year_diff <=? YEAR_TOLERANCE)%Z
          then 100 - year_diff * 20
          else 0)%Z.

Definition add_title (r1 r2 : record) (acc : num * num) : num * num :=
  let '(score, weights_total) := acc in
  if present (title_normalized r1) && present (title_normalized r2)
  then (add score (mul (field_sim (text (title_normalized r1))
                                  (text (title_normalized r2)))
                       (literal 0.6)),
        add weights_total (literal 0.6))
  else acc.

Definition add_creator (r1 r2 : record) (acc : num * num) : num * num :=
  let '(score, weights_total) := acc in
  if present (creator_normalized r1) && present (creator_normalized r2)
  then (add score (mul (field_sim (text (creator_normalized r1))
                                  (text (creator_normalized r2)))
                       (literal 0.3)),
        add weights_total (literal 0.3))
  else acc.

Definition add_year (r1 r2 : record) (acc : num * num) : num * num :=
  let '(score, weights_total) := acc in
  if year_present (year r1) && year_present (year r2)
  then (add score (mul (year_sim (default 0%Z (year r1))
                                 (default 0%Z (year r2)))
                       (literal 0.1)),
        add weights_total (literal 0.1))
  else acc.

Definition accumulate (r1 r2 : record) : num * num :=
  add_year r1 r2 (add_creator r1 r2 (add_title r1 r2 (literal 0, literal 0))).

(** [similarity_score]. *)
Definition similarity_score (record1 record2 : record) : num :=
  let '(score, weights_total) := accumulate record1 record2 in
  if positive weights_total
  then mul (div score weights_total) (of_int 100)
  else literal 0.

End Score.

(** The scorer of [Dedupe] as a scorer over the rationals. *)
Definition rational (fuzz : option Rapidfuzz)
  : option (str -> str -> @num exact) :=
  match fuzz with
  | Some F => Some (@token_set_ratio F)
  | None => None
  end.

End DedupeFloat.

(** ** scripts/utils/deduplicator.py *)

Module Deduplicator.

(** A cell of a DataFrame row: a string, or one of the two nulls
    [pd.isna] recognises. *)
Inductive cell :=
| NaN
| PyNone
| Text (s : str).

Definition isna (c : cell) : bool :=
  match c with
  | Text _ => false
  | _ => true
  end.

(** A record as [calculate_overall_similarity] reads it:
    [record.get(field, '')] for the three strings, so that a key that
    is absent reads as the empty string [Text []], and
    [record.get('publication_year')]. *)
Record record := mkRecord {
  title : cell;
  author : cell;
  publication_year : option Z;
  publication_place : cell;
  source_catalogue : cell;
}.

Inductive field := Title | Author | Date | Place.

(** The configuration [__init__] reads, with its defaults. *)
Record config := mkConfig {
  title_similarity_threshold : Q;
  author_similarity_threshold : Q;
  date_tolerance_years : Z;
  overall_score_threshold : Q;
  weights : list (field * Q);
}.

Definition default_config : config := {|
  title_similarity_threshold := 0.7;
  author_similarity_threshold := 0.8;
  date_tolerance_years := 5;
  overall_score_threshold := 0.75;
  weights := [(Title, 0.4); (Author, 0.3); (Date, 0.2); (Place, 0.1)];
|}.

(** The transliteration library. *)
Class Unidecode := { unidecode : str -> str }.

Section Scoring.
Context {U : Unicode} {D : Unidecode} {F : Rapidfuzz}.
Variable cfg : config.

(** [normalize_text]. *)
Definition normalize_text (text : cell) : str :=
  match text with
  | Text s =>
      strip (collapse_spaces (sub_non_word_space (unidecode (lower s))))
  | _ => []
  end.

Definition stop_words : list str :=
  map lit ["de"; "der"; "die"; "das"; "des"; "dem"; "den"; "ein"; "eine";
           "einer"; "einem"; "einen"; "et"; "ad"; "in"; "a"; "ab"; "ex";
           "per"; "pro"; "cum"; "sine"; "sub"; "super"; "inter";
           "contra"; "the"; "a"; "an"]%string.

(** [extract_keywords]. *)
Definition extract_keywords (title : cell) : gset str :=
  let normalized := normalize_text title in
  list_to_set
    (filter (fun word => (2 < length word)%nat /\ word ∉ stop_words)
            (split normalized)).

Definition frac (a b : nat) : Q :=
  inject_Z (Z.of_nat a) / inject_Z (Z.of_nat b).

(** [calculate_title_similarity]. *)
Definition calculate_title_similarity (title1 title2 : cell) : Q :=
  if isna title1 || isna title2 then 0
  else
    let norm1 := normalize_text title1 in
    let norm2 := normalize_text title2 in
    let direct_similarity := ratio norm1 norm2 / 100 in
    let token_similarity := token_set_ratio norm1 norm2 / 100 in
    let keywords1 := extract_keywords title1 in
    let keywords2 := extract_keywords title2 in
    let keyword_similarity :=
      if bool_decide (keywords1 = ∅) && bool_decide (keywords2 = ∅) then 1
      else if bool_decide (keywords1 = ∅) || bool_decide (keywords2 = ∅)
           then 0
           else
             let intersection := keywords1 ∩ keywords2 in
             let union := keywords1 ∪ keywords2 in
             if bool_decide (union = ∅) then 0
             else frac (size intersection) (size union) in
    direct_similarity * 0.3 + token_similarity * 0.4
    + keyword_similarity * 0.3.

(** [sum(1 for w1, w2 in zip(words1, words2) if w1[0] == w2[0])]. *)
Fixpoint matching_initials (words1 words2 : list str) : nat :=
  match words1, words2 with
  | w1 :: rest1, w2 :: rest2 =>
      (if bool_decide (head w1 = head w2) then 1 else 0)%nat
      + matching_initials rest1 rest2
  | _, _ => 0%nat
  end.

(** [calculate_author_similarity]; [None] is the
    [ZeroDivisionError] of [matching_initials / len(words1)]. *)
Definition calculate_author_similarity (author1 author2 : cell)
  : option Q :=
  if isna author1 || isna author2 then Some 0
  else
    let norm1 := normalize_text author1 in
    let norm2 := normalize_text author2 in
    let words1 := split norm1 in
    let words2 := split norm2 in
    let surname1 := default [] (last words1) in
    let surname2 := default [] (last words2) in
    if bool_decide (surname1 = surname2)
       && negb (bool_decide (surname1 = []))
    then Some 1
    else
      let similarity := ratio norm1 norm2 / 100 in
      if bool_decide (length words1 = length words2)
      then match length words1 with
           | O => None
           | n => Some (py_min 1 (similarity
                                + frac (matching_initials words1 words2) n
                                  * 0.2))
           end
      else Some (py_min 1 (similarity + 0)).

(** [calculate_date_similarity]. *)
Definition calculate_date_similarity (year1 year2 : option Z) : Q :=
  match year1, year2 with
  | Some y1, Some y2 =>
      if (y1 =? y2)%Z then 1
      else
        let diff := Z.abs (y1 - y2) in
        if (diff <=? 1)%Z then 0.9
        else if (diff <=? 2)%Z then 0.7
        else if (diff <=? date_tolerance_years cfg)%Z then 0.5
        else if (diff <=? date_tolerance_years cfg * 2)%Z then 0.3
        else 0.1
  | _, _ => 0
  end.

(** [calculate_place_similarity]. *)
Definition calculate_place_similarity (place1 place2 : cell) : Q :=
  if isna place1 || isna place2 then 0
  else
    let norm1 := normalize_text place1 in
    let norm2 := normalize_text place2 in
    let similarity := ratio norm1 norm2 / 100 in
    let words1 : gset str := list_to_set (split norm1) in
    let words2 : gset str := list_to_set (split norm2) in
    if negb (bool_decide (words1 = ∅)) && negb (bool_decide (words2 = ∅))
    then py_max similarity
              (frac (size (words1 ∩ words2)) (size (words1 ∪ words2)))
    else similarity.

(** The dictionary [calculate_overall_similarity] returns. *)
Record scores := mkScores {
  s_title : Q;
  s_author : Q;
  s_date : Q;
  s_place : Q;
  s_overall : Q;
}.

Definition score_of (t a d p : Q) (f : field) : Q :=
  match f with
  | Title => t
  | Author => a
  | Date => d
  | Place => p
  end.

(** [sum(scores[field] * weight for field, weight in weights.items())]. *)
Definition weighted_sum (t a d p : Q) (ws : list (field * Q)) : Q :=
  foldl (fun acc fw => acc + score_of t a d p fw.1 * fw.2) 0 ws.

(** [calculate_overall_similarity]. *)
Definition calculate_overall_similarity (record1 record2 : record)
  : option scores :=
  let t := calculate_title_similarity (title record1) (title record2) in
  match calculate_author_similarity (author record1) (author record2) with
  | None => None
  | Some a =>
      let d := calculate_date_similarity (publication_year record1)
                                         (publication_year record2) in
      let p := calculate_place_similarity (publication_place record1)
                                          (publication_place record2) in
      Some (mkScores t a d p (weighted_sum t a d p (weights cfg)))
  end.

(** [is_duplicate_pair]. *)
Definition is_duplicate_pair (record1 record2 : record)
  : option (bool * scores) :=
  match calculate_overall_similarity record1 record2 with
  | None => None
  | Some sc =>
      let title_pass := Qge_bool (s_title sc) (title_similarity_threshold cfg) in
      let author_pass := Qge_bool (s_author sc) (author_similarity_threshold cfg) in
      Some (Qge_bool (s_overall sc) (overall_score_threshold cfg)
            && title_pass && author_pass, sc)
  end.

(** *** [_select_primary_record] *)

Definition source_priority (source : str) : Z :=
  if bool_decide (source = lit "ustc") then 1
  else if bool_decide (source = lit "vd16") then 2
  else if bool_decide (source = lit "vd17") then 3
  else if bool_decide (source = lit "vd18") then 4
  else if bool_decide (source = lit "estc") then 5
  else if bool_decide (source = lit "worldcat") then 6
  else 10.

Definition notna (c : cell) : nat := if isna c then 0%nat else 1%nat.

(** [len(str(cell))]: a null prints as [nan] or [None]. *)
Definition str_len (c : cell) : nat :=
  match c with
  | NaN => 3%nat
  | PyNone => 4%nat
  | Text s => length s
  end.

(** The score of one record; [None] is the [AttributeError] of
    [.lower()] on a null [source_catalogue]. *)
Definition primary_score (r : record) : option Q :=
  match source_catalogue r with
  | Text src =>
      let source := lower src in
      let completeness :=
        (notna (title r) + notna (author r)
         + (match publication_year r with Some _ => 1 | None => 0 end)
         + notna (publication_place r))%nat in
      let title_length := str_len (title r) in
      let author_length := str_len (author r) in
      Some (0 + inject_Z (10 - source_priority source) * 0.3
            + frac completeness 4 * 0.4
            + py_min (frac title_length 100) 1 * 0.15
            + py_min (frac author_length 50) 1 * 0.15)
  | _ => None
  end.

Fixpoint score_all (group_records : list (nat * record))
  : option (list (nat * Q)) :=
  match group_records with
  | [] => Some []
  | (idx, r) :: rest =>
      match primary_score r, score_all rest with
      | Some sc, Some tl => Some ((idx, sc) :: tl)
      | _, _ => None
      end
  end.

(** [max(scores, key=lambda x: x[1])]: the first of the largest. *)
Fixpoint max_by_score (best : nat * Q) (rest : list (nat * Q)) : nat * Q :=
  match rest with
  | [] => best
  | x :: rest' =>
      if Qlt_le_dec best.2 x.2 then max_by_score x rest'
      else max_by_score best rest'
  end.

Definition _select_primary_record (group_records : list (nat * record))
  : option nat :=
  match score_all group_records with
  | Some (first :: rest) => Some (max_by_score first rest).1
  | _ => None
  end.

End Scoring.

End Deduplicator.

(** ** scripts/bph_ia_fuzzy_match.py *)

Module FuzzyMatch.

Definition ae : str := [230%N].   (* the ligature ae, U+00E6 *)
Definition oe : str := [339%N].   (* the ligature oe, U+0153 *)

(** [normalize_title]. *)
Definition normalize_title {U : Unicode} (title : str) : str :=
  match title with
  | [] => []
  | _ =>
      let t := lower title in
      let t := sub_non_word_space t in
      let t := join (lit " ") (split t) in
      replace oe (lit "oe") (replace ae (lit "ae") t)
  end.

Definition stopwords : list str :=
  map lit ["de"; "in"; "ad"; "et"; "ex"; "pro"; "per"; "cum"; "ab"; "a";
           "the"; "of"; "and"; "or"; "to"; "from"; "by"; "with"; "for";
           "liber"; "libri"; "libro"; "opus"; "opera"; "tractatus";
           "summa"; "von"; "und"; "der"; "die"; "das"; "des"; "dem";
           "den"; "ein"; "eine"]%string.

(** [extract_significant_words]. *)
Definition extract_significant_words {U : Unicode} (title : str)
    (min_length : nat) : gset str :=
  let normalized := normalize_title title in
  let words := split normalized in
  list_to_set
    (filter (fun w => (min_length <= length w)%nat /\ w ∉ stopwords) words).

End FuzzyMatch.

(** ** scripts/matching/bph_ia_agent_match.py *)

Module AgentMatch.

Definition EMBEDDING_THRESHOLD_HIGH : Q := 0.85.
Definition EMBEDDING_THRESHOLD_MEDIUM : Q := 0.75.
Definition EMBEDDING_THRESHOLD_LOW : Q := 0.60.
Definition FUZZY_THRESHOLD : Q := 80.

Record BPHWork := mkBPH {
  bph_id : str;
  bph_title : str;
  bph_author : option str;
  bph_year : option Z;
  bph_publisher : option str;
  bph_place : option str;
  bph_ubn : option str;
}.

Record IAWork := mkIA {
  ia_identifier : str;
  ia_title : str;
  ia_creator : option str;
  ia_year : option Z;
  ia_description : option str;
}.

Record MatchCandidate := mkCandidate {
  c_bph_work : BPHWork;
  c_ia_work : IAWork;
  embedding_score : Q;
  fuzzy_score : Q;
  author_match : value;
  year_match : value;
  c_confidence : str;
}.

(** What [json.loads] can return. *)
#[warnings="-register-all"] Inductive json :=
| JNull
| JBool (b : bool)
| JInt (z : Z)
| JFloat (q : Q)
| JStr (s : str)
| JList (l : list json)
| JDict (items : list (str * json)).

(** The fields [confidence] and [reasoning] of a result hold whatever
    the oracle's JSON holds there, so both are [json] values. *)
Record MatchResult := mkResult {
  r_bph_work : BPHWork;
  r_ia_work : option IAWork;
  is_match : bool;
  r_confidence : json;
  match_type : str;
  reasoning : json;
  method : str;
}.

(** [normalize_text]. *)
Definition normalize_text {U : Unicode} (text : str) : str :=
  match text with
  | [] => []
  | _ =>
      let text := lower text in
      let text := nfkd text in
      let text := replace FuzzyMatch.oe (lit "oe")
                    (replace FuzzyMatch.ae (lit "ae") text) in
      let text := sub_non_word_space text in
      join (lit " ") (split text)
  end.

(** What the call to the oracle and [json.loads] can do: return, or
    raise an exception with a message. *)
Inductive outcome (A : Type) :=
| Returned (a : A)
| Raised (message : str).
Arguments Returned {A} a.
Arguments Raised {A} message.

(** The collaborators of the matcher: the embedding index, the surname
    extractor (lines 117-129, whose result only feeds [author_match]),
    float formatting, the oracle and the JSON parser. *)
Class Services := {
  faiss_search : BPHWork -> list (Q * Z);
  extract_surname : str -> str;
  format_3f : Q -> str;
  messages_create : MatchCandidate -> outcome str;
  json_loads : str -> outcome (list (str * json));
}.

Section Matcher.
Context {U : Unicode} {F : Rapidfuzz} {S : Services}.
Variable use_llm : bool.
Variable llm_mode : str.
Variable ia_works : list IAWork.

(** The [if]/[elif] chain of [find_candidates]. *)
Definition tier (score : Q) (author_match year_match : value) : str :=
  if Qge_bool score EMBEDDING_THRESHOLD_HIGH
     && (truthy author_match || truthy year_match)
  then lit "high"
  else if Qge_bool score EMBEDDING_THRESHOLD_MEDIUM
          && truthy author_match && truthy year_match
  then lit "high"
  else if Qge_bool score EMBEDDING_THRESHOLD_HIGH
  then lit "medium"
  else if Qge_bool score EMBEDDING_THRESHOLD_MEDIUM
          && (truthy author_match || truthy year_match)
  then lit "medium"
  else if Qge_bool score EMBEDDING_THRESHOLD_LOW
  then (if use_llm then lit "needs_llm" else lit "low")
  else lit "low".

Definition year_value (y : option Z) : value :=
  match y with
  | Some z => VInt z
  | None => VNone
  end.

(** The body of the loop over the search results, for one hit. *)
Definition candidate (bph_work : BPHWork) (score : Q) (ia_work : IAWork)
  : MatchCandidate :=
  let bph_norm := normalize_text (bph_title bph_work) in
  let bph_surname := extract_surname (default [] (bph_author bph_work)) in
  let ia_norm := normalize_text (ia_title ia_work) in
  let fuzzy_score := token_set_ratio bph_norm ia_norm in
  let ia_surname := extract_surname (default [] (ia_creator ia_work)) in
  let author_match :=
    and_ (VStr bph_surname)
         (and_ (VStr ia_surname)
               (VBool (Qge_bool (ratio bph_surname ia_surname) 80))) in
  let year_match :=
    and_ (year_value (bph_year bph_work))
         (and_ (year_value (ia_year ia_work))
               (VBool (Z.abs (default 0%Z (bph_year bph_work)
                              - default 0%Z (ia_year ia_work)) <=? 30)%Z)) in
  mkCandidate bph_work ia_work score fuzzy_score author_match year_match
              (tier score author_match year_match).

(** The loop; [None] is the [IndexError] of [self.ia_works[idx]]. *)
Fixpoint collect (bph_work : BPHWork) (hits : list (Q * Z))
  : option (list MatchCandidate) :=
  match hits with
  | [] => Some []
  | (score, idx) :: rest =>
      if (idx <? 0)%Z then collect bph_work rest
      else match ia_works !! Z.to_nat idx, collect bph_work rest with
           | Some ia_work, Some cs =>
               Some (candidate bph_work score ia_work :: cs)
           | _, _ => None
           end
  end.

(** [sorted(candidates, key=embedding_score, reverse=True)]: stable,
    largest first. *)
Fixpoint insert_desc (c : MatchCandidate) (sorted : list MatchCandidate)
  : list MatchCandidate :=
  match sorted with
  | [] => [c]
  | d :: rest =>
      if Qlt_le_dec (embedding_score c) (embedding_score d)
      then d :: insert_desc c rest
      else c :: sorted
  end.

Definition sort_desc (cs : list MatchCandidate) : list MatchCandidate :=
  foldr insert_desc [] cs.

(** [find_candidates]. *)
Definition find_candidates (bph_work : BPHWork)
  : option (list MatchCandidate) :=
  match collect bph_work (faiss_search bph_work) with
  | Some cs => Some (sort_desc cs)
  | None => None
  end.

(** [re.search(r'\{[^}]+\}', text, re.DOTALL)]: from the first brace
    that is followed by at least one character other than a closing
    brace and then a closing brace. *)
Fixpoint up_to_close (s : str) : option str :=
  match s with
  | [] => None
  | c :: s' =>
      if (c =? 125)%N then Some []
      else match up_to_close s' with
           | Some body => Some (c :: body)
           | None => None
           end
  end.

Fixpoint search_json (text : str) : option str :=
  match text with
  | [] => None
  | c :: rest =>
      if (c =? 123)%N
      then match up_to_close rest with
           | Some (b :: body) => Some (c :: (b :: body) ++ [125%N])
           | _ => search_json rest
           end
      else search_json rest
  end.

(** [result[key]] with its [KeyError].  The text handed to
    [json.loads] starts with a brace, so what it returns is a dict. *)
Fixpoint dict_get (key : str) (items : list (str * json)) : option json :=
  match items with
  | [] => None
  | (k, v) :: rest => if decide (k = key) then Some v else dict_get key rest
  end.

Definition subscript (result : list (str * json)) (key : str)
  : outcome json :=
  match dict_get key result with
  | Some v => Returned v
  | None => Raised (lit "'" ++ key ++ lit "'")
  end.

Definition type_name (v : json) : str :=
  match v with
  | JNull => lit "NoneType"
  | JBool _ => lit "bool"
  | JInt _ => lit "int"
  | JFloat _ => lit "float"
  | JStr _ => lit "str"
  | JList _ => lit "list"
  | JDict _ => lit "dict"
  end.

(** The result of the [except] branch. *)
Definition llm_error (cand : MatchCandidate) (message : str) : MatchResult :=
  mkResult (c_bph_work cand) None false (JStr (lit "low")) (lit "error")
           (JStr (lit "LLM error: " ++ message)) (lit "llm_error").

(** [llm_evaluate]. *)
Definition llm_evaluate (cand : MatchCandidate) : MatchResult :=
  match messages_create cand with
  | Raised message => llm_error cand message
  | Returned text =>
      let parsed :=
        match search_json text with
        | Some matched => json_loads matched
        | None =>
            Returned [(lit "verdict", JStr (lit "DIFFERENT"));
                      (lit "confidence", JStr (lit "low"));
                      (lit "reasoning",
                       JStr (lit "Could not parse response"))]
        end in
      match parsed with
      | Raised message => llm_error cand message
      | Returned result =>
          match subscript result (lit "verdict") with
          | Raised message => llm_error cand message
          | Returned verdict =>
              match verdict with
              | JStr v =>
                  let is_match :=
                    bool_decide (v = lit "SAME_EDITION")
                    || bool_decide (v = lit "SAME_WORK") in
                  let match_type := lower v in
                  match subscript result (lit "confidence") with
                  | Raised message => llm_error cand message
                  | Returned confidence =>
                      match subscript result (lit "reasoning") with
                      | Raised message => llm_error cand message
                      | Returned reasoning =>
                          mkResult (c_bph_work cand)
                            (if is_match then Some (c_ia_work cand) else None)
                            is_match confidence match_type reasoning
                            (lit "llm")
                      end
                  end
              | _ =>
                  llm_error cand
                    (lit "'" ++ type_name verdict
                     ++ lit "' object has no attribute 'lower'")
              end
          end
      end
  end.

(** [match_work]. *)
Definition match_work (bph_work : BPHWork) : option MatchResult :=
  match find_candidates bph_work with
  | None => None
  | Some [] =>
      Some (mkResult bph_work None false (JStr (lit "high"))
              (lit "no_candidates")
              (JStr (lit "No candidates found above threshold"))
              (lit "embedding"))
  | Some (best :: _) =>
      if bool_decide (c_confidence best = lit "high")
      then
        let match_type :=
          if truthy (author_match best) && truthy (year_match best)
          then lit "same_edition" else lit "same_work" in
        Some (mkResult bph_work (Some (c_ia_work best)) true
                (JStr (lit "high")) match_type
                (JStr (lit "High embedding score ("
                       ++ format_3f (embedding_score best)
                       ++ lit ") with metadata confirmation"))
                (lit "embedding"))
      else if bool_decide (c_confidence best = lit "medium")
              && negb (bool_decide (llm_mode = lit "full"))
      then
        Some (mkResult bph_work (Some (c_ia_work best)) true
                (JStr (lit "medium")) (lit "same_work")
                (JStr (lit "Good embedding score ("
                       ++ format_3f (embedding_score best)
                       ++ lit ") without full metadata match"))
                (lit "embedding"))
      else if bool_decide (c_confidence best = lit "needs_llm")
              || bool_decide (llm_mode = lit "full")
      then Some (llm_evaluate best)
      else
        Some (mkResult bph_work None false (JStr (lit "high"))
                (lit "no_match")
                (JStr (lit "Best candidate score ("
                       ++ format_3f (embedding_score best)
                       ++ lit ") below threshold"))
                (lit "embedding"))
  end.

End Matcher.

End AgentMatch.

(** ** scripts/utils/deduplicator.py: the methods over a DataFrame *)

Module DeduplicatorFrames.
Import Deduplicator.

(** A DataFrame: its rows in order, each with its index label.  The
    pipeline filters rows without resetting the index, so labels need
    not be positions. *)
Definition frame : Type := list (nat * record).

Definition index (df : frame) : list nat := df.*1.

(** The iteration order of a Python [set] of labels: some enumeration
    of its elements. *)
Class SetOrder := {
  set_to_list : gset nat -> list nat;
  set_to_list_perm : forall X, set_to_list X ≡ₚ elements X;
}.

(** [df.loc[labels]]: the rows of each label, in the order of
    [labels]; [None] is the [KeyError] on a label the index lacks. *)
Fixpoint loc (df : frame) (labels : list nat) : option frame :=
  match labels with
  | [] => Some []
  | l :: rest =>
      match filter (fun row => row.1 = l) df, loc df rest with
      | (_ :: _) as rows, Some tl => Some (rows ++ tl)
      | _, _ => None
      end
  end.

(** [df.iloc[k]]: the row at position [k]; [None] is the
    [IndexError]. *)
Definition iloc (df : frame) (k : nat) : option record :=
  snd <$> df !! k.

Section Frames.
Context {U : Unicode} {D : Unidecode} {F : Rapidfuzz} {O : SetOrder}.
Variable cfg : config.

(** The blocking columns [find_duplicate_groups] adds. *)
Definition title_first (r : record) : str :=
  take 3 (normalize_text (title r)).

Definition year_bucket (r : record) : Z :=
  Z.div (default 0%Z (publication_year r)) 5.

(** The rows [potential_matches] selects for the row [idx]. *)
Definition potential_matches (df : frame) (processed : gset nat)
    (idx : nat) (record : record) : frame :=
  filter (fun row => row.1 <> idx /\ (row.1 ∉ processed)
                     /\ year_bucket row.2 = year_bucket record
                     /\ title_first row.2 = title_first record) df.

(** The inner loop: [matches] and [processed] after the potential
    matches were checked; [None] when [is_duplicate_pair] raises. *)
Fixpoint check_matches (record : record) (potential : frame)
    (st : list nat * gset nat) : option (list nat * gset nat) :=
  match potential with
  | [] => Some st
  | (match_idx, match_record) :: rest =>
      match is_duplicate_pair cfg record match_record with
      | None => None
      | Some (is_duplicate, _) =>
          check_matches record rest
            (if is_duplicate
             then (st.1 ++ [match_idx], st.2 ∪ {[match_idx]})
             else st)
      end
  end.

(** The outer loop over [df.iterrows()]: [groups] and [processed]. *)
Fixpoint group_rows (df : frame) (rows : frame)
    (st : list (list nat) * gset nat)
  : option (list (list nat) * gset nat) :=
  match rows with
  | [] => Some st
  | (idx, record) :: rest =>
      let '(groups, processed) := st in
      if decide (idx ∈ processed) then group_rows df rest st
      else
        let processed := processed ∪ {[idx]} in
        match check_matches record
                (potential_matches df processed idx record)
                ([idx], processed) with
        | None => None
        | Some (matches, processed) =>
            group_rows df rest
              (if (1 <? length matches)%nat then groups ++ [matches]
               else groups, processed)
        end
  end.

(** [find_duplicate_groups]. *)
Definition find_duplicate_groups (df : frame) : option (list (list nat)) :=
  match group_rows df df ([], ∅) with
  | None => None
  | Some (groups, _) =>
      let all_indices : gset nat := list_to_set (index df) in
      let duplicate_indices : gset nat := list_to_set (concat groups) in
      let single_indices := set_to_list (all_indices ∖ duplicate_indices) in
      Some (groups ++ map (fun idx => [idx]) single_indices)
  end.

(** [np.mean] of a non-empty list. *)
Definition mean (l : list Q) : Q :=
  foldr Qplus 0 l / inject_Z (Z.of_nat (length l)).

(** The overall similarities of [_calculate_group_confidence], pair by
    pair; the errors are the [IndexError] of [iloc] and the
    [ZeroDivisionError] of the author signal. *)
Fixpoint pair_similarities (group : list nat) (group_records : frame)
    (todo : list (nat * nat)) : option (list Q) :=
  match todo with
  | [] => Some []
  | (i, j) :: rest =>
      match group !! i, group !! j with
      | Some gi, Some gj =>
          match iloc group_records gi, iloc group_records gj with
          | Some record1, Some record2 =>
              match calculate_overall_similarity cfg record1 record2,
                    pair_similarities group group_records rest with
              | Some scores, Some tl => Some (s_overall scores :: tl)
              | _, _ => None
              end
          | _, _ => None
          end
      | _, _ => None
      end
  end.

(** [_calculate_group_confidence]. *)
Definition _calculate_group_confidence (group : list nat) (df : frame)
  : option Q :=
  if decide (length group = 1%nat) then Some 1
  else
    match loc df group with
    | None => None
    | Some group_records =>
        match pair_similarities group group_records
                (Dedupe.pairs (length group)) with
        | None => None
        | Some [] => Some 0
        | Some similarities => Some (mean similarities)
        end
    end.

End Frames.

(** [_merge_field(group_records, field, 'string')] on a column of
    strings and nulls: the first of the longest values that are not
    blank. *)
Definition dropna (column : list cell) : list str :=
  omap (fun c => match c with Text s => Some s | _ => None end) column.

Fixpoint max_by_len (best : str) (rest : list str) : str :=
  match rest with
  | [] => best
  | v :: rest' =>
      if (length best <? length v)%nat then max_by_len v rest'
      else max_by_len best rest'
  end.

Definition _merge_field_string (column : list cell) : option str :=
  let values := dropna column in
  match values with
  | [] => None
  | _ =>
      match filter (fun v => strip v <> []) values with
      | [] => None
      | first :: rest => Some (max_by_len first rest)
      end
  end.

(** [_merge_field(group_records, field, 'numeric')] on a column of
    numbers and nulls: the first value that is not zero, else the
    first value. *)
Definition _merge_field_numeric (column : list (option Z)) : option Z :=
  let values := omap (fun v => v) column in
  match values with
  | [] => None
  | first :: _ =>
      match filter (fun v => v <> 0%Z) values with
      | value :: _ => Some value
      | [] => Some first
      end
  end.

End DeduplicatorFrames.

(** ** scripts/bph_ia_fuzzy_match.py: the index and the four strategies *)

Module FuzzyStrategies.
Import FuzzyMatch.

Definition FUZZY_THRESHOLD : Q := 80.
Definition SUBSTRING_MIN_LENGTH : nat := 15.

(** A row of [ia_latin_texts] and a row of [bph_works], as the two
    loaders select them; [None] is a JSON null. *)
Record ia_row := mkIARow {
  identifier : str;
  title : option str;
  creator : option str;
  year : option Z;
}.

Record bph_row := mkBPHRow {
  bph_title : option str;
  bph_author : option str;
  bph_year : option Z;
}.

#[global] Instance ia_row_eq_dec : EqDecision ia_row.
Proof. solve_decision. Defined.

(** [row.get(key, '')] handed to a function that tests [if not text]. *)
Definition get_text (field : option str) : str := default [] field.

(** The four indices of [build_ia_indices]. *)
Record indices := mkIndices {
  by_normalized_title : gmap str (list ia_row);
  by_author : gmap str (list ia_row);
  by_words : gmap str (list ia_row);
  all_titles : list (str * ia_row);
}.

(** One entry of a list of matches. *)
Record hit := mkHit {
  method : str;
  score : Q;
  ia_work : ia_row;
}.

(** [re.findall(r'\b([A-Z][a-z]+)\b', name)], the capitalised words
    of a name. *)
Class Surnames := { findall_capitalised : str -> list str }.

(** [index[key].append(work)]. *)
Definition append_to (key : str) (work : ia_row)
    (index : gmap str (list ia_row)) : gmap str (list ia_row) :=
  <[key := default [] (index !! key) ++ [work]]> index.

Section Strategies.
Context {U : Unicode} {F : Rapidfuzz} {R : Surnames}.

(** The body of the loop of [build_ia_indices].  The loop over the
    significant words appends under a different key for each word, so
    the order in which the set is walked does not show. *)
Definition index_work (ix : indices) (work : ia_row) : indices :=
  let norm_title := normalize_title (get_text (title work)) in
  let by_title :=
    match norm_title with
    | [] => by_normalized_title ix
    | _ => append_to norm_title work (by_normalized_title ix)
    end in
  let titles :=
    match norm_title with
    | [] => all_titles ix
    | _ => all_titles ix ++ [(norm_title, work)]
    end in
  let authors :=
    match creator work with
    | Some (c :: name) =>
        foldl (fun index surname => append_to (lower surname) work index)
              (by_author ix) (findall_capitalised (c :: name))
    | _ => by_author ix
    end in
  let words :=
    foldr (fun word index => append_to word work index) (by_words ix)
          (elements (extract_significant_words (get_text (title work)) 4)) in
  mkIndices by_title authors words titles.

Definition build_ia_indices (ia_works : list ia_row) : indices :=
  foldl index_work (mkIndices ∅ ∅ ∅ []) ia_works.

(** [match_exact_prefix]. *)
Definition match_exact_prefix (bph_title : str) (ia_indices : indices)
    (prefix_len : nat) : list hit :=
  let norm_bph := normalize_title bph_title in
  let prefix := take prefix_len norm_bph in
  take 5
    (omap (fun entry : str * ia_row =>
             if starts_with prefix entry.1
             then Some (mkHit (lit "exact_prefix") 100 entry.2)
             else None)
          (all_titles ia_indices)).

(** [candidates[identifier]] after the two nested loops: how many
    entries of the word index, over the significant words of the BPH
    title, carry the identifier. *)
Definition candidates (ia_indices : indices) (bph_words : gset str)
    (ident : str) : nat :=
  sum_list
    (map (fun word =>
            length (filter (fun work => identifier work = ident)
                           (default [] (by_words ia_indices !! word))))
         (elements bph_words)).

(** [match_substring]. *)
Definition match_substring (bph_title : str) (ia_indices : indices)
  : list hit :=
  let norm_bph := normalize_title bph_title in
  if (length norm_bph <? SUBSTRING_MIN_LENGTH)%nat then []
  else
    let bph_words := extract_significant_words bph_title 4 in
    if decide (bph_words = ∅) then []
    else
      take 5
        (omap (fun entry : str * ia_row =>
                 let count := candidates ia_indices bph_words
                                (identifier entry.2) in
                 if (1 <=? count)%nat
                    && (Nat.min 2 (size bph_words) <=? count)%nat
                    && contains norm_bph entry.1
                 then Some (mkHit (lit "substring") 95 entry.2)
                 else None)
              (all_titles ia_indices)).

(** [matches.sort(key=score, reverse=True)]: stable, largest first. *)
Fixpoint insert_hit (h : hit) (sorted : list hit) : list hit :=
  match sorted with
  | [] => [h]
  | d :: rest =>
      if Qlt_le_dec (score h) (score d) then d :: insert_hit h rest
      else h :: sorted
  end.

Definition sort_hits (hs : list hit) : list hit := foldr insert_hit [] hs.

(** [match_fuzzy]. *)
Definition match_fuzzy (bph_title : str) (ia_indices : indices) : list hit :=
  let norm_bph := normalize_title bph_title in
  if (length norm_bph <? 10)%nat then []
  else
    let bph_words := extract_significant_words bph_title 4 in
    let candidate_works :=
      filter (fun entry : str * ia_row =>
                (1 <= candidates ia_indices bph_words
                        (identifier entry.2))%nat)
             (all_titles ia_indices) in
    match candidate_works with
    | [] => []
    | _ =>
        take 5
          (sort_hits
             (omap (fun entry : str * ia_row =>
                      let score := token_set_ratio norm_bph entry.1 in
                      if Qge_bool score FUZZY_THRESHOLD
                      then Some (mkHit (lit "fuzzy") score entry.2)
                      else None)
                   candidate_works))
    end.

(** [match_author_title]. *)
Definition match_author_title (bph_work : bph_row) (ia_indices : indices)
  : list hit :=
  match bph_author bph_work, bph_title bph_work with
  | Some (a :: author), Some (t :: title_rest) =>
      let surnames := findall_capitalised (a :: author) in
      let matches :=
        flat_map
          (fun surname =>
             match by_author ia_indices !! lower surname with
             | None => []
             | Some works =>
                 omap (fun work =>
                         let norm_bph := normalize_title (t :: title_rest) in
                         let norm_ia :=
                           normalize_title (get_text (title work)) in
                         let score := token_set_ratio norm_bph norm_ia in
                         if Qge_bool score 60
                         then Some (mkHit (lit "author_title") score work)
                         else None)
                      works
             end)
          surnames in
      take 5 (sort_hits matches)
  | _, _ => []
  end.

(** The loop of [find_matches] that keeps the first match of each
    identifier. *)
Fixpoint unique_matches (seen : gset str) (all_matches : list hit)
  : list hit :=
  match all_matches with
  | [] => []
  | m :: rest =>
      if decide (identifier (ia_work m) ∈ seen) then unique_matches seen rest
      else m :: unique_matches (seen ∪ {[identifier (ia_work m)]}) rest
  end.

(** What [find_matches] returns, without the BPH row it echoes. *)
Record outcome := mkOutcome {
  matches : list hit;
  best_method : option str;
  best_score : Q;
  found : bool;
}.

(** [find_matches]. *)
Definition find_matches (bph_work : bph_row) (ia_indices : indices)
  : outcome :=
  let title := get_text (bph_title bph_work) in
  let all_matches :=
    match_exact_prefix title ia_indices 50
    ++ match_substring title ia_indices
    ++ match_fuzzy title ia_indices
    ++ match_author_title bph_work ia_indices in
  let unique := sort_hits (unique_matches ∅ all_matches) in
  mkOutcome (take 5 unique)
            (method <$> head unique)
            (default 0 (score <$> head unique))
            (bool_decide (0 < length unique)%nat).

End Strategies.

End FuzzyStrategies.

(** ** scripts/matching/bph_ia_agent_match.py: [extract_surname] and
    [run_matching] *)

Module AgentRun.
Import AgentMatch.

(** [str.isdecimal] on one code point, which is what [\d] matches in a
    [str] pattern. *)
Class Digits := { isdecimal : char -> bool }.

(** The text up to the first closing parenthesis, and the text after
    it. *)
Fixpoint span_to_close (s : str) : option (str * str) :=
  match s with
  | [] => None
  | c :: s' =>
      if (c =? 41)%N then Some ([], s')
      else match span_to_close s' with
           | Some (inside, rest) => Some (c :: inside, rest)
           | None => None
           end
  end.

Section Surname.
Context {U : Unicode} {G : Digits}.

(** [re.sub(r'\([^)]*\d+[^)]*\)', '', name)]: an opening parenthesis
    matches together with everything up to the next closing one when a
    digit stands between them. *)
Fixpoint sub_dated_fuel (fuel : nat) (name : str) : str :=
  match fuel, name with
  | O, _ => name
  | _, [] => []
  | Datatypes.S k, c :: name' =>
      if (c =? 40)%N
      then match span_to_close name' with
           | Some (inside, rest) =>
               if existsb isdecimal inside then sub_dated_fuel k rest
               else c :: sub_dated_fuel k name'
           | None => c :: sub_dated_fuel k name'
           end
      else c :: sub_dated_fuel k name'
  end.

Definition sub_dated (name : str) : str :=
  sub_dated_fuel (Datatypes.S (length name)) name.

(** [name.split(',')[0]], which is [name] itself without a comma. *)
Fixpoint before_comma (name : str) : str :=
  match name with
  | [] => []
  | c :: name' => if (c =? 44)%N then [] else c :: before_comma name'
  end.

(** [re.sub(r'[^\w]', '', word)]. *)
Definition sub_non_word (word : str) : str :=
  filter (fun c => is_word c = true) word.

(** The loop over the words. *)
Fixpoint first_long_word (words : list str) : str :=
  match words with
  | [] => []
  | word :: rest =>
      let cleaned := sub_non_word word in
      if (2 <? length cleaned)%nat then lower cleaned
      else first_long_word rest
  end.

(** [extract_surname]. *)
Definition extract_surname (name : str) : str :=
  match name with
  | [] => []
  | _ => first_long_word (split (before_comma (sub_dated name)))
  end.

End Surname.

Section Run.
Context {U : Unicode} {F : Rapidfuzz} {S : Services}.
Variable use_llm : bool.
Variable llm_mode : str.
Variable ia_works : list IAWork.

(** [run_matching]: the results in the order of [self.bph_works];
    [None] when [match_work] raises. *)
Fixpoint run_matching (bph_works : list BPHWork)
  : option (list MatchResult) :=
  match bph_works with
  | [] => Some []
  | bph_work :: rest =>
      match match_work use_llm llm_mode ia_works bph_work,
            run_matching rest with
      | Some result, Some results => Some (result :: results)
      | _, _ => None
      end
  end.

(** The counter [llm_calls] the loop keeps for its progress line. *)
Definition llm_calls (results : list MatchResult) : nat :=
  length (filter (fun r => method r = lit "llm") results).

End Run.

End AgentRun.

(** ** scripts/matching/bph_ia_agent_match.py: the oracle as a service *)

Module AgentOracle.
Import AgentMatch.

(** [self.anthropic.messages.create] is a request to a remote service,
    and a request can change what the next one returns.  [ask] is one
    request: the reply or the exception, and the service after it. *)
Class Oracle := {
  service : Type;
  ask : MatchCandidate -> service -> outcome str * service;
}.

(** The collaborators of a matcher whose oracle has answered [reply]. *)
Definition answering (S : Services) (reply : outcome str) : Services := {|
  faiss_search := faiss_search;
  extract_surname := extract_surname;
  format_3f := format_3f;
  messages_create := fun _ => reply;
  json_loads := json_loads;
|}.

(** [llm_evaluate] with the service threaded through: the [try] block
    sends its one request, and the rest of the function works on the
    reply. *)
Definition llm_evaluate_on {U : Unicode} {S : Services} {O : Oracle}
    (cand : MatchCandidate) (o : service) : MatchResult * service :=
  let '(reply, o') := ask cand o in
  (llm_evaluate (S := answering S reply) cand, o').

End AgentOracle.

(* ================================================================== *)
(** * Part II: reference tables, specification-side definitions, data  *)
(* ================================================================== *)

(** ** The ASCII fragment of the interpreter's tables *)

Definition is_ascii (s : str) : Prop := Forall (fun c => (c < 128)%N) s.

Definition ascii_lower (c : char) : char :=
  if ((65 <=? c) && (c <=? 90))%N then (c + 32)%N else c.

Definition ascii_alnum (c : char) : bool :=
  ((48 <=? c) && (c <=? 57) || (65 <=? c) && (c <=? 90)
   || (97 <=? c) && (c <=? 122))%N.

(** What every Python interpreter does on ASCII text. *)
Record ascii_laws (U : Unicode) : Prop := {
  lower_ascii : forall s, is_ascii s -> lower s = map ascii_lower s;
  isalnum_ascii : forall c, (c < 128)%N -> isalnum c = ascii_alnum c;
  nfkd_ascii : forall s, is_ascii s -> nfkd s = s;
}.

(** Tables that leave everything outside ASCII alone: the smallest
    implementation of the interface, used to run the code on ASCII
    examples. *)
Definition ascii_tables : Unicode := {|
  lower := map ascii_lower;
  isalnum := ascii_alnum;
  nfkd := fun s => s;
|}.

Definition ascii_unidecode : Deduplicator.Unidecode :=
  {| Deduplicator.unidecode := fun s => s |}.

(** A scorer that is symmetric and stays within 0..100: the word-set
    overlap [dedupe.py] itself falls back to. *)
Definition overlap_fuzz : Rapidfuzz := {|
  ratio := Dedupe.basic_sim;
  token_set_ratio := Dedupe.basic_sim;
|}.

(** What the properties below ask of rapidfuzz. *)
Definition fuzz_symmetric (F : Rapidfuzz) : Prop :=
  forall s t, ratio s t = ratio t s /\ token_set_ratio s t = token_set_ratio t s.

(** ASCII punctuation, as [string.punctuation] lists it. *)
Definition is_punctuation (c : char) : bool :=
  ((33 <=? c) && (c <=? 47) || (58 <=? c) && (c <=? 64)
   || (91 <=? c) && (c <=? 96) || (123 <=? c) && (c <=? 126))%N.

(** What unidecode does on ASCII text. *)
Definition unidecode_ascii_law (D : Deduplicator.Unidecode) : Prop :=
  forall s, is_ascii s -> Deduplicator.unidecode s = s.

(** The tables of the ASCII fragment, extended by the one code point
    U+2122, the trade mark sign: it has no lowercase mapping, is not
    alphanumeric, and its compatibility decomposition is the two
    letters TM. *)
Definition trade_mark : char := 8482%N.

Definition trade_mark_tables : Unicode := {|
  lower := map ascii_lower;
  isalnum := ascii_alnum;
  nfkd := fun s =>
    flat_map (fun c => if (c =? trade_mark)%N then lit "TM" else [c]) s;
|}.

(** ** The normal form of a normalized text

    The characters the normalizers keep on ASCII text: lowercase
    letters, digits and the underscore. *)
Definition clean (c : char) : bool :=
  ((48 <=? c) && (c <=? 57) || (97 <=? c) && (c <=? 122) || (c =? 95))%N.

(** A word of the normal form. *)
Definition wordy (w : str) : Prop :=
  w <> [] /\ Forall (fun c => clean c = true) w.

(** A word as [split] returns it. *)
Definition spaceless (w : str) : Prop :=
  w <> [] /\ Forall (fun c => isspace c = false) w.

(** Lowercase, replace what is neither a word character nor white
    space by a space, split and join: what the three normalizers have
    in common. *)
Definition ascii_normal_form (s : str) : str :=
  join (lit " ")
       (split (sub_non_word_space (U := ascii_tables) (map ascii_lower s))).

(** What [collapse_spaces] leaves once the trailing white space is
    gone: the words joined by single spaces, after one space if the
    text began with white space. *)
Definition lead (s : str) : str :=
  match s with
  | c :: _ => if isspace c then match split s with [] => [] | _ => [32%N] end
              else []
  | [] => []
  end.

(** ** Definitions the properties of dedupe.py are stated with *)

Module DedupeSpec.
Import Dedupe.

(** The signals [similarity_score] uses for a pair, each with its
    weight: those whose field is filled in on both sides. *)
Definition present_signals fuzz (r1 r2 : record) : list (Q * Q) :=
  (if present (title_normalized r1) && present (title_normalized r2)
   then [(field_sim fuzz (text (title_normalized r1))
                         (text (title_normalized r2)), 0.6)]
   else [])
  ++ (if present (creator_normalized r1) && present (creator_normalized r2)
      then [(field_sim fuzz (text (creator_normalized r1))
                            (text (creator_normalized r2)), 0.3)]
      else [])
  ++ (if year_present (year r1) && year_present (year r2)
      then [(year_sim (default 0%Z (year r1)) (default 0%Z (year r2)), 0.1)]
      else []).

(** The weighted average of a list of (signal, weight) pairs. *)
Definition weighted_average (signals : list (Q * Q)) : Q :=
  match signals with
  | [] => 0
  | _ => foldr (fun sw acc => sw.1 * sw.2 + acc) 0 signals
         / foldr (fun sw acc => sw.2 + acc) 0 signals
  end.

(** [blocks.get(key)]. *)
Fixpoint lookup_block (key : block_key)
    (blocks : list (block_key * list record)) : option (list record) :=
  match blocks with
  | [] => None
  | (k, rs) :: rest =>
      if decide (k = key) then Some rs else lookup_block key rest
  end.

(** Two records sit together in some block. *)
Definition co_blocked (blocks : list (block_key * list record))
    (r1 r2 : record) : bool :=
  existsb (fun b => bool_decide (r1 ∈ b.2) && bool_decide (r2 ∈ b.2)) blocks.

(** The significant words of the specification: at least four
    characters long and not a stopword of [extract_significant_words]. *)
Definition significant_words (title_normalized : str) : gset str :=
  list_to_set
    (filter (fun w => (4 <= length w)%nat /\ w ∉ FuzzyMatch.stopwords)
            (split title_normalized)).

(** The block of a key holds, in table order, the records filed under
    that key. *)
Definition filed_under (key : block_key) (records : list record)
  : list record :=
  filter (fun r => key ∈ block_keys r) records.

(** [path p x r k]: following the parent links from [x] reaches the
    root [r] after [k] steps. *)
Inductive path (p : list nat) : nat -> nat -> nat -> Prop :=
| path_root x : p !! x = Some x -> path p x x 0
| path_step x y r k :
    p !! x = Some y -> y <> x -> path p y r k -> path p x r (S k).

(** Every index has a root at most [d] links away. *)
Definition rooted (p : list nat) (d : nat) : Prop :=
  forall x, (x < length p)%nat -> exists r k, path p x r k /\ (k <= d)%nat.

(** Two indices are in the same class. *)
Definition same (p : list nat) (a b : nat) : Prop :=
  exists r ka kb, path p a r ka /\ path p b r kb.

(** The test of [find_clusters] on a pair. *)
Definition similar fuzz (ri rj : record) : bool :=
  Qge_bool (similarity_score fuzz ri rj) SIMILARITY_THRESHOLD.

(** Both indices of a pair are indices of the block. *)
Definition in_range (records : list record) (ij : nat * nat) : Prop :=
  (ij.1 < length records)%nat /\ (ij.2 < length records)%nat.

(** [clusters_map.get(root)]. *)
Fixpoint lookup_cluster (root : nat) (clusters_map : list (nat * gset Z))
  : option (gset Z) :=
  match clusters_map with
  | [] => None
  | (k, c) :: rest =>
      if decide (k = root) then Some c else lookup_cluster root rest
  end.

(** Every cluster of more than one record that a block produced is
    part of a cluster that was kept: the guard on [processed_ids]
    dropped nothing that was not already covered. *)
Definition no_cluster_lost fuzz (publications : list record)
    (all_clusters : list (gset Z)) : bool :=
  forallb
    (fun b =>
       match block_clusters fuzz b.2 with
       | None => true
       | Some clusters =>
           forallb
             (fun C => (size C <=? 1)%nat
                       || existsb (fun A => bool_decide (C ⊆ A)) all_clusters)
             clusters
       end)
    (build_blocks (fetch publications)).

(** No two clusters of the list share a record. *)
Fixpoint pairwise_disjoint (l : list (gset Z)) : Prop :=
  match l with
  | [] => True
  | A :: rest => (forall B, B ∈ rest -> A ## B) /\ pairwise_disjoint rest
  end.

(** The invariant of the loop over blocks: the clusters kept are
    disjoint and all their records are in [processed_ids]. *)
Definition covered (st : list (gset Z) * gset Z) : Prop :=
  pairwise_disjoint st.1 /\ (forall A, A ∈ st.1 -> A ⊆ st.2).

(** A [clusters_map] with keys below [a] and at most one record per
    cluster. *)
Definition small (cm : list (nat * gset Z)) (a : nat) : Prop :=
  Forall (fun kc => (kc.1 < a)%nat /\ (size kc.2 <= 1)%nat) cm.

(** The completeness of the specification's policy: the number of
    fields of a record that are not null. *)
Definition completeness (r : Dedupe.record) : nat :=
  ((if Dedupe.title_normalized r is Some _ then 1 else 0)
   + (if Dedupe.creator_normalized r is Some _ then 1 else 0)
   + (if Dedupe.year r is Some _ then 1 else 0))%nat.

End DedupeSpec.

(** ** The score of dedupe.py over the signals present *)

Module DedupeFloatSpec.
Import Dedupe DedupeFloat.

Section Signals.
Context {A : Arith}.
Variable fuzz : option (str -> str -> num).

(** The signals whose field is filled in on both sides, in the order
    title, creator, year, each with its weight. *)
Definition present_signals (r1 r2 : record) : list (num * num) :=
  (if present (title_normalized r1) && present (title_normalized r2)
   then [(field_sim fuzz (text (title_normalized r1))
                         (text (title_normalized r2)), literal 0.6)]
   else [])
  ++ (if present (creator_normalized r1) && present (creator_normalized r2)
      then [(field_sim fuzz (text (creator_normalized r1))
                            (text (creator_normalized r2)), literal 0.3)]
      else [])
  ++ (if year_present (year r1) && year_present (year r2)
      then [(year_sim (default 0%Z (year r1)) (default 0%Z (year r2)),
             literal 0.1)]
      else []).


End Signals.

(** A scorer that finds every pair of strings identical. *)
Definition always_100 : option (str -> str -> @num binary64) :=
  Some (fun _ _ => double_of_int 100).

End DedupeFloatSpec.

(** ** Records of dedupe.py used as examples *)

Module DedupeData.
Import Dedupe.

(** Two copies of one record that has a title and nothing else. *)
Definition title_only : record :=
  mkRecord 1 (Some (lit "de anima")) None None.

(** Two editions of one work, catalogued in 1499 and 1503 under
    titles with the same first three words. *)
Definition libri_tres : record :=
  mkRecord 1 (Some (lit "de anima libri tres")) None (Some 1499%Z).

Definition libri_tres_cum : record :=
  mkRecord 2 (Some (lit "de anima libri tres cum commentariis")) None
           (Some 1503%Z).

(** Two records of one work whose titles share the significant words
    [anima] and [aristotelis] but start differently. *)
Definition tractatus : record :=
  mkRecord 1 (Some (lit "tractatus de anima aristotelis")) None
           (Some 1500%Z).

Definition commentarius : record :=
  mkRecord 2 (Some (lit "de anima aristotelis commentarius")) None
           (Some 1502%Z).

(** Three records of one work, catalogued in 1499, 1500 and 1505. *)
Definition edition (i year : Z) : record :=
  mkRecord i (Some (lit "de anima libri")) None (Some year).

Definition three_editions : list record :=
  [edition 1 1499; edition 2 1500; edition 3 1505].

(** Two records of one work: the cluster {1, 2} is found in three
    blocks and kept once. *)
Definition two_editions : list record := [edition 1 1499; edition 2 1500].

(** One work entered twice: first without, then with its author. *)
Definition bare : Dedupe.record :=
  Dedupe.mkRecord 1 (Some (lit "de anima libri")) None (Some 1500%Z).

Definition complete : Dedupe.record :=
  Dedupe.mkRecord 2 (Some (lit "de anima libri")) (Some (lit "aristoteles"))
                  (Some 1500%Z).

End DedupeData.

(** ** Definitions the properties of deduplicator.py are stated with *)

Module DeduplicatorSpec.
Import Deduplicator.



End DeduplicatorSpec.

(** ** Records of deduplicator.py used as examples *)

Module DeduplicatorData.
Import Deduplicator.

(** Two records of one work in the master bibliography. *)
Definition ustc_copy : Deduplicator.record :=
  Deduplicator.mkRecord (Deduplicator.Text (lit "De anima"))
    (Deduplicator.Text (lit "Aristoteles")) (Some 1500%Z)
    Deduplicator.NaN (Deduplicator.Text (lit "USTC")).

Definition estc_copy : Deduplicator.record :=
  Deduplicator.mkRecord (Deduplicator.Text (lit "De anima libri tres"))
    (Deduplicator.Text (lit "Aristoteles")) (Some 1500%Z)
    (Deduplicator.Text (lit "Londini")) (Deduplicator.Text (lit "ESTC")).



End DeduplicatorData.

(** ** The matcher: a property of candidates, and example runs *)

Module MatcherSpec.
Import AgentMatch.

(** A candidate carries the tier of its own signals. *)
Definition tiered (use_llm : bool) (c : MatchCandidate) : Prop :=
  c_confidence c
  = tier use_llm (embedding_score c) (author_match c) (year_match c).

(** The author signal of a pair of works: both have a surname, and
    rapidfuzz scores the two surnames at least 80. *)
Definition authors_agree {F : Rapidfuzz} {S : Services}
    (bph : BPHWork) (ia : IAWork) : Prop :=
  let bph_surname := extract_surname (default [] (bph_author bph)) in
  let ia_surname := extract_surname (default [] (ia_creator ia)) in
  bph_surname <> [] /\ ia_surname <> []
  /\ 80 <= ratio bph_surname ia_surname.

(** The year signal of a pair of works: both years are known, neither
    is 0, and they are at most 30 apart. *)
Definition years_agree (bph : BPHWork) (ia : IAWork) : Prop :=
  exists y1 y2,
    bph_year bph = Some y1 /\ ia_year ia = Some y2
    /\ y1 <> 0%Z /\ y2 <> 0%Z /\ (Z.abs (y1 - y2) <= 30)%Z.

(** The hits of the index that point into the archive, each as its
    score and the work at its position. *)
Definition kept_hits (ia_works : list IAWork) (hits : list (Q * Z))
  : list (Q * IAWork) :=
  omap (fun hit : Q * Z =>
          if (hit.2 <? 0)%Z then None
          else pair hit.1 <$> ia_works !! Z.to_nat hit.2) hits.

End MatcherSpec.

Module MatcherData.
Import AgentMatch.

(** Runs of the matcher on ASCII data.  In each, the archive holds one
    work, which the index returns with a fixed score, and the surname
    of a name is taken to be its first word. *)
Definition de_anima : BPHWork :=
  mkBPH (lit "bph-1") (lit "De anima") (Some (lit "Aristoteles"))
        (Some 1550%Z) None None None.

Definition physica : IAWork :=
  mkIA (lit "ia-1") (lit "Physica") None None None.

(** An oracle that answers in prose. *)
Definition prose_reply : str := lit "I cannot tell from these records.".

Definition prose_services : Services := {|
  faiss_search := fun _ => [(0.5, 0%Z)];
  extract_surname := fun name => default [] (head (split name));
  format_3f := fun _ => lit "0.500";
  messages_create := fun _ => Returned prose_reply;
  json_loads := fun _ => Raised (lit "Expecting value");
|}.

(** An oracle that answers in JSON that the two records are the same
    work, and what [json.loads] makes of that answer. *)
Definition quoted (s : string) : str := [34%N] ++ lit s ++ [34%N].

Definition same_work_json : str :=
  lit "{" ++ quoted "verdict" ++ lit ": " ++ quoted "SAME_WORK" ++ lit ", "
  ++ quoted "confidence" ++ lit ": " ++ quoted "high" ++ lit ", "
  ++ quoted "reasoning" ++ lit ": " ++ quoted "same text" ++ lit "}".

Definition same_work_services : Services := {|
  faiss_search := fun _ => [(0.5, 0%Z)];
  extract_surname := fun name => default [] (head (split name));
  format_3f := fun _ => lit "0.500";
  messages_create := fun _ => Returned (lit "Verdict: " ++ same_work_json);
  json_loads := fun s =>
    if decide (s = same_work_json)
    then Returned [(lit "verdict", JStr (lit "SAME_WORK"));
                   (lit "confidence", JStr (lit "high"));
                   (lit "reasoning", JStr (lit "same text"))]
    else Raised (lit "Expecting value");
|}.

(** An oracle whose JSON is malformed. *)
Definition garbled_services : Services := {|
  faiss_search := fun _ => [(0.65, 0%Z)];
  extract_surname := fun name => default [] (head (split name));
  format_3f := fun _ => lit "0.650";
  messages_create := fun _ => Returned (lit "{verdict: SAME_WORK}");
  json_loads := fun _ =>
    Raised (lit "Expecting property name enclosed in double quotes");
|}.

(** An archive copy of the work itself, found with a score of 0.9. *)
Definition de_anima_ia : IAWork :=
  mkIA (lit "ia-2") (lit "Aristotelis de anima") (Some (lit "Aristoteles"))
       (Some 1555%Z) None.

Definition close_services : Services := {|
  faiss_search := fun _ => [(0.9, 0%Z)];
  extract_surname := fun name => default [] (head (split name));
  format_3f := fun _ => lit "0.900";
  messages_create := fun _ => Raised (lit "unreachable");
  json_loads := fun _ => Raised (lit "Expecting value");
|}.

(** An index that returns nothing. *)
Definition empty_services : Services := {|
  faiss_search := fun _ => [];
  extract_surname := fun name => default [] (head (split name));
  format_3f := fun _ => lit "0.000";
  messages_create := fun _ => Raised (lit "unreachable");
  json_loads := fun _ => Raised (lit "Expecting value");
|}.

(** An oracle that answers in prose and counts its requests. *)
Definition counting_oracle : AgentOracle.Oracle := {|
  AgentOracle.service := nat;
  AgentOracle.ask := fun _ n => (Returned prose_reply, S n);
|}.

(** The candidates the oracles are asked about. *)
Definition unsure : MatchCandidate :=
  candidate (U := ascii_tables) (F := overlap_fuzz) (S := prose_services)
    true de_anima 0.65 physica.

Definition garbled : MatchCandidate :=
  candidate (U := ascii_tables) (F := overlap_fuzz) (S := garbled_services)
    true de_anima 0.65 physica.

(** The candidate of the close run: title and year agree. *)
Definition close_match : MatchCandidate :=
  candidate (U := ascii_tables) (F := overlap_fuzz) (S := close_services)
    true de_anima 0.9 de_anima_ia.

(** The weak candidate of the prose run: a score of 0.5. *)
Definition weak : MatchCandidate :=
  candidate (U := ascii_tables) (F := overlap_fuzz) (S := prose_services)
    false de_anima 0.5 physica.

End MatcherData.

(** ** Definitions the further properties of dedupe.py are stated with *)

Module ClusterSpec.
Import Dedupe DedupeSpec.

(** Two indices of a block are linked when a chain of similar pairs
    connects them. *)
Inductive linked fuzz (records : list record) : nat -> nat -> Prop :=
| linked_refl i : linked fuzz records i i
| linked_pair i j ri rj :
    (i < j)%nat -> records !! i = Some ri -> records !! j = Some rj ->
    similar fuzz ri rj = true -> linked fuzz records i j
| linked_sym i j : linked fuzz records i j -> linked fuzz records j i
| linked_trans i j k :
    linked fuzz records i j -> linked fuzz records j k ->
    linked fuzz records i k.

(** Every parent link joins two linked indices. *)
Definition links_linked fuzz (records : list record) (p : list nat) : Prop :=
  forall a y, p !! a = Some y -> linked fuzz records a y.

(** Every id filed in [clusters_map] is the id of a record whose index
    is linked to the key it is filed under. *)
Definition filed_linked fuzz (records : list record)
    (cm : list (nat * gset Z)) : Prop :=
  Forall (fun kc => forall z, z ∈ kc.2 ->
            exists i r, records !! i = Some r /\ id r = z
                        /\ linked fuzz records i kc.1) cm.

(** The ids of a list of records. *)
Definition ids (records : list record) : gset Z :=
  list_to_set (id <$> records).

End ClusterSpec.

(** ** Definitions the further properties of deduplicator.py are stated with *)

(** Both functions of rapidfuzz return scores between 0 and 100. *)
Definition rapidfuzz_bounded (F : Rapidfuzz) : Prop :=
  forall s t, 0 <= ratio s t <= 100 /\ 0 <= token_set_ratio s t <= 100.

(** A score on the scale the docstrings of deduplicator.py name. *)
Definition unit_interval (q : Q) : Prop := 0 <= q <= 1.

(** A group of [find_duplicate_groups] built around its first row:
    every other row is a duplicate of the first one and shares its
    year bucket and the first three characters of its title. *)
Definition around_first {U : Unicode} {D : Deduplicator.Unidecode}
    {F : Rapidfuzz} (cfg : Deduplicator.config)
    (df : DeduplicatorFrames.frame) (g : list nat) : Prop :=
  exists seed rest rs,
    g = seed :: rest /\ (seed, rs) ∈ df
    /\ forall m, m ∈ rest ->
         exists rm sc,
           (m, rm) ∈ df
           /\ Deduplicator.is_duplicate_pair cfg rs rm = Some (true, sc)
           /\ DeduplicatorFrames.year_bucket rm
              = DeduplicatorFrames.year_bucket rs
           /\ DeduplicatorFrames.title_first rm
              = DeduplicatorFrames.title_first rs.

(** What the loop over the rows keeps true of [groups] and
    [processed]. *)
Definition grouped {U : Unicode} {D : Deduplicator.Unidecode}
    {F : Rapidfuzz} (cfg : Deduplicator.config)
    (df : DeduplicatorFrames.frame)
    (st : list (list nat) * gset nat) : Prop :=
  NoDup (concat st.1)
  /\ (forall l, l ∈ concat st.1 -> l ∈ st.2)
  /\ (forall l, l ∈ concat st.1 -> l ∈ DeduplicatorFrames.index df)
  /\ Forall (around_first cfg df) st.1.

(** The order [elements] lists a set in, as the iteration order of
    the interpreter. *)
#[global] Instance elements_order : DeduplicatorFrames.SetOrder :=
  {| DeduplicatorFrames.set_to_list := elements;
     DeduplicatorFrames.set_to_list_perm := fun X => reflexivity _ |}.

(** A frame of two copies of one work, labelled 0 and 1, and the same
    rows after a filter dropped the row between them. *)
Definition two_copies : DeduplicatorFrames.frame :=
  [(0%nat, DeduplicatorData.ustc_copy); (1%nat, DeduplicatorData.ustc_copy)].

Definition filtered_copies : DeduplicatorFrames.frame :=
  [(0%nat, DeduplicatorData.ustc_copy); (2%nat, DeduplicatorData.ustc_copy)].

(** ** Definitions the properties of bph_ia_fuzzy_match.py are stated with *)

Module FuzzySpec.
Import FuzzyMatch FuzzyStrategies.

(** A list of matches with the scores falling. *)
Fixpoint descending (l : list hit) : Prop :=
  match l with
  | [] => True
  | h :: rest => Forall (fun d => score d <= score h) rest /\ descending rest
  end.

(** What each strategy promises of the matches it reports. *)
Definition by_strategy (h : hit) : Prop :=
  (method h = lit "exact_prefix" /\ score h = 100)
  \/ (method h = lit "substring" /\ score h = 95)
  \/ (method h = lit "fuzzy" /\ FUZZY_THRESHOLD <= score h)
  \/ (method h = lit "author_title" /\ 60 <= score h).

(** The normalized title a work is indexed under. *)
Definition indexed_title {U : Unicode} (work : ia_row) : str :=
  normalize_title (get_text (title work)).

(** An engine that finds no capitalised word, for examples whose rows
    name no author. *)
Definition no_surnames : Surnames := {| findall_capitalised := fun _ => [] |}.

(** Two rows of the Internet Archive table and a BPH row whose title
    is punctuation only. *)
Definition ia_de_anima : ia_row :=
  mkIARow (lit "deanima00aris") (Some (lit "De anima libri tres")) None None.

Definition ia_physica : ia_row :=
  mkIARow (lit "physica00aris") (Some (lit "Physica")) None None.

Definition untitled : bph_row := mkBPHRow (Some (lit "[...]")) None None.

End FuzzySpec.

(** ** Definitions the further properties of the matcher are stated with *)

Module MatcherOrder.
Import AgentMatch.

(** The four tiers in rising order of confidence. *)
Definition tier_rank (confidence : str) : nat :=
  if bool_decide (confidence = lit "high") then 3
  else if bool_decide (confidence = lit "medium") then 2
  else if bool_decide (confidence = lit "needs_llm") then 1
  else 0.

(** Candidates with the embedding scores falling. *)
Fixpoint falling (cs : list MatchCandidate) : Prop :=
  match cs with
  | [] => True
  | c :: rest =>
      Forall (fun d => embedding_score d <= embedding_score c) rest
      /\ falling rest
  end.

End MatcherOrder.

(** The decimal digits of ASCII. *)
Definition ascii_digits : AgentRun.Digits :=
  {| AgentRun.isdecimal := fun c => ((48 <=? c) && (c <=? 57))%N |}.

(** A name as the catalogues write it: surname, forename, dates. *)
Definition ficino : str := lit "Ficino, Marsilio (1433-1499)".

(* ================================================================== *)
(** * Part III: properties                                             *)
(* ================================================================== *)

(** ** Strings *)

Ltac solve_ascii :=
  unfold is_ascii; simpl;
  repeat match goal with
         | |- Forall _ [] => apply List.Forall_nil
         | |- Forall _ (_ :: _) => apply List.Forall_cons; [reflexivity|]
         end.

Lemma ascii_tables_laws : ascii_laws ascii_tables.
Proof. split; done. Qed.

(** ** The similarity scorer of dedupe.py *)

Module DedupeScore.
Import Dedupe DedupeSpec DedupeData.

Example identical_titles_basic :
  basic_sim (lit "de anima") (lit "de anima") == 100.
Proof. by vm_compute. Qed.

(** C1: [similarity_score] is documented to return a score on the
    scale 0-100.  On two records with the same title it returns
    10000: the weighted sum is already on the scale 0-100 when it is
    divided by the weights used, and the result is multiplied by 100
    once more. *)
Theorem similarity_score_exceeds_scale :
  similarity_score None title_only title_only == 10000
  /\ ~ similarity_score None title_only title_only <= 100.
Proof.
  split.
  - by vm_compute.
  - intros Hle. by vm_compute in Hle.
Qed.

(** What [similarity_score] returns in general, read over the
    rationals: a hundred times the weighted average of the signals it
    used. *)
Lemma similarity_score_weighted fuzz r1 r2 :
  similarity_score fuzz r1 r2
  == 100 * weighted_average (present_signals fuzz r1 r2).
Proof.
  unfold similarity_score, accumulate, add_year, add_creator, add_title,
    present_signals.
  destruct (present (title_normalized r1) && present (title_normalized r2));
    destruct (present (creator_normalized r1)
              && present (creator_normalized r2));
    destruct (year_present (year r1) && year_present (year r2));
    cbn [app weighted_average foldr fst snd];
    match goal with
    | |- context [Qlt_le_dec ?a ?b] => destruct (Qlt_le_dec a b) as [Hw|Hw]
    end;
    try (exfalso; vm_compute in Hw; done);
    try (field; intros Hz; vm_compute in Hz; done).
Qed.

End DedupeScore.
(** ** The cross-catalogue matcher *)

Module AgentMatchFacts.
Import AgentMatch AgentOracle MatcherSpec MatcherData.

Section Facts.
Context {U : Unicode} {F : Rapidfuzz} {S : Services}.
Variable use_llm : bool.
Variable llm_mode : str.
Variable ia_works : list IAWork.

Lemma Qge_bool_iff a b : Qge_bool a b = true <-> b <= a.
Proof. apply Qle_bool_iff. Qed.

Lemma tier_high score am ym :
  tier use_llm score am ym = lit "high"
  <-> (EMBEDDING_THRESHOLD_HIGH <= score
       /\ (truthy am = true \/ truthy ym = true))
      \/ (EMBEDDING_THRESHOLD_MEDIUM <= score
          /\ truthy am = true /\ truthy ym = true).
Proof.
  rewrite <- !Qge_bool_iff. unfold tier.
  destruct (Qge_bool score EMBEDDING_THRESHOLD_HIGH),
    (Qge_bool score EMBEDDING_THRESHOLD_MEDIUM),
    (Qge_bool score EMBEDDING_THRESHOLD_LOW),
    (truthy am), (truthy ym), use_llm; cbn [andb orb];
    split; try done; intuition discriminate.
Qed.

Lemma tier_low score am ym :
  score < EMBEDDING_THRESHOLD_LOW -> tier use_llm score am ym = lit "low".
Proof.
  intros Hlt. unfold tier.
  assert (Hl : Qge_bool score EMBEDDING_THRESHOLD_LOW = false).
  { apply not_true_is_false. rewrite Qge_bool_iff. lra. }
  assert (Hm : Qge_bool score EMBEDDING_THRESHOLD_MEDIUM = false).
  { apply not_true_is_false. rewrite Qge_bool_iff.
    unfold EMBEDDING_THRESHOLD_LOW, EMBEDDING_THRESHOLD_MEDIUM in *. lra. }
  assert (Hh : Qge_bool score EMBEDDING_THRESHOLD_HIGH = false).
  { apply not_true_is_false. rewrite Qge_bool_iff.
    unfold EMBEDDING_THRESHOLD_LOW, EMBEDDING_THRESHOLD_HIGH in *. lra. }
  by rewrite Hl, Hm, Hh.
Qed.

Lemma collect_tiered bph hits cs :
  collect use_llm ia_works bph hits = Some cs -> Forall (tiered use_llm) cs.
Proof.
  revert cs. induction hits as [|[score idx] hits IH]; intros cs Hc.
  - injection Hc as <-. constructor.
  - simpl in Hc. destruct (idx <? 0)%Z; [by apply IH|].
    destruct (ia_works !! Z.to_nat idx) as [ia|]; [|done].
    destruct (collect use_llm ia_works bph hits) as [cs'|]; [|done].
    injection Hc as <-. constructor; [done | by apply IH].
Qed.

Lemma insert_desc_tiered c cs :
  tiered use_llm c -> Forall (tiered use_llm) cs ->
  Forall (tiered use_llm) (insert_desc c cs).
Proof.
  intros Hc. induction 1 as [|d cs Hd Hcs IH]; simpl.
  - by repeat constructor.
  - destruct (Qlt_le_dec _ _); repeat constructor; done.
Qed.

Lemma sort_desc_tiered cs : Forall (tiered use_llm) cs -> Forall (tiered use_llm) (sort_desc cs).
Proof.
  induction 1 as [|c cs Hc Hcs IH]; simpl; [constructor|].
  by apply insert_desc_tiered.
Qed.

Lemma find_candidates_tiered bph cs :
  find_candidates use_llm ia_works bph = Some cs -> Forall (tiered use_llm) cs.
Proof.
  unfold find_candidates.
  destruct (collect _ _ _ _) as [cs'|] eqn:Hc; [|done].
  intros [= <-]. eapply sort_desc_tiered, collect_tiered, Hc.
Qed.

Lemma candidate_author_match bph score ia :
  truthy (author_match (candidate use_llm bph score ia)) = true
  <-> authors_agree bph ia.
Proof.
  unfold authors_agree. cbn [candidate author_match]. unfold and_.
  cbn [truthy].
  destruct (bool_decide_reflect
              (extract_surname (default [] (bph_author bph)) = []))
    as [E1|E1]; cbn [negb truthy].
  { rewrite E1. cbn [truthy]. rewrite bool_decide_eq_true_2 by done.
    cbn [negb]. split; [done|]. by intros [? _]. }
  destruct (bool_decide_reflect
              (extract_surname (default [] (ia_creator ia)) = []))
    as [E2|E2]; cbn [negb truthy].
  { rewrite E2. cbn [truthy]. rewrite bool_decide_eq_true_2 by done.
    cbn [negb]. split; [done|]. by intros (_ & ? & _). }
  rewrite Qge_bool_iff. split; [by intros H|]. by intros (_ & _ & H).
Qed.

Lemma candidate_year_match bph score ia :
  truthy (year_match (candidate use_llm bph score ia)) = true
  <-> years_agree bph ia.
Proof.
  unfold years_agree. cbn [candidate year_match]. unfold and_, year_value.
  destruct (bph_year bph) as [y1|]; cbn [truthy];
    [|split; [done|by intros (? & ? & ? & _)]].
  destruct (Z.eqb_spec y1 0) as [->|H1]; cbn [negb truthy].
  { split; [done|]. intros (? & ? & [= <-] & _ & ? & _). done. }
  destruct (ia_year ia) as [y2|]; cbn [truthy];
    [|split; [done|by intros (? & ? & _ & ? & _)]].
  destruct (Z.eqb_spec y2 0) as [->|H2]; cbn [negb truthy].
  { split; [done|]. intros (? & ? & _ & [= <-] & _ & ? & _). done. }
  cbn [from_option id]. rewrite Z.leb_le. split.
  - intros H. by exists y1, y2.
  - by intros (? & ? & [= <-] & [= <-] & _ & _ & H).
Qed.

Lemma collect_kept bph hits cs :
  collect use_llm ia_works bph hits = Some cs ->
  cs = (fun hit : Q * IAWork => candidate use_llm bph hit.1 hit.2)
         <$> kept_hits ia_works hits.
Proof.
  revert cs. induction hits as [|[score idx] hits IH]; intros cs; simpl.
  - by intros [= <-].
  - destruct (idx <? 0)%Z; [apply IH|].
    destruct (ia_works !! Z.to_nat idx) as [ia|]; [|done].
    destruct (collect use_llm ia_works bph hits) as [cs'|]; [|done].
    intros [= <-]. cbn. by rewrite <- (IH cs').
Qed.

Lemma elem_of_kept_hits hits score ia :
  (score, ia) ∈ kept_hits ia_works hits
  <-> exists idx, (score, idx) ∈ hits /\ (0 <= idx)%Z
                  /\ ia_works !! Z.to_nat idx = Some ia.
Proof.
  unfold kept_hits. rewrite list_elem_of_omap. split.
  - intros ([s idx] & Hin & Hk). cbn in Hk.
    destruct (Z.ltb_spec idx 0); [done|].
    destruct (ia_works !! Z.to_nat idx) as [ia'|] eqn:Hia; [|done].
    injection Hk as <- <-. by exists idx.
  - intros (idx & Hin & Hpos & Hia). exists (score, idx). split; [done|].
    cbn. destruct (Z.ltb_spec idx 0); [lia|]. by rewrite Hia.
Qed.

Lemma elem_of_insert_desc c d cs : d ∈ insert_desc c cs <-> d = c \/ d ∈ cs.
Proof.
  induction cs as [|e cs IH]; simpl.
  - by rewrite list_elem_of_singleton, elem_of_nil; intuition.
  - destruct (Qlt_le_dec _ _).
    + rewrite !elem_of_cons, IH. intuition.
    + by rewrite elem_of_cons.
Qed.

Lemma elem_of_sort_desc d cs : d ∈ sort_desc cs <-> d ∈ cs.
Proof.
  induction cs as [|c cs IH]; simpl; [done|].
  by rewrite elem_of_insert_desc, IH, elem_of_cons.
Qed.

Lemma elem_of_find_candidates bph cs c :
  find_candidates use_llm ia_works bph = Some cs ->
  c ∈ cs
  <-> exists score ia,
        (score, ia) ∈ kept_hits ia_works (faiss_search bph)
        /\ c = candidate use_llm bph score ia.
Proof.
  unfold find_candidates.
  destruct (collect _ _ _ _) as [cs'|] eqn:Hc; [|done].
  intros [= <-]. rewrite elem_of_sort_desc, (collect_kept _ _ _ Hc).
  rewrite list_elem_of_fmap. split.
  - intros ([score ia] & -> & Hin). by exists score, ia.
  - intros (score & ia & Hin & ->). by exists (score, ia).
Qed.

(** C3: every hit of the index that points into the archive becomes a
    candidate with the hit's score and work, and every candidate comes
    from such a hit.  Its author and year signals are those of the two
    works, and it is filed as 'high' exactly when its score is at least
    0.85 and the authors or the years agree, or its score is at least
    0.75 and both agree. *)
Theorem confidence_high_iff bph cs :
  find_candidates use_llm ia_works bph = Some cs ->
  (forall score idx ia,
      (score, idx) ∈ faiss_search bph -> (0 <= idx)%Z ->
      ia_works !! Z.to_nat idx = Some ia ->
      exists c, c ∈ cs /\ c_bph_work c = bph /\ c_ia_work c = ia
                /\ embedding_score c = score)
  /\ (forall c, c ∈ cs ->
        c_bph_work c = bph
        /\ (exists idx,
              (embedding_score c, idx) ∈ faiss_search bph /\ (0 <= idx)%Z
              /\ ia_works !! Z.to_nat idx = Some (c_ia_work c))
        /\ (truthy (author_match c) = true
            <-> authors_agree bph (c_ia_work c))
        /\ (truthy (year_match c) = true <-> years_agree bph (c_ia_work c))
        /\ (c_confidence c = lit "high"
            <-> (EMBEDDING_THRESHOLD_HIGH <= embedding_score c
                 /\ (authors_agree bph (c_ia_work c)
                     \/ years_agree bph (c_ia_work c)))
                \/ (EMBEDDING_THRESHOLD_MEDIUM <= embedding_score c
                    /\ authors_agree bph (c_ia_work c)
                    /\ years_agree bph (c_ia_work c)))).
Proof.
  intros Hf. split.
  - intros score idx ia Hin Hpos Hia.
    exists (candidate use_llm bph score ia). split; [|done].
    apply (elem_of_find_candidates _ _ _ Hf). exists score, ia.
    split; [|done]. apply elem_of_kept_hits. by exists idx.
  - intros c Hin.
    apply (elem_of_find_candidates _ _ _ Hf) in Hin
      as (score & ia & Hk & ->).
    apply elem_of_kept_hits in Hk as (idx & Hhit & Hpos & Hia).
    split; [done|]. split; [by exists idx|].
    split; [apply candidate_author_match|].
    split; [apply candidate_year_match|].
    rewrite <- (candidate_author_match bph score ia),
      <- (candidate_year_match bph score ia).
    apply tier_high.
Qed.

Lemma lower_literal (s : string) :
  ascii_laws U -> is_ascii (lit s) -> lower (lit s) = map ascii_lower (lit s).
Proof. intros HU Hs. by apply lower_ascii. Qed.

(** C6, as the code has it: a reply that cannot be parsed never
    yields a match and never raises.  A reply without a JSON object
    becomes the verdict 'different' with low confidence and a fixed
    rationale; a JSON object that [json.loads] rejects, or a failed
    call, becomes an 'error' result with low confidence whose
    rationale is the exception's message.  The reply's text is stored
    nowhere: two replies without a JSON object give the same result,
    and so do two replies whose objects are rejected with the same
    message.  Whatever the reply, the oracle is sent one request: the
    service is left as that request leaves it. *)
Theorem unparseable_reply_is_low_confidence_non_match cand :
  ascii_laws U ->
  (forall text,
      messages_create cand = Returned text ->
      search_json text = None ->
      llm_evaluate cand
      = mkResult (c_bph_work cand) None false (JStr (lit "low"))
          (lit "different") (JStr (lit "Could not parse response"))
          (lit "llm"))
  /\ (forall text matched message,
         messages_create cand = Returned text ->
         search_json text = Some matched ->
         json_loads matched = Raised message ->
         llm_evaluate cand
         = mkResult (c_bph_work cand) None false (JStr (lit "low"))
             (lit "error") (JStr (lit "LLM error: " ++ message))
             (lit "llm_error"))
  /\ (forall message,
         messages_create cand = Raised message ->
         llm_evaluate cand
         = mkResult (c_bph_work cand) None false (JStr (lit "low"))
             (lit "error") (JStr (lit "LLM error: " ++ message))
             (lit "llm_error"))
  /\ (forall text1 text2,
         search_json text1 = None -> search_json text2 = None ->
         llm_evaluate (S := answering S (Returned text1)) cand
         = llm_evaluate (S := answering S (Returned text2)) cand)
  /\ (forall text1 text2 matched1 matched2 message,
         search_json text1 = Some matched1 ->
         json_loads matched1 = Raised message ->
         search_json text2 = Some matched2 ->
         json_loads matched2 = Raised message ->
         llm_evaluate (S := answering S (Returned text1)) cand
         = llm_evaluate (S := answering S (Returned text2)) cand)
  /\ (forall (O : Oracle) (o o' : service) reply,
         ask cand o = (reply, o') ->
         (llm_evaluate_on cand o).2 = o'
         /\ match reply with
            | Raised message =>
                (llm_evaluate_on cand o).1
                = mkResult (c_bph_work cand) None false (JStr (lit "low"))
                    (lit "error") (JStr (lit "LLM error: " ++ message))
                    (lit "llm_error")
            | Returned text =>
                match search_json text with
                | None =>
                    (llm_evaluate_on cand o).1
                    = mkResult (c_bph_work cand) None false
                        (JStr (lit "low")) (lit "different")
                        (JStr (lit "Could not parse response")) (lit "llm")
                | Some matched =>
                    forall message,
                      json_loads matched = Raised message ->
                      (llm_evaluate_on cand o).1
                      = mkResult (c_bph_work cand) None false
                          (JStr (lit "low")) (lit "error")
                          (JStr (lit "LLM error: " ++ message))
                          (lit "llm_error")
                end
            end).
Proof.
  intros HU.
  assert (Hnone : forall (S' : Services) text,
            @messages_create S' cand = Returned text ->
            search_json text = None ->
            llm_evaluate (S := S') cand
            = mkResult (c_bph_work cand) None false (JStr (lit "low"))
                (lit "different") (JStr (lit "Could not parse response"))
                (lit "llm")).
  { intros S' text Hreply Hsearch. unfold llm_evaluate.
    rewrite Hreply, Hsearch.
    change (subscript _ (lit "verdict"))
      with (Returned (JStr (lit "DIFFERENT"))).
    change (subscript _ (lit "confidence"))
      with (Returned (JStr (lit "low"))).
    change (subscript _ (lit "reasoning"))
      with (Returned (JStr (lit "Could not parse response"))).
    cbv beta iota zeta.
    rewrite (lower_literal "DIFFERENT" HU) by solve_ascii.
    reflexivity. }
  assert (Hloads : forall (S' : Services) text matched message,
            @messages_create S' cand = Returned text ->
            search_json text = Some matched ->
            @json_loads S' matched = Raised message ->
            llm_evaluate (S := S') cand = llm_error cand message).
  { intros S' text matched message Hreply Hsearch Hl.
    unfold llm_evaluate. by rewrite Hreply, Hsearch, Hl. }
  assert (Hcall : forall (S' : Services) message,
            @messages_create S' cand = Raised message ->
            llm_evaluate (S := S') cand = llm_error cand message).
  { intros S' message Hreply. unfold llm_evaluate. by rewrite Hreply. }
  split; [by apply Hnone|]. split; [by apply Hloads|].
  split; [by apply Hcall|]. split; [|split].
  - intros text1 text2 H1 H2.
    by rewrite (Hnone _ text1), (Hnone _ text2).
  - intros text1 text2 matched1 matched2 message H1 L1 H2 L2.
    by rewrite (Hloads _ text1 matched1 message),
         (Hloads _ text2 matched2 message).
  - intros O o o' reply Hask. unfold llm_evaluate_on. rewrite Hask.
    cbn [fst snd]. split; [done|].
    destruct reply as [text|message]; [|by apply Hcall].
    destruct (search_json text) as [matched|] eqn:Hs.
    + intros message Hl. by apply (Hloads _ text matched).
    + by apply (Hnone _ text).
Qed.

(** C9, as the code has it: no candidates at all and a best
    candidate below the low threshold give two different results,
    both without a target, unless the matcher runs in 'full' mode.
    In 'full' mode every best candidate that is not 'high' goes to
    the oracle, and the result is what [llm_evaluate] returns for
    it. *)
Theorem no_match_causes_are_told_apart bph :
  (find_candidates use_llm ia_works bph = Some [] ->
   match_work use_llm llm_mode ia_works bph
   = Some (mkResult bph None false (JStr (lit "high"))
             (lit "no_candidates")
             (JStr (lit "No candidates found above threshold"))
             (lit "embedding")))
  /\ (forall best rest,
         find_candidates use_llm ia_works bph = Some (best :: rest) ->
         embedding_score best < EMBEDDING_THRESHOLD_LOW ->
         llm_mode <> lit "full" ->
         match_work use_llm llm_mode ia_works bph
         = Some (mkResult bph None false (JStr (lit "high"))
                   (lit "no_match")
                   (JStr (lit "Best candidate score ("
                          ++ format_3f (embedding_score best)
                          ++ lit ") below threshold"))
                   (lit "embedding")))
  /\ lit "no_candidates" <> lit "no_match"
  /\ (forall best rest,
         find_candidates use_llm ia_works bph = Some (best :: rest) ->
         c_confidence best <> lit "high" ->
         llm_mode = lit "full" ->
         match_work use_llm llm_mode ia_works bph = Some (llm_evaluate best)).
Proof.
  repeat split.
  - intros Hnone. unfold match_work. by rewrite Hnone.
  - intros best rest Hsome Hlow Hmode. unfold match_work. rewrite Hsome.
    pose proof (find_candidates_tiered _ _ Hsome) as Hall.
    apply Forall_inv in Hall. red in Hall.
    rewrite (tier_low _ _ _ Hlow) in Hall. rewrite Hall.
    rewrite (bool_decide_eq_false_2 (llm_mode = lit "full")) by done.
    reflexivity.
  - discriminate.
  - intros best rest Hsome Hhigh Hmode. unfold match_work. rewrite Hsome.
    rewrite (bool_decide_eq_false_2 (c_confidence best = lit "high")) by done.
    rewrite (bool_decide_eq_true_2 (llm_mode = lit "full")) by done.
    cbn [negb]. by rewrite andb_false_r, orb_true_r.
Qed.

End Facts.

(** C6, as stated, fails: the rationale of the fallback verdict does
    not retain the raw response. *)
Lemma prose_reply_is_not_retained :
  @messages_create prose_services unsure = Returned prose_reply
  /\ search_json prose_reply = None
  /\ reasoning (llm_evaluate (U := ascii_tables) (S := prose_services) unsure)
     = JStr (lit "Could not parse response")
  /\ contains prose_reply (lit "Could not parse response") = false.
Proof. by vm_compute. Qed.

Lemma unparseable_reply_witness :
  llm_evaluate (U := ascii_tables) (S := prose_services) unsure
  = mkResult de_anima None false (JStr (lit "low")) (lit "different")
      (JStr (lit "Could not parse response")) (lit "llm")
  /\ llm_evaluate (U := ascii_tables) (S := garbled_services) garbled
     = mkResult de_anima None false (JStr (lit "low")) (lit "error")
         (JStr (lit "LLM error: "
                ++ lit "Expecting property name enclosed in double quotes"))
         (lit "llm_error")
  /\ (llm_evaluate_on (U := ascii_tables) (S := prose_services)
        (O := counting_oracle) unsure 0%nat).2 = 1%nat.
Proof.
  split; [|split].
  - apply (proj1 (@unparseable_reply_is_low_confidence_non_match
                    ascii_tables prose_services unsure ascii_tables_laws)
             prose_reply); reflexivity.
  - apply (proj1 (proj2 (@unparseable_reply_is_low_confidence_non_match
                           ascii_tables garbled_services garbled
                           ascii_tables_laws))
             (lit "{verdict: SAME_WORK}") (lit "{verdict: SAME_WORK}"));
      reflexivity.
  - exact (proj1 (proj2 (proj2 (proj2 (proj2 (proj2
             (@unparseable_reply_is_low_confidence_non_match
                ascii_tables prose_services unsure ascii_tables_laws)))))
             counting_oracle 0%nat 1%nat (Returned prose_reply) eq_refl)).
Defined.

Lemma confidence_high_iff_witness :
  c_bph_work close_match = de_anima
  /\ (exists idx,
        (embedding_score close_match, idx)
        ∈ faiss_search (Services := close_services) de_anima
        /\ (0 <= idx)%Z
        /\ [de_anima_ia] !! Z.to_nat idx = Some (c_ia_work close_match))
  /\ (truthy (author_match close_match) = true
      <-> authors_agree (F := overlap_fuzz) (S := close_services)
            de_anima (c_ia_work close_match))
  /\ (truthy (year_match close_match) = true
      <-> years_agree de_anima (c_ia_work close_match))
  /\ (c_confidence close_match = lit "high"
      <-> (EMBEDDING_THRESHOLD_HIGH <= embedding_score close_match
           /\ (authors_agree (F := overlap_fuzz) (S := close_services)
                 de_anima (c_ia_work close_match)
               \/ years_agree de_anima (c_ia_work close_match)))
          \/ (EMBEDDING_THRESHOLD_MEDIUM <= embedding_score close_match
              /\ authors_agree (F := overlap_fuzz) (S := close_services)
                   de_anima (c_ia_work close_match)
              /\ years_agree de_anima (c_ia_work close_match))).
Proof.
  apply (proj2 (@confidence_high_iff ascii_tables overlap_fuzz close_services
                  true [de_anima_ia] de_anima [close_match] eq_refl)).
  constructor.
Defined.

Example close_match_is_high : c_confidence close_match = lit "high".
Proof. by vm_compute. Qed.

Lemma no_match_causes_witness :
  match_work (U := ascii_tables) (F := overlap_fuzz) (S := empty_services)
    false (lit "hybrid") [physica] de_anima
  = Some (mkResult de_anima None false (JStr (lit "high"))
            (lit "no_candidates")
            (JStr (lit "No candidates found above threshold"))
            (lit "embedding"))
  /\ match_work (U := ascii_tables) (F := overlap_fuzz) (S := prose_services)
       false (lit "hybrid") [physica] de_anima
     = Some (mkResult de_anima None false (JStr (lit "high"))
               (lit "no_match")
               (JStr (lit "Best candidate score (" ++ lit "0.500"
                      ++ lit ") below threshold"))
               (lit "embedding")).
Proof.
  split.
  - apply (proj1 (@no_match_causes_are_told_apart ascii_tables overlap_fuzz
                    empty_services false (lit "hybrid") [physica] de_anima)).
    reflexivity.
  - apply (proj1 (proj2 (@no_match_causes_are_told_apart ascii_tables
                           overlap_fuzz prose_services false (lit "hybrid")
                           [physica] de_anima)) weak []).
    + vm_compute. reflexivity.
    + reflexivity.
    + discriminate.
Defined.

(** C9, as stated, fails in 'full' mode: the best candidate scores 0.5,
    below the low threshold of 0.60, and the result is the oracle's
    match with the archive record as its target. *)
Lemma full_mode_asks_the_oracle_below_threshold :
  find_candidates (U := ascii_tables) (F := overlap_fuzz)
    (S := same_work_services) true [physica] de_anima
  = Some [candidate (U := ascii_tables) (F := overlap_fuzz)
            (S := same_work_services) true de_anima 0.5 physica]
  /\ 0.5 < EMBEDDING_THRESHOLD_LOW
  /\ match_work (U := ascii_tables) (F := overlap_fuzz)
       (S := same_work_services) true (lit "full") [physica] de_anima
     = Some (mkResult de_anima (Some physica) true (JStr (lit "high"))
               (lit "same_work") (JStr (lit "same text")) (lit "llm")).
Proof. by vm_compute. Qed.

End AgentMatchFacts.
(** ** Blocking in dedupe.py *)

Module DedupeBlocks.
Import Dedupe DedupeSpec DedupeData.

Lemma lookup_append key key' r blocks :
  lookup_block key (append_to_block key' r blocks)
  = if decide (key' = key)
    then Some (default [] (lookup_block key blocks) ++ [r])
    else lookup_block key blocks.
Proof.
  induction blocks as [|[k rs] blocks IH]; simpl.
  - by destruct (decide (key' = key)).
  - destruct (decide (k = key')) as [->|Hne]; simpl.
    + by destruct (decide (key' = key)).
    + destruct (decide (k = key)) as [->|Hne'].
      * by rewrite decide_False by done.
      * apply IH.
Qed.

Lemma lookup_file_keys r keys key blocks :
  NoDup keys ->
  lookup_block key (foldl (fun b k => append_to_block k r b) blocks keys)
  = if decide (key ∈ keys)
    then Some (default [] (lookup_block key blocks) ++ [r])
    else lookup_block key blocks.
Proof.
  intros Hnd. revert blocks.
  induction Hnd as [|k keys Hk Hnd IH]; intros blocks; cbn [foldl].
  - by rewrite decide_False by apply not_elem_of_nil.
  - rewrite IH, lookup_append.
    repeat case_decide; subst; try done; exfalso;
      match goal with
      | Hn : ¬ _ ∈ _ :: _ |- _ => apply Hn; rewrite elem_of_cons; tauto
      | Hi : _ ∈ _ :: _ |- _ => apply elem_of_cons in Hi as [?|?]; done
      end.
Qed.

Lemma block_keys_nodup r : NoDup (block_keys r).
Proof.
  unfold block_keys.
  destruct (year r) as [y|]; [|constructor].
  destruct (title_normalized r) as [t|]; [|constructor].
  destruct (get_title_prefix t) as [|c p]; [constructor|].
  repeat constructor; rewrite ?elem_of_cons, ?elem_of_nil;
    intros H; repeat destruct H as [H|H]; try done;
    injection H; lia.
Qed.

Lemma lookup_file_record key blocks r :
  lookup_block key (file_record blocks r)
  = if decide (key ∈ block_keys r)
    then Some (default [] (lookup_block key blocks) ++ [r])
    else lookup_block key blocks.
Proof. apply lookup_file_keys, block_keys_nodup. Qed.

Lemma lookup_build_blocks_from key blocks records :
  lookup_block key (foldl file_record blocks records)
  = match filed_under key records with
    | [] => lookup_block key blocks
    | l => Some (default [] (lookup_block key blocks) ++ l)
    end.
Proof.
  revert blocks. induction records as [|r records IH]; intros blocks.
  - done.
  - simpl. rewrite IH, lookup_file_record. unfold filed_under.
    rewrite filter_cons.
    destruct (decide (key ∈ block_keys r)) as [Hin|Hnin]; [|done].
    destruct (filter _ records) as [|r' l]; simpl; [done|].
    by rewrite <- (assoc_L (++)).
Qed.

Lemma lookup_build_blocks key records :
  lookup_block key (build_blocks records)
  = match filed_under key records with
    | [] => None
    | l => Some l
    end.
Proof. unfold build_blocks. by rewrite lookup_build_blocks_from. Qed.

Lemma lookup_block_elem key rs blocks :
  lookup_block key blocks = Some rs -> (key, rs) ∈ blocks.
Proof.
  induction blocks as [|[k rs'] blocks IH]; simpl; [done|].
  destruct (decide (k = key)) as [->|Hne].
  - intros [= ->]. left.
  - intros Hl. right. by apply IH.
Qed.

Lemma append_keys key r blocks k :
  k ∈ (append_to_block key r blocks).*1 <-> k = key \/ k ∈ blocks.*1.
Proof.
  induction blocks as [|[k' rs] blocks IH]; simpl.
  - rewrite list_elem_of_singleton, elem_of_nil. tauto.
  - destruct (decide (k' = key)) as [->|Hne]; simpl;
      rewrite !elem_of_cons; [tauto|]. rewrite IH. tauto.
Qed.

Lemma append_keys_nodup key r blocks :
  NoDup blocks.*1 -> NoDup (append_to_block key r blocks).*1.
Proof.
  induction blocks as [|[k rs] blocks IH]; simpl; intros Hnd.
  - repeat constructor. apply not_elem_of_nil.
  - destruct (decide (k = key)) as [->|Hne]; simpl; [done|].
    apply NoDup_cons in Hnd as [Hk Hnd]. apply NoDup_cons. split.
    + rewrite append_keys. intros [->|Hin]; done.
    + by apply IH.
Qed.

Lemma build_blocks_nodup records : NoDup (build_blocks records).*1.
Proof.
  unfold build_blocks.
  assert (Hgen : forall blocks, NoDup blocks.*1 ->
                   NoDup (foldl file_record blocks records).*1).
  { induction records as [|r records IH]; intros blocks Hnd; [done|].
    simpl. apply IH. unfold file_record.
    generalize (block_keys r). intros keys. revert blocks Hnd.
    induction keys as [|k keys IHk]; intros blocks Hnd; [done|].
    simpl. by apply IHk, append_keys_nodup. }
  apply Hgen. constructor.
Qed.

Lemma elem_lookup_block key rs blocks :
  NoDup blocks.*1 -> (key, rs) ∈ blocks -> lookup_block key blocks = Some rs.
Proof.
  induction blocks as [|[k rs'] blocks IH]; simpl; intros Hnd Hin.
  - by apply elem_of_nil in Hin.
  - apply NoDup_cons in Hnd as [Hk Hnd].
    apply elem_of_cons in Hin as [[= <- <-]|Hin].
    + by rewrite decide_True.
    + rewrite decide_False; [by apply IH|].
      intros ->. apply Hk. apply list_elem_of_fmap. by exists (key, rs).
  Qed.

(** Every block of [build_blocks] is the list of records filed under
    its key. *)
Lemma build_blocks_elem key rs records :
  (key, rs) ∈ build_blocks records -> rs = filed_under key records.
Proof.
  intros Hin.
  apply elem_lookup_block in Hin; [|apply build_blocks_nodup].
  rewrite lookup_build_blocks in Hin.
  destruct (filed_under key records); congruence.
Qed.

Lemma year_bucket_near y1 y2 :
  (Z.abs (y1 - y2) <= 5)%Z ->
  year_bucket y2 = year_bucket y1
  \/ year_bucket y2 = (year_bucket y1 - 5)%Z
  \/ year_bucket y2 = (year_bucket y1 + 5)%Z.
Proof.
  unfold year_bucket. intros Hd.
  assert (H1 := Z.div_mod y1 5 ltac:(lia)).
  assert (H2 := Z.div_mod y2 5 ltac:(lia)).
  assert (H3 := Z.mod_pos_bound y1 5 ltac:(lia)).
  assert (H4 := Z.mod_pos_bound y2 5 ltac:(lia)).
  lia.
Qed.

(** C4, as the code has it: two fetched records whose titles have the
    same non-empty prefix (their first three words) and whose years
    are at most five apart share a block. *)
Theorem same_prefix_near_years_share_a_block
    (publications : list record) (r1 r2 : record) (t1 t2 : str) (y1 y2 : Z) :
  r1 ∈ publications -> r2 ∈ publications ->
  title_normalized r1 = Some t1 -> title_normalized r2 = Some t2 ->
  year r1 = Some y1 -> year r2 = Some y2 ->
  get_title_prefix t1 <> [] ->
  get_title_prefix t1 = get_title_prefix t2 ->
  (Z.abs (y1 - y2) <= 5)%Z ->
  co_blocked (build_blocks (fetch publications)) r1 r2 = true.
Proof.
  intros Hin1 Hin2 Ht1 Ht2 Hy1 Hy2 Hne Hpre Hnear.
  set (key := (year_bucket y2, get_title_prefix t2)).
  assert (Hk2 : key ∈ block_keys r2).
  { unfold block_keys. rewrite Hy2, Ht2.
    destruct (get_title_prefix t2) eqn:E; [congruence|]. left. }
  assert (Hk1 : key ∈ block_keys r1).
  { unfold block_keys. rewrite Hy1, Ht1. unfold key. rewrite <- Hpre.
    destruct (get_title_prefix t1) eqn:E; [done|].
    destruct (year_bucket_near y1 y2 Hnear) as [->| [->| ->]];
      rewrite !elem_of_cons; tauto. }
  assert (Hf1 : r1 ∈ fetch publications).
  { apply list_elem_of_filter. split; [|done].
    unfold selected. rewrite Ht1, Hy1. done. }
  assert (Hf2 : r2 ∈ fetch publications).
  { apply list_elem_of_filter. split; [|done].
    unfold selected. rewrite Ht2, Hy2. done. }
  assert (Hb1 : r1 ∈ filed_under key (fetch publications))
    by (by apply list_elem_of_filter).
  assert (Hb2 : r2 ∈ filed_under key (fetch publications))
    by (by apply list_elem_of_filter).
  pose proof (lookup_build_blocks key (fetch publications)) as Hl.
  destruct (filed_under key (fetch publications)) as [|r l] eqn:E.
  { by apply elem_of_nil in Hb1. }
  apply lookup_block_elem in Hl.
  unfold co_blocked. apply existsb_exists. exists (key, r :: l). split.
  - by apply list_elem_of_In.
  - simpl. by rewrite !bool_decide_eq_true_2.
Qed.

Lemma same_prefix_near_years_witness :
  co_blocked (build_blocks (fetch [libri_tres; libri_tres_cum]))
             libri_tres libri_tres_cum = true.
Proof.
  apply (same_prefix_near_years_share_a_block
           [libri_tres; libri_tres_cum] libri_tres libri_tres_cum
           (lit "de anima libri tres")
           (lit "de anima libri tres cum commentariis") 1499 1503).
  - left.
  - right. left.
  - reflexivity.
  - reflexivity.
  - reflexivity.
  - reflexivity.
  - discriminate.
  - reflexivity.
  - simpl. lia.
Defined.

(** C4, as stated, fails: the two titles share two significant words
    and the years are two apart, yet no block holds both records. *)
Lemma shared_words_without_shared_block :
  (2 <= size (significant_words (lit "tractatus de anima aristotelis")
            ∩ significant_words (lit "de anima aristotelis commentarius")))%nat
  /\ (Z.abs (1500 - 1502) <= 5)%Z
  /\ co_blocked (build_blocks (fetch [tractatus; commentarius]))
                tractatus commentarius = false.
Proof.
  split; [|split].
  - vm_compute. lia.
  - simpl. lia.
  - by vm_compute.
Qed.

End DedupeBlocks.
(** ** Union-find in [find_clusters] *)

Module DedupeClusters.
Import Dedupe DedupeSpec.

Lemma path_is_root p x r k : path p x r k -> p !! r = Some r.
Proof. induction 1; done. Qed.

Lemma path_lt p x r k : path p x r k -> (x < length p)%nat.
Proof. intros Hp. destruct Hp; by eapply lookup_lt_Some. Qed.

Lemma path_fun p x r k r' k' :
  path p x r k -> path p x r' k' -> r = r' /\ k = k'.
Proof.
  intros Hp. revert r' k'.
  induction Hp as [x Hx|x y r k Hx Hne Hp IH]; intros r' k' Hp'.
  - destruct Hp' as [x' Hx'|x' y' r' k' Hx' Hne' Hp']; [done|congruence].
  - destruct Hp' as [x' Hx'|x' y' r' k' Hx' Hne' Hp']; [congruence|].
    assert (y' = y) as -> by congruence.
    destruct (IH _ _ Hp') as [-> ->]. done.
Qed.

Lemma seq_rooted n : rooted (seq 0 n) 0.
Proof.
  intros x Hx. rewrite length_seq in Hx. exists x, 0%nat. split; [|done].
  apply path_root. by rewrite lookup_seq_lt.
Qed.

(** Path compression: pointing a non-root at its root shortens paths
    and moves no index to another root. *)
Lemma path_compress p x r kx y ry ky :
  path p x r (S kx) ->
  path p y ry ky ->
  exists ky', (ky' <= ky)%nat /\ path (<[x := r]> p) y ry ky'.
Proof.
  intros Hx Hy.
  assert (Hr : p !! r = Some r) by (by eapply path_is_root).
  assert (Hxr : r <> x).
  { intros ->. inversion Hx; congruence. }
  assert (Hlen : (x < length p)%nat) by (by eapply path_lt).
  induction Hy as [y Hy|y z ry ky Hy Hne Hz IH].
  - exists 0%nat. split; [done|]. apply path_root.
    rewrite list_lookup_insert_ne; [done|].
    intros ->. inversion Hx; congruence.
  - destruct (decide (y = x)) as [->|Hyx].
    + assert (ry = r) as ->.
      { eapply (path_fun p x ry (S ky) r (S kx)); [|exact Hx].
        by eapply path_step. }
      exists 1%nat. split; [lia|].
      eapply path_step; [by apply list_lookup_insert_eq|done|].
      apply path_root. by rewrite list_lookup_insert_ne.
    + destruct IH as (ky' & Hle & Hp').
      exists (S ky'). split; [lia|].
      eapply path_step; [|done|done].
      by rewrite list_lookup_insert_ne.
Qed.

(** [find] returns the root, keeps the length and the roots of all
    indices, and lengthens no path. *)
Lemma find_spec fuel p x r k :
  path p x r k -> (k < fuel)%nat ->
  exists p', find fuel p x = Some (p', r)
             /\ length p' = length p
             /\ (forall y ry ky, path p y ry ky ->
                   exists ky', (ky' <= ky)%nat /\ path p' y ry ky').
Proof.
  intros Hp. revert fuel.
  induction Hp as [x Hx|x y r k Hx Hne Hp IH]; intros fuel Hfuel.
  - destruct fuel as [|fuel]; [lia|]. exists p. simpl. rewrite Hx.
    rewrite decide_True by done. split; [done|]. split; [done|]. eauto.
  - destruct fuel as [|fuel]; [lia|].
    destruct (IH fuel ltac:(lia)) as (p1 & Hfind & Hlen & Hpres).
    exists (<[x := r]> p1). simpl. rewrite Hx.
    rewrite decide_False by done. rewrite Hfind.
    split; [done|]. split; [by rewrite length_insert|].
    intros y0 ry ky Hy.
    destruct (Hpres _ _ _ Hy) as (ky1 & Hle1 & Hy1).
    destruct (Hpres x r (S k)) as (kx1 & Hlex & Hx1).
    { by eapply path_step. }
    destruct kx1 as [|kx1].
    { (* [x] would be a root of [p1], hence [x = r], a root of [p] *)
      inversion Hx1; subst. apply path_is_root in Hp. congruence. }
    destruct (path_compress p1 x r kx1 y0 ry ky1 Hx1 Hy1) as (ky' & Hle & Hp').
    exists ky'. split; [lia|done].
Qed.

(** Linking one root under another. *)
Lemma path_link p a b y ry ky :
  p !! a = Some a -> p !! b = Some b -> a <> b ->
  path p y ry ky ->
  path (<[a := b]> p) y (if decide (ry = a) then b else ry)
       (if decide (ry = a) then S ky else ky).
Proof.
  intros Ha Hb Hab Hy.
  assert (Hlen : (a < length p)%nat) by (by eapply lookup_lt_Some).
  induction Hy as [y Hy|y z ry ky Hy Hne Hz IH].
  - destruct (decide (y = a)) as [->|Hya].
    + eapply path_step; [by apply list_lookup_insert_eq|done|].
      apply path_root. by rewrite list_lookup_insert_ne.
    + apply path_root. by rewrite list_lookup_insert_ne.
  - assert (Hya : a <> y) by congruence.
    destruct (decide (ry = a));
      (eapply path_step; [by rewrite list_lookup_insert_ne|done|done]).
Qed.

Lemma union_spec fuel p d x y :
  rooted p d -> (d < fuel)%nat ->
  (x < length p)%nat -> (y < length p)%nat ->
  exists p', union fuel p x y = Some p'
             /\ length p' = length p
             /\ rooted p' (S d)
             /\ (forall a b, same p a b -> same p' a b)
             /\ same p' x y.
Proof.
  intros Hroot Hfuel Hx Hy.
  destruct (Hroot x Hx) as (rx & kx & Hpx & Hkx).
  destruct (find_spec fuel p x rx kx Hpx ltac:(lia))
    as (p1 & Hf1 & Hlen1 & Hpres1).
  destruct (Hroot y Hy) as (ry & ky & Hpy & Hky).
  destruct (Hpres1 _ _ _ Hpy) as (ky1 & Hky1 & Hpy1).
  destruct (find_spec fuel p1 y ry ky1 Hpy1 ltac:(lia))
    as (p2 & Hf2 & Hlen2 & Hpres2).
  assert (Hpres : forall z rz kz, path p z rz kz ->
                    exists kz', (kz' <= kz)%nat /\ path p2 z rz kz').
  { intros z rz kz Hz. destruct (Hpres1 _ _ _ Hz) as (k1 & Hk1 & Hz1).
    destruct (Hpres2 _ _ _ Hz1) as (k2 & Hk2 & Hz2).
    exists k2. split; [lia|done]. }
  assert (Hroot2 : rooted p2 d).
  { intros z Hz. rewrite Hlen2, Hlen1 in Hz.
    destruct (Hroot z Hz) as (rz & kz & Hpz & Hkz).
    destruct (Hpres _ _ _ Hpz) as (kz' & Hle & Hpz').
    exists rz, kz'. split; [done|lia]. }
  assert (Hsame2 : forall a b, same p a b -> same p2 a b).
  { intros a b (r & ka & kb & Ha & Hb).
    destruct (Hpres _ _ _ Ha) as (ka' & _ & Ha').
    destruct (Hpres _ _ _ Hb) as (kb' & _ & Hb').
    by exists r, ka', kb'. }
  destruct (Hpres _ _ _ Hpx) as (kx2 & _ & Hpx2).
  destruct (Hpres _ _ _ Hpy) as (ky2 & _ & Hpy2).
  unfold union. rewrite Hf1, Hf2.
  destruct (decide (rx = ry)) as [->|Hne].
  - exists p2. split; [done|]. split; [congruence|].
    split; [|split; [done|by exists ry, kx2, ky2]].
    intros z Hz. destruct (Hroot2 z Hz) as (rz & kz & Hpz & Hkz).
    exists rz, kz. split; [done|lia].
  - assert (Hrx : p2 !! rx = Some rx) by (by eapply path_is_root).
    assert (Hry : p2 !! ry = Some ry) by (by eapply path_is_root).
    exists (<[rx := ry]> p2). split; [done|].
    split; [rewrite length_insert; congruence|].
    split; [|split].
    + intros z Hz. rewrite length_insert in Hz.
      destruct (Hroot2 z Hz) as (rz & kz & Hpz & Hkz).
      pose proof (path_link p2 rx ry z rz kz Hrx Hry Hne Hpz) as Hl.
      eexists _, _. split; [exact Hl|]. destruct (decide (rz = rx)); lia.
    + intros a b Hab. destruct (Hsame2 a b Hab) as (r & ka & kb & Ha & Hb).
      pose proof (path_link p2 rx ry a r ka Hrx Hry Hne Ha) as Hla.
      pose proof (path_link p2 rx ry b r kb Hrx Hry Hne Hb) as Hlb.
      eexists _, _, _. split; [exact Hla|exact Hlb].
    + pose proof (path_link p2 rx ry x rx kx2 Hrx Hry Hne Hpx2) as Hlx.
      pose proof (path_link p2 rx ry y ry ky2 Hrx Hry Hne Hpy2) as Hly.
      rewrite decide_True in Hlx by done.
      rewrite decide_False in Hly by done.
      eexists _, _, _. split; [exact Hlx|exact Hly].
Qed.

Lemma rooted_mono p d d' : rooted p d -> (d <= d')%nat -> rooted p d'.
Proof.
  intros Hr Hle x Hx. destruct (Hr x Hx) as (r & k & Hp & Hk).
  exists r, k. split; [done|lia].
Qed.

(** The loop over pairs unions every similar pair and splits no
    class. *)
Lemma compare_all_spec fuzz records fuel todo p d :
  rooted p d -> (d + length todo < fuel)%nat ->
  length p = length records ->
  Forall (in_range records) todo ->
  exists p', compare_all fuzz records fuel todo p = Some p'
             /\ length p' = length p
             /\ rooted p' (d + length todo)
             /\ (forall a b, same p a b -> same p' a b)
             /\ (forall i j ri rj,
                   (i, j) ∈ todo ->
                   records !! i = Some ri -> records !! j = Some rj ->
                   similar fuzz ri rj = true -> same p' i j).
Proof.
  intros Hroot Hfuel Hlen Hrange. revert p d Hroot Hfuel Hlen.
  induction Hrange as [|[i j] todo [Hi Hj] Hrange IH];
    intros p d Hroot Hfuel Hlen.
  - exists p. simpl. split; [done|]. split; [done|].
    split; [by rewrite Nat.add_0_r|]. split; [done|].
    intros i j ri rj Hin. by apply elem_of_nil in Hin.
  - simpl in Hi, Hj, Hfuel.
    destruct (lookup_lt_is_Some_2 records i Hi) as [ri Hri].
    destruct (lookup_lt_is_Some_2 records j Hj) as [rj Hrj].
    assert (Hstep : exists p1, compare fuzz records fuel p (i, j) = Some p1
                      /\ length p1 = length p /\ rooted p1 (S d)
                      /\ (forall a b, same p a b -> same p1 a b)
                      /\ (similar fuzz ri rj = true -> same p1 i j)).
    { unfold compare. simpl. rewrite Hri, Hrj. fold (similar fuzz ri rj).
      destruct (similar fuzz ri rj).
      - destruct (union_spec fuel p d i j Hroot ltac:(lia)
                    ltac:(lia) ltac:(lia))
          as (p1 & Hu & Hl1 & Hr1 & Hs1 & Hij).
        exists p1. eauto 10.
      - exists p. split; [done|]. split; [done|].
        split; [eapply rooted_mono; [exact Hroot|lia]|]. split; [done|]. done. }
    destruct Hstep as (p1 & Hc & Hl1 & Hr1 & Hs1 & Hij).
    destruct (IH p1 (S d) Hr1 ltac:(lia) ltac:(congruence))
      as (p' & Hall & Hl' & Hr' & Hs' & Htodo).
    exists p'. simpl. rewrite Hc. split; [done|]. split; [congruence|].
    split; [by replace (d + S (length todo))%nat
              with (S d + length todo)%nat by lia|].
    split; [by eauto|].
    intros i0 j0 ri0 rj0 Hin Hri0 Hrj0 Hsim.
    apply elem_of_cons in Hin as [[= -> ->]|Hin].
    + apply Hs', Hij. congruence.
    + by eapply Htodo.
Qed.

Lemma pairs_spec n i j : (i, j) ∈ pairs n <-> (i < j < n)%nat.
Proof.
  unfold pairs. rewrite list_elem_of_In, in_flat_map. split.
  - intros (i' & Hi' & Hin). apply in_map_iff in Hin as (j' & [= <- <-] & Hj').
    apply in_seq in Hi'. apply in_seq in Hj'. lia.
  - intros Hij. exists i. split; [apply in_seq; lia|].
    apply in_map_iff. exists j. split; [done|]. apply in_seq. lia.
Qed.

Lemma pairs_length n : (length (pairs n) <= n * n)%nat.
Proof.
  unfold pairs.
  assert (Hgen : forall l, (length (flat_map
            (fun i => map (pair i) (seq (S i) (n - S i))) l)
            <= length l * n)%nat).
  { induction l as [|i l IH]; simpl; [done|].
    rewrite length_app, length_map, length_seq. lia. }
  specialize (Hgen (seq 0 n)). by rewrite length_seq in Hgen.
Qed.

Lemma pairs_in_range records :
  Forall (in_range records) (pairs (length records)).
Proof.
  apply Forall_forall. intros [i j] Hin. apply pairs_spec in Hin.
  unfold in_range. simpl. lia.
Qed.

Lemma lookup_add root rid cm root' :
  lookup_cluster root' (add_to_cluster root rid cm)
  = if decide (root = root')
    then Some (default ∅ (lookup_cluster root' cm) ∪ {[rid]})
    else lookup_cluster root' cm.
Proof.
  induction cm as [|[k c] cm IH]; simpl.
  - destruct (decide (root = root')); [|done].
    f_equal. by rewrite (left_id_L ∅ (∪)).
  - destruct (decide (k = root)) as [->|Hne]; simpl.
    + by destruct (decide (root = root')).
    + destruct (decide (k = root')) as [->|Hne'].
      * by rewrite decide_False by done.
      * apply IH.
Qed.

Lemma lookup_cluster_elem root c cm :
  lookup_cluster root cm = Some c -> c ∈ cm.*2.
Proof.
  induction cm as [|[k c'] cm IH]; simpl; [done|].
  destruct (decide (k = root)).
  - intros [= ->]. left.
  - intros Hl. right. by apply IH.
Qed.

(** The loop that builds [clusters_map] files every index under its
    root and never shrinks a cluster. *)
Lemma build_clusters_spec records fuel todo p d cm :
  rooted p d -> (d < fuel)%nat ->
  length p = length records ->
  Forall (fun i => (i < length records)%nat) todo ->
  exists cm', build_clusters records fuel todo p cm = Some cm'
    /\ (forall root c, lookup_cluster root cm = Some c ->
           exists c', lookup_cluster root cm' = Some c' /\ c ⊆ c')
    /\ (forall i r root k,
           i ∈ todo -> records !! i = Some r -> path p i root k ->
           exists c, lookup_cluster root cm' = Some c /\ id r ∈ c).
Proof.
  intros Hroot Hfuel Hlen Hrange. revert p cm Hroot Hlen.
  induction Hrange as [|i todo Hi Hrange IH]; intros p cm Hroot Hlen.
  - exists cm. simpl. split; [done|]. split.
    + intros root c Hl. by exists c.
    + intros i r root k Hin. by apply elem_of_nil in Hin.
  - destruct (Hroot i ltac:(lia)) as (root & k & Hp & Hk).
    destruct (find_spec fuel p i root k Hp ltac:(lia))
      as (p1 & Hf & Hl1 & Hpres).
    destruct (lookup_lt_is_Some_2 records i Hi) as [r Hr].
    assert (Hroot1 : rooted p1 d).
    { intros z Hz. rewrite Hl1 in Hz.
      destruct (Hroot z Hz) as (rz & kz & Hpz & Hkz).
      destruct (Hpres _ _ _ Hpz) as (kz' & Hle & Hpz').
      exists rz, kz'. split; [done|lia]. }
    destruct (IH p1 (add_to_cluster root (id r) cm) Hroot1
                ltac:(congruence))
      as (cm' & Hb & Hmono & Htodo).
    exists cm'. simpl. rewrite Hf, Hr. split; [done|]. split.
    + intros root0 c Hl.
      destruct (Hmono root0 (if decide (root = root0)
                             then c ∪ {[id r]} else c)) as (c' & Hl' & Hsub).
      { rewrite lookup_add, Hl. by destruct (decide (root = root0)). }
      exists c'. split; [done|].
      destruct (decide (root = root0)); set_solver.
    + intros i0 r0 root0 k0 Hin Hr0 Hp0.
      apply elem_of_cons in Hin as [->|Hin].
      * assert (r0 = r) as -> by congruence.
        destruct (path_fun _ _ _ _ _ _ Hp Hp0) as [<- _].
        destruct (Hmono root (default ∅ (lookup_cluster root cm)
                              ∪ {[id r]})) as (c' & Hl' & Hsub).
        { rewrite lookup_add. by rewrite decide_True. }
        exists c'. split; [done|]. set_solver.
      * destruct (Hpres _ _ _ Hp0) as (k1 & _ & Hp1).
        by eapply Htodo.
Qed.

Lemma seq_in_range (records : list record) :
  Forall (fun i => (i < length records)%nat) (seq 0 (length records)).
Proof. apply Forall_forall. intros i Hi. apply elem_of_seq in Hi. lia. Qed.

(** [find_clusters] always returns, and puts the two records of every
    similar pair into one cluster. *)
Lemma find_clusters_spec fuzz records :
  exists clusters,
    find_clusters fuzz records = Some clusters
    /\ (forall i j ri rj,
          (i < j)%nat ->
          records !! i = Some ri -> records !! j = Some rj ->
          similar fuzz ri rj = true ->
          exists C, C ∈ clusters /\ id ri ∈ C /\ id rj ∈ C).
Proof.
  unfold find_clusters.
  destruct (length records) as [|m] eqn:Hn.
  { exists []. split; [done|]. intros i j ri rj _ Hri.
    apply lookup_lt_Some in Hri. lia. }
  rewrite <- Hn. set (n := length records).
  pose proof (pairs_length n) as Hpl.
  destruct (compare_all_spec fuzz records (S (n * n)) (pairs n) (seq 0 n) 0)
    as (p & Hc & Hlp & Hrp & _ & Hsim).
  { apply seq_rooted. }
  { lia. }
  { by rewrite length_seq. }
  { apply pairs_in_range. }
  rewrite Hc. rewrite length_seq in Hlp. simpl in Hrp.
  destruct (build_clusters_spec records (S (n * n)) (seq 0 n) p
              (length (pairs n)) []) as (cm & Hb & _ & Hfile).
  { done. }
  { lia. }
  { done. }
  { apply seq_in_range. }
  rewrite Hb. exists (cm.*2). split; [done|].
  intros i j ri rj Hij Hri Hrj Hs.
  pose proof (lookup_lt_Some _ _ _ Hri) as Hi.
  pose proof (lookup_lt_Some _ _ _ Hrj) as Hj.
  destruct (Hsim i j ri rj) as (root & ki & kj & Hpi & Hpj); try done.
  { apply pairs_spec. fold n in Hj. lia. }
  destruct (Hfile i ri root ki) as (c & Hl & Hin); try done.
  { apply elem_of_seq. fold n in Hi. lia. }
  destruct (Hfile j rj root kj) as (c' & Hl' & Hin'); try done.
  { apply elem_of_seq. fold n in Hj. lia. }
  assert (c' = c) as -> by congruence.
  exists c. split; [by eapply lookup_cluster_elem|done].
Qed.

End DedupeClusters.
(** ** A second run of [deduplicate] *)

Module DedupeRerun.
Import Dedupe DedupeSpec DedupeData DedupeBlocks DedupeClusters.

Lemma no_cluster_lost_spec fuzz publications all_clusters key rs clusters C :
  no_cluster_lost fuzz publications all_clusters = true ->
  (key, rs) ∈ build_blocks (fetch publications) ->
  block_clusters fuzz rs = Some clusters ->
  C ∈ clusters -> (1 < size C)%nat ->
  exists A, A ∈ all_clusters /\ C ⊆ A.
Proof.
  unfold no_cluster_lost. rewrite forallb_forall.
  intros Hall Hin Hb HC Hsize.
  specialize (Hall (key, rs)). simpl in Hall. rewrite Hb in Hall.
  specialize (Hall ltac:(by apply list_elem_of_In)).
  rewrite forallb_forall in Hall.
  specialize (Hall C ltac:(by apply list_elem_of_In)).
  apply orb_true_iff in Hall as [Hsmall|Hex].
  - apply Nat.leb_le in Hsmall. lia.
  - apply existsb_exists in Hex as (A & HA & Hsub).
    exists A. split; [by apply list_elem_of_In|].
    by apply bool_decide_eq_true in Hsub.
Qed.

(** *** The clusters kept are disjoint *)

Lemma pairwise_disjoint_snoc l C :
  pairwise_disjoint l -> (forall A, A ∈ l -> A ## C) ->
  pairwise_disjoint (l ++ [C]).
Proof.
  induction l as [|A l IH]; simpl; intros Hl HC.
  - split; [|done]. intros B HB. by apply elem_of_nil in HB.
  - destruct Hl as [HA Hl]. split.
    + intros B HB. apply elem_of_app in HB as [HB|HB]; [by apply HA|].
      apply list_elem_of_singleton in HB as ->. apply HC. left.
    + apply IH; [done|]. intros B HB. apply HC. by right.
Qed.

Lemma accept_covered st C : covered st -> covered (accept st C).
Proof.
  destruct st as [all processed]. intros [Hd Hsub]. unfold accept.
  destruct (1 <? size C)%nat; [|done].
  destruct (decide (C ∩ processed = ∅)) as [Hdis|]; [|done].
  split; simpl in *.
  - apply pairwise_disjoint_snoc; [done|].
    intros A HA. specialize (Hsub A HA). set_solver.
  - intros A HA. apply elem_of_app in HA as [HA|HA].
    + specialize (Hsub A HA). set_solver.
    + apply list_elem_of_singleton in HA as ->. set_solver.
Qed.

Lemma foldl_accept_covered clusters st :
  covered st -> covered (foldl accept st clusters).
Proof.
  revert st. induction clusters as [|C clusters IH]; intros st Hst; [done|].
  simpl. by apply IH, accept_covered.
Qed.

Lemma process_blocks_covered fuzz blocks st st' :
  covered st -> process_blocks fuzz blocks st = Some st' -> covered st'.
Proof.
  revert st. induction blocks as [|[key rs] blocks IH]; intros st Hst; simpl.
  - by intros [= <-].
  - destruct (block_clusters fuzz rs) as [clusters|]; [|done].
    by apply IH, foldl_accept_covered.
Qed.

Lemma duplicate_clusters_disjoint fuzz publications all_clusters :
  duplicate_clusters fuzz publications = Some all_clusters ->
  pairwise_disjoint all_clusters.
Proof.
  unfold duplicate_clusters.
  destruct (process_blocks _ _ _) as [[all processed]|] eqn:Hp; [|done].
  intros [= <-].
  apply process_blocks_covered in Hp as [Hd _]; [done|].
  split; [done|]. intros A HA. by apply elem_of_nil in HA.
Qed.

Lemma process_blocks_returns fuzz blocks st st' key rs :
  process_blocks fuzz blocks st = Some st' ->
  (key, rs) ∈ blocks ->
  exists clusters, block_clusters fuzz rs = Some clusters.
Proof.
  revert st. induction blocks as [|[k rs0] blocks IH]; intros st; simpl.
  - intros _ Hin. by apply elem_of_nil in Hin.
  - destruct (block_clusters fuzz rs0) as [clusters|] eqn:Hb; [|done].
    intros Hp Hin. apply elem_of_cons in Hin as [[= -> ->]|Hin].
    + by exists clusters.
    + by eapply IH.
Qed.

(** *** [min(cluster)] and the updates *)

Lemma foldr_min_spec x xs :
  foldr Z.min x xs ∈ x :: xs
  /\ (forall y, y ∈ x :: xs -> (foldr Z.min x xs <= y)%Z).
Proof.
  induction xs as [|z xs [IHin IHle]]; simpl.
  - split; [left|]. intros y Hy.
    apply list_elem_of_singleton in Hy as ->. lia.
  - split.
    + destruct (Z.min_spec z (foldr Z.min x xs)) as [[_ ->]|[_ ->]].
      * right. left.
      * apply elem_of_cons in IHin as [->|Hin]; [left|right; by right].
    + intros y Hy.
      assert (Hy' : y = z \/ y ∈ x :: xs).
      { rewrite !elem_of_cons in *. tauto. }
      destruct Hy' as [->|Hy']; [lia|]. specialize (IHle y Hy'). lia.
Qed.

Lemma set_min_spec (cluster : gset Z) m :
  set_min cluster = Some m ->
  m ∈ cluster /\ (forall y, y ∈ cluster -> (m <= y)%Z).
Proof.
  unfold set_min. destruct (elements cluster) as [|x xs] eqn:He; [done|].
  intros [= <-]. destruct (foldr_min_spec x xs) as [Hin Hle].
  split.
  - apply elem_of_elements. by rewrite He.
  - intros y Hy. apply Hle. rewrite <- He. by apply elem_of_elements.
Qed.

Lemma set_min_is_Some (cluster : gset Z) x :
  x ∈ cluster -> exists m, set_min cluster = Some m.
Proof.
  intros Hx. unfold set_min.
  destruct (elements cluster) as [|y ys] eqn:He; [|by eauto].
  apply elem_of_elements in Hx. rewrite He in Hx. by apply elem_of_nil in Hx.
Qed.

Lemma assign_lookup canonical cluster canonical' :
  assign canonical cluster = Some canonical' ->
  exists m, set_min cluster = Some m
            /\ forall x, canonical' !! x
                         = if decide (x ∈ cluster) then Some m
                           else canonical !! x.
Proof.
  unfold assign. destruct (set_min cluster) as [m|]; [|done].
  intros [= <-]. exists m. split; [done|].
  pose (P := fun (r : gmap Z Z) (X : gset Z) =>
               forall x, r !! x = if decide (x ∈ X) then Some m
                                  else canonical !! x).
  assert (HP : forall X : gset Z,
             P (set_fold (fun record_id m0 => <[record_id := m]> m0)
                         canonical X) X); [|exact (HP cluster)].
  apply set_fold_ind_L; unfold P.
  - intros x. by rewrite decide_False by set_solver.
  - intros y X r Hy IH x. rewrite lookup_insert.
    destruct (decide (y = x)) as [->|Hne].
    + by rewrite decide_True by set_solver.
    + rewrite IH. destruct (decide (x ∈ X)).
      * by rewrite decide_True by set_solver.
      * rewrite decide_False; [done|]. intros Hin.
        apply elem_of_union in Hin as [Hin|Hin]; [|done].
        apply elem_of_singleton in Hin. congruence.
Qed.

Lemma assign_all_frame all canonical canonical' x :
  assign_all canonical all = Some canonical' ->
  (forall B, B ∈ all -> x ∉ B) ->
  canonical' !! x = canonical !! x.
Proof.
  revert canonical. induction all as [|A all IH]; intros canonical; simpl.
  - by intros [= <-].
  - destruct (assign canonical A) as [c1|] eqn:Ha; [|done].
    intros Hall Hx. rewrite (IH c1 Hall).
    + destruct (assign_lookup _ _ _ Ha) as (m & _ & Hl). rewrite Hl.
      rewrite decide_False; [done|]. apply Hx. left.
    + intros B HB. apply Hx. by right.
Qed.

(** Every member of a kept cluster gets the least id of its cluster. *)
Lemma assign_all_lookup all canonical canonical' A x :
  pairwise_disjoint all ->
  assign_all canonical all = Some canonical' ->
  A ∈ all -> x ∈ A ->
  exists m, set_min A = Some m /\ canonical' !! x = Some m.
Proof.
  revert canonical. induction all as [|A0 all IH]; intros canonical; simpl.
  - intros _ _ HA. by apply elem_of_nil in HA.
  - intros [Hdis Hrest]. destruct (assign canonical A0) as [c1|] eqn:Ha; [|done].
    intros Hall HA Hx. apply elem_of_cons in HA as [->|HA].
    + destruct (assign_lookup _ _ _ Ha) as (m & Hm & Hl).
      exists m. split; [done|].
      rewrite (assign_all_frame _ _ _ x Hall).
      * rewrite Hl. by rewrite decide_True.
      * intros B HB HxB. specialize (Hdis B HB). set_solver.
    + by eapply IH.
Qed.

(** *** A block without a similar pair *)

Lemma compare_all_dissimilar fuzz records fuel todo p :
  Forall (fun ij => exists ri rj,
            records !! ij.1 = Some ri /\ records !! ij.2 = Some rj
            /\ similar fuzz ri rj = false) todo ->
  compare_all fuzz records fuel todo p = Some p.
Proof.
  induction 1 as [|[i j] todo (ri & rj & Hri & Hrj & Hs) _ IH]; [done|].
  simpl in *. unfold compare. simpl. rewrite Hri, Hrj.
  fold (similar fuzz ri rj). by rewrite Hs.
Qed.

Lemma add_fresh_small cm a rid :
  small cm a -> small (add_to_cluster a rid cm) (S a).
Proof.
  induction 1 as [|[k c] cm [Hk Hc] _ IH];
    cbn [add_to_cluster fst snd] in *.
  - constructor; [|constructor].
    split; cbn [fst snd]; [lia|by rewrite size_singleton].
  - rewrite decide_False by lia.
    constructor; [cbn [fst snd]; split; [lia|done]|done].
Qed.

Lemma build_clusters_untouched records fuel n m a cm :
  (a + m <= n)%nat -> n = length records -> small cm a ->
  exists cm', build_clusters records (S fuel) (seq a m) (seq 0 n) cm = Some cm'
              /\ small cm' (a + m).
Proof.
  revert a cm. induction m as [|m IH]; intros a cm Ham Hn Hcm.
  - exists cm. split; [done|]. by rewrite Nat.add_0_r.
  - cbn [seq build_clusters find].
    rewrite lookup_seq_lt by lia. cbn [Nat.add].
    rewrite decide_True by done.
    destruct (lookup_lt_is_Some_2 records a ltac:(lia)) as [r Hr].
    rewrite Hr.
    destruct (IH (S a) (add_to_cluster a (id r) cm) ltac:(lia) Hn
                (add_fresh_small _ _ _ Hcm)) as (cm' & Hb & Hs).
    exists cm'. split; [done|].
    by replace (a + S m)%nat with (S a + m)%nat by lia.
Qed.

(** Without a similar pair every cluster is a single record. *)
Lemma find_clusters_dissimilar fuzz records :
  (forall i j ri rj,
      (i < j)%nat -> records !! i = Some ri -> records !! j = Some rj ->
      similar fuzz ri rj = false) ->
  exists clusters, find_clusters fuzz records = Some clusters
                   /\ Forall (fun C => (size C <= 1)%nat) clusters.
Proof.
  intros Hdis. unfold find_clusters.
  destruct (length records) as [|m] eqn:Hn.
  { exists []. by split. }
  rewrite <- Hn. set (n := length records).
  rewrite compare_all_dissimilar.
  - destruct (build_clusters_untouched records (n * n) n n 0 [])
      as (cm & Hb & Hs); [lia|done|constructor|].
    rewrite Hb. exists (cm.*2). split; [done|].
    apply Forall_fmap. eapply Forall_impl; [exact Hs|].
    intros [k c] [_ Hc]. done.
  - apply Forall_forall. intros [i j] Hin. apply pairs_spec in Hin.
    destruct (lookup_lt_is_Some_2 records i ltac:(fold n; lia)) as [ri Hri].
    destruct (lookup_lt_is_Some_2 records j ltac:(fold n; lia)) as [rj Hrj].
    exists ri, rj. split; [done|]. split; [done|].
    eapply Hdis; [|done|done]. lia.
Qed.

Lemma accept_small st C : (size C <= 1)%nat -> accept st C = st.
Proof.
  intros Hs. destruct st as [all processed]. unfold accept.
  by rewrite (proj2 (Nat.ltb_ge 1 (size C))) by lia.
Qed.

Lemma foldl_accept_small st clusters :
  Forall (fun C => (size C <= 1)%nat) clusters -> foldl accept st clusters = st.
Proof.
  induction 1 as [|C clusters HC _ IH]; [done|].
  simpl. by rewrite accept_small.
Qed.

Lemma process_blocks_small fuzz blocks st :
  Forall (fun b => exists clusters,
            block_clusters fuzz b.2 = Some clusters
            /\ Forall (fun C => (size C <= 1)%nat) clusters) blocks ->
  process_blocks fuzz blocks st = Some st.
Proof.
  induction 1 as [|[key rs] blocks (clusters & Hb & Hs) _ IH]; [done|].
  simpl in *. rewrite Hb. by rewrite foldl_accept_small.
Qed.

(** *** Records with distinct ids *)

Lemma unique_from_nodup seen l :
  NoDup (id <$> l) -> (forall r, r ∈ l -> id r ∉ seen) ->
  unique_from seen l = l.
Proof.
  revert seen. induction l as [|r l IH]; intros seen Hnd Hseen; [done|].
  simpl. rewrite fmap_cons in Hnd. apply NoDup_cons in Hnd as [Hr Hnd].
  rewrite decide_False by (apply Hseen; left). f_equal.
  apply IH; [done|]. intros r' Hr'.
  assert (id r' <> id r).
  { intros Heq. apply Hr. rewrite <- Heq. by apply list_elem_of_fmap_2. }
  specialize (Hseen r' ltac:(by right)). intros Hin.
  apply elem_of_union in Hin as [Hin|Hin]; [done|].
  by apply elem_of_singleton in Hin.
Qed.

Lemma unique_records_nodup l : NoDup (id <$> l) -> unique_records l = l.
Proof. intros Hnd. apply unique_from_nodup; [done|]. set_solver. Qed.

Lemma filter_ids_nodup (P : record -> Prop) `{!forall r, Decision (P r)}
    (l : list record) :
  NoDup (id <$> l) -> NoDup (id <$> filter P l).
Proof.
  intros Hnd. eapply sublist_NoDup; [exact Hnd|].
  apply fmap_sublist, sublist_filter.
Qed.

(** A filter keeps the order of what it keeps. *)
Lemma filter_lookup_order (P : record -> Prop)
    `{!forall r, Decision (P r)} (l : list record) (i j : nat)
    (x y : record) :
  (i < j)%nat -> filter P l !! i = Some x -> filter P l !! j = Some y ->
  exists i0 j0, (i0 < j0)%nat /\ l !! i0 = Some x /\ l !! j0 = Some y.
Proof.
  revert i j. induction l as [|r l IH]; intros i j Hij Hx Hy; [done|].
  rewrite filter_cons in Hx, Hy. destruct (decide (P r)).
  - destruct i as [|i]; destruct j as [|j]; try lia; simpl in Hx, Hy.
    + injection Hx as ->. apply list_elem_of_lookup_2 in Hy.
      apply list_elem_of_filter in Hy as [_ Hy].
      apply list_elem_of_lookup_1 in Hy as [j0 Hj0].
      exists 0%nat, (S j0). split; [lia|done].
    + destruct (IH i j ltac:(lia) Hx Hy) as (i0 & j0 & H0 & Hi0 & Hj0).
      exists (S i0), (S j0). split; [lia|done].
  - destruct (IH i j Hij Hx Hy) as (i0 & j0 & H0 & Hi0 & Hj0).
    exists (S i0), (S j0). split; [lia|done].
Qed.

(** *** [deduplicate] always returns *)

Lemma block_clusters_total fuzz rs :
  exists clusters, block_clusters fuzz rs = Some clusters.
Proof.
  unfold block_clusters. destruct (length rs <? 2)%nat; [by eexists|].
  destruct (length (unique_records rs) <? 2)%nat; [by eexists|].
  destruct (find_clusters_spec fuzz (unique_records rs)) as (cl & Hcl & _).
  by exists cl.
Qed.

Lemma accept_multiple st C :
  Forall (fun A => (1 < size A)%nat) st.1 ->
  Forall (fun A => (1 < size A)%nat) (accept st C).1.
Proof.
  destruct st as [all processed]. unfold accept. simpl. intros Hall.
  destruct (1 <? size C)%nat eqn:Hsize; [|done].
  destruct (decide (C ∩ processed = ∅)); [|done]. simpl.
  apply Forall_app. split; [done|]. constructor; [|constructor].
  by apply Nat.ltb_lt.
Qed.

Lemma process_blocks_total fuzz blocks st :
  Forall (fun A => (1 < size A)%nat) st.1 ->
  exists st', process_blocks fuzz blocks st = Some st'
              /\ Forall (fun A => (1 < size A)%nat) st'.1.
Proof.
  revert st. induction blocks as [|[key rs] blocks IH]; intros st Hst; simpl.
  - by exists st.
  - destruct (block_clusters_total fuzz rs) as [clusters ->].
    apply IH. clear IH. revert st Hst.
    induction clusters as [|C clusters IHc]; intros st Hst; [done|].
    simpl. by apply IHc, accept_multiple.
Qed.

Lemma assign_all_total canonical all :
  Forall (fun A => (1 < size A)%nat) all ->
  exists canonical', assign_all canonical all = Some canonical'.
Proof.
  intros Hall. revert canonical.
  induction Hall as [|A all HA _ IH]; intros canonical; simpl.
  - by eexists.
  - destruct (size_pos_elem_of A ltac:(lia)) as [x Hx].
    destruct (set_min_is_Some A x Hx) as [m Hm].
    unfold assign. rewrite Hm. apply IH.
Qed.

(** The fuel of [find] never runs out and [min] never sees an empty
    cluster: [deduplicate] returns a column for every table. *)
Lemma deduplicate_total fuzz publications :
  exists all_clusters canonical,
    duplicate_clusters fuzz publications = Some all_clusters
    /\ deduplicate fuzz publications = Some canonical.
Proof.
  unfold deduplicate, duplicate_clusters.
  destruct (process_blocks_total fuzz (build_blocks (fetch publications))
              ([], ∅)) as ([all processed] & -> & Hall); [constructor|].
  destruct (assign_all_total ∅ all Hall) as [canonical Hc].
  by exists all, canonical.
Qed.

Lemma two_elements_size (C : gset Z) a b :
  a ∈ C -> b ∈ C -> a <> b -> (1 < size C)%nat.
Proof.
  intros Ha Hb Hab.
  assert (Hsub : ({[a]} ∪ {[b]} : gset Z) ⊆ C).
  { intros z Hz. apply elem_of_union in Hz as [Hz|Hz];
      apply elem_of_singleton in Hz as ->; done. }
  apply subseteq_size in Hsub.
  rewrite size_union, !size_singleton in Hsub by set_solver. lia.
Qed.

(** C7, as the code has it: after a run in which the overlap guard
    dropped no cluster that was not already part of a kept one,
    deduplicating the canonical records again merges nothing: no
    cluster is kept and every [canonical_id] stays NULL. *)
Theorem rerun_on_canonical_records_merges_nothing
    fuzz (publications : list record) (all_clusters : list (gset Z))
    (canonical : gmap Z Z) :
  NoDup (id <$> publications) ->
  duplicate_clusters fuzz publications = Some all_clusters ->
  deduplicate fuzz publications = Some canonical ->
  no_cluster_lost fuzz publications all_clusters = true ->
  duplicate_clusters fuzz (canonical_records canonical publications) = Some []
  /\ deduplicate fuzz (canonical_records canonical publications) = Some ∅.
Proof.
  intros Hnd Hdup Hded Hlost.
  assert (Hassign : assign_all ∅ all_clusters = Some canonical).
  { unfold deduplicate in Hded. by rewrite Hdup in Hded. }
  pose proof (duplicate_clusters_disjoint _ _ _ Hdup) as Hdisj.
  set (R := fetch publications).
  set (R' := fetch (canonical_records canonical publications)).
  assert (Hproc : exists processed,
             process_blocks fuzz (build_blocks R) ([], ∅)
             = Some (all_clusters, processed)).
  { unfold duplicate_clusters in Hdup. fold R in Hdup.
    destruct (process_blocks fuzz (build_blocks R) ([], ∅))
      as [[all processed]|]; [|done].
    injection Hdup as ->. by exists processed. }
  destruct Hproc as [processed Hproc].
  assert (HR' : forall key,
             filed_under key R'
             = filter (fun r => is_canonical canonical r = true)
                      (filed_under key R)).
  { intros key. unfold filed_under, R, R', fetch, canonical_records.
    rewrite !list_filter_filter. apply list_filter_iff. tauto. }
  enough (Hblocks :
            Forall (fun b => exists clusters,
                      block_clusters fuzz b.2 = Some clusters
                      /\ Forall (fun C => (size C <= 1)%nat) clusters)
                   (build_blocks R')).
  { unfold deduplicate, duplicate_clusters. fold R'.
    by rewrite (process_blocks_small _ _ _ Hblocks). }
  apply Forall_forall. intros [key rs'] Hin. cbn [snd].
  pose proof (build_blocks_elem _ _ _ Hin) as Hrs'. rewrite HR' in Hrs'.
  set (rs := filed_under key R) in *.
  assert (Hnd_rs : NoDup (id <$> rs)).
  { unfold rs, filed_under, R, fetch. by do 2 apply filter_ids_nodup. }
  assert (Hnd_rs' : NoDup (id <$> rs')).
  { subst rs'. by apply filter_ids_nodup. }
  unfold block_clusters.
  destruct (length rs' <? 2)%nat eqn:Hshort.
  { exists []. by split. }
  rewrite unique_records_nodup by done. rewrite Hshort.
  apply find_clusters_dissimilar.
  intros i j x y Hij Hx Hy.
  destruct (similar fuzz x y) eqn:Hsim; [exfalso|done].
  assert (Hcx : is_canonical canonical x = true).
  { apply list_elem_of_lookup_2 in Hx. rewrite Hrs' in Hx.
    by apply list_elem_of_filter in Hx as [? _]. }
  assert (Hcy : is_canonical canonical y = true).
  { apply list_elem_of_lookup_2 in Hy. rewrite Hrs' in Hy.
    by apply list_elem_of_filter in Hy as [? _]. }
  rewrite Hrs' in Hx, Hy.
  destruct (filter_lookup_order _ rs i j x y Hij Hx Hy)
    as (i0 & j0 & H0 & Hi0 & Hj0).
  assert (Hid : id x <> id y).
  { intros Heq. assert (i0 = j0); [|lia].
    eapply NoDup_lookup; [exact Hnd_rs| |].
    - by rewrite list_lookup_fmap, Hi0.
    - rewrite list_lookup_fmap, Hj0. simpl. by rewrite Heq. }
  assert (Hblock : (key, rs) ∈ build_blocks R).
  { apply lookup_block_elem. rewrite lookup_build_blocks. fold rs.
    by destruct rs. }
  destruct (process_blocks_returns _ _ _ _ _ _ Hproc Hblock)
    as [clusters Hcl].
  pose proof (lookup_lt_Some _ _ _ Hj0) as Hlen.
  unfold block_clusters in Hcl.
  rewrite (proj2 (Nat.ltb_ge (length rs) 2)) in Hcl by lia.
  rewrite unique_records_nodup in Hcl by done.
  rewrite (proj2 (Nat.ltb_ge (length rs) 2)) in Hcl by lia.
  destruct (find_clusters_spec fuzz rs) as (clusters' & Hfc & Hsame).
  assert (clusters' = clusters) as -> by congruence.
  destruct (Hsame i0 j0 x y H0 Hi0 Hj0 Hsim) as (C & HC & HxC & HyC).
  pose proof (two_elements_size C _ _ HxC HyC Hid) as Hsize.
  destruct (no_cluster_lost_spec fuzz publications all_clusters key rs
              clusters C Hlost Hblock) as (A & HA & Hsub).
  { unfold block_clusters.
    rewrite (proj2 (Nat.ltb_ge (length rs) 2)) by lia.
    rewrite unique_records_nodup by done.
    by rewrite (proj2 (Nat.ltb_ge (length rs) 2)) by lia. }
  { done. }
  { done. }
  destruct (assign_all_lookup all_clusters ∅ canonical A (id x) Hdisj
              Hassign HA ltac:(set_solver)) as (m & Hm & Hlx).
  destruct (assign_all_lookup all_clusters ∅ canonical A (id y) Hdisj
              Hassign HA ltac:(set_solver)) as (m' & Hm' & Hly).
  assert (m' = m) as -> by congruence.
  unfold is_canonical in Hcx, Hcy. rewrite Hlx in Hcx. rewrite Hly in Hcy.
  apply Z.eqb_eq in Hcx, Hcy. congruence.
Qed.

(** C7, as stated, fails.  The first block holds records 1 and 2, which
    are merged; the block that holds all three yields the cluster
    {1, 2, 3}, which the guard on [processed_ids] drops, so record 3
    stays on its own.  A second run over the canonical records 1 and 3
    merges them. *)
Lemma second_run_merges_again :
  exists canonical canonical',
    deduplicate None three_editions = Some canonical
    /\ canonical_records canonical three_editions
       = [edition 1 1499; edition 3 1505]
    /\ deduplicate None (canonical_records canonical three_editions)
       = Some canonical'
    /\ canonical' !! 3%Z = Some 1%Z.
Proof.
  eexists _, _. split; [by vm_compute|].
  split; [by vm_compute|]. split; [by vm_compute|]. by vm_compute.
Qed.

Lemma rerun_witness :
  duplicate_clusters None
    (canonical_records {[1%Z := 1%Z; 2%Z := 1%Z]} two_editions) = Some []
  /\ deduplicate None
       (canonical_records {[1%Z := 1%Z; 2%Z := 1%Z]} two_editions) = Some ∅.
Proof.
  apply (rerun_on_canonical_records_merges_nothing None two_editions
           [{[1%Z; 2%Z]}] {[1%Z := 1%Z; 2%Z := 1%Z]}).
  - apply (bool_decide_unpack _). by vm_compute.
  - by vm_compute.
  - by vm_compute.
  - by vm_compute.
Defined.

End DedupeRerun.
(** ** Canonical records *)

Module Canonical.
Import DedupeSpec DedupeData DeduplicatorData DedupeRerun.

Lemma max_by_score_first best rest :
  exists pre post,
    best :: rest = pre ++ Deduplicator.max_by_score best rest :: post
    /\ Forall (fun x => x.2 < (Deduplicator.max_by_score best rest).2) pre
    /\ Forall (fun x => x.2 <= (Deduplicator.max_by_score best rest).2) post
    /\ best.2 <= (Deduplicator.max_by_score best rest).2.
Proof.
  revert best.
  induction rest as [|x rest IH]; intros best;
    cbn [Deduplicator.max_by_score].
  - exists [], []. repeat split; try constructor. apply Qle_refl.
  - destruct (Qlt_le_dec best.2 x.2) as [Hlt|Hle].
    + destruct (IH x) as (pre & post & Heq & Hpre & Hpost & Hx).
      set (m := Deduplicator.max_by_score x rest) in *.
      exists (best :: pre), post.
      split; [simpl; by f_equal|]. split; [|split; [done|]].
      * constructor; [|done]. eapply Qlt_le_trans; done.
      * apply Qlt_le_weak. eapply Qlt_le_trans; done.
    + destruct (IH best) as (pre & post & Heq & Hpre & Hpost & Hb).
      set (m := Deduplicator.max_by_score best rest) in *.
      destruct pre as [|b pre]; simpl in Heq.
      * injection Heq as Hm Hrest. exists [], (x :: rest).
        split; [simpl; by rewrite <- Hm|]. split; [constructor|].
        split; [|done].
        constructor; [by rewrite <- Hm|by rewrite Hrest].
      * injection Heq as Hbb Hrest.
        exists (best :: x :: pre), post.
        split; [simpl; by rewrite Hrest|].
        split; [|split; [done|done]].
        apply Forall_cons in Hpre as [Hb' Hpre]. subst b.
        constructor; [done|]. constructor; [|done].
        eapply Qle_lt_trans; done.
Qed.

Lemma score_all_elem {U : Unicode} group scores idx s :
  Deduplicator.score_all group = Some scores ->
  (idx, s) ∈ scores ->
  exists r, (idx, r) ∈ group /\ Deduplicator.primary_score r = Some s.
Proof.
  revert scores. induction group as [|[i r] group IH]; intros scores; simpl.
  - intros [= <-] Hin. by apply elem_of_nil in Hin.
  - destruct (Deduplicator.primary_score r) as [sc|] eqn:Hr; [|done].
    destruct (Deduplicator.score_all group) as [tl|]; [|done].
    intros [= <-] Hin. apply elem_of_cons in Hin as [[= -> ->]|Hin].
    + exists r. split; [left|done].
    + destruct (IH tl eq_refl Hin) as (r' & Hin' & Hs').
      exists r'. split; [by right|done].
Qed.

Lemma score_all_scored {U : Unicode} group scores idx r :
  Deduplicator.score_all group = Some scores ->
  (idx, r) ∈ group ->
  exists s, Deduplicator.primary_score r = Some s /\ (idx, s) ∈ scores.
Proof.
  revert scores. induction group as [|[i r0] group IH]; intros scores; simpl.
  - intros _ Hin. by apply elem_of_nil in Hin.
  - destruct (Deduplicator.primary_score r0) as [sc|] eqn:Hr; [|done].
    destruct (Deduplicator.score_all group) as [tl|]; [|done].
    intros [= <-] Hin. apply elem_of_cons in Hin as [[= -> ->]|Hin].
    + exists sc. split; [done|left].
    + destruct (IH tl eq_refl Hin) as (s & Hs & Hin').
      exists s. split; [done|by right].
Qed.

(** C8, as the code has it.  [deduplicate] gives every record of a
    kept cluster the least id of the cluster as its canonical id,
    whatever the records hold.  [_select_primary_record] returns a
    record whose score (source priority, completeness and field
    lengths, weighted) no other record of the group exceeds. *)
Theorem canonical_is_least_id_and_primary_is_best_score :
  (forall fuzz publications all_clusters canonical A x,
      Dedupe.duplicate_clusters fuzz publications = Some all_clusters ->
      Dedupe.deduplicate fuzz publications = Some canonical ->
      A ∈ all_clusters -> x ∈ A ->
      exists m, canonical !! x = Some m /\ m ∈ A
                /\ forall y, y ∈ A -> (m <= y)%Z)
  /\ (forall (U : Unicode) group idx,
        Deduplicator._select_primary_record group = Some idx ->
        exists r s, (idx, r) ∈ group
                    /\ Deduplicator.primary_score r = Some s
                    /\ forall idx' r', (idx', r') ∈ group ->
                         exists s', Deduplicator.primary_score r' = Some s'
                                    /\ s' <= s).
Proof.
  split.
  - intros fuzz publications all_clusters canonical A x Hdup Hded HA Hx.
    pose proof (duplicate_clusters_disjoint _ _ _ Hdup) as Hdisj.
    unfold Dedupe.deduplicate in Hded. rewrite Hdup in Hded.
    destruct (assign_all_lookup all_clusters ∅ canonical A x Hdisj Hded HA Hx)
      as (m & Hm & Hl).
    exists m. split; [done|]. by apply set_min_spec.
  - intros U group idx. unfold Deduplicator._select_primary_record.
    destruct (Deduplicator.score_all group) as [[|first rest]|] eqn:Hs;
      [done| |done].
    intros [= <-].
    destruct (max_by_score_first first rest)
      as (pre & post & Heq & Hpre & Hpost & _).
    set (best := Deduplicator.max_by_score first rest) in *.
    assert (Hbest : best ∈ first :: rest).
    { rewrite Heq. apply elem_of_app. right. left. }
    destruct best as [idx s] eqn:Hb. simpl in *.
    destruct (score_all_elem group _ idx s Hs Hbest) as (r & Hr & Hsc).
    exists r, s. split; [done|]. split; [done|].
    intros idx' r' Hin'.
    destruct (score_all_scored group _ idx' r' Hs Hin') as (s' & Hs' & Hin'').
    exists s'. split; [done|].
    rewrite Heq in Hin''. apply elem_of_app in Hin'' as [Hin''|Hin''].
    + rewrite Forall_forall in Hpre. apply Qlt_le_weak.
      apply (Hpre _ Hin'').
    + apply elem_of_cons in Hin'' as [[= _ ->]|Hin'']; [apply Qle_refl|].
      rewrite Forall_forall in Hpost. apply (Hpost _ Hin'').
Qed.

Lemma canonical_witness :
  (exists m, ({[1%Z := 1%Z; 2%Z := 1%Z]} : gmap Z Z) !! 2%Z = Some m
             /\ m ∈ ({[1%Z; 2%Z]} : gset Z)
             /\ forall y, y ∈ ({[1%Z; 2%Z]} : gset Z) -> (m <= y)%Z)
  /\ (exists r s, (0%nat, r) ∈ [(0%nat, ustc_copy); (1%nat, estc_copy)]
                  /\ Deduplicator.primary_score (U := ascii_tables) r = Some s
                  /\ forall idx' r',
                       (idx', r') ∈ [(0%nat, ustc_copy); (1%nat, estc_copy)] ->
                       exists s',
                         Deduplicator.primary_score (U := ascii_tables) r'
                         = Some s' /\ s' <= s).
Proof.
  split.
  - apply (proj1 canonical_is_least_id_and_primary_is_best_score None
             [bare; complete] [{[1%Z; 2%Z]}] {[1%Z := 1%Z; 2%Z := 1%Z]}
             {[1%Z; 2%Z]} 2%Z).
    + by vm_compute.
    + by vm_compute.
    + left.
    + set_solver.
  - apply (proj2 canonical_is_least_id_and_primary_is_best_score
             ascii_tables [(0%nat, ustc_copy); (1%nat, estc_copy)] 0%nat).
    by vm_compute.
Defined.

(** C8, as stated, fails: the two records form one cluster, the second
    has more fields filled in, and the first is made canonical. *)
Lemma least_id_wins_over_completeness :
  Dedupe.duplicate_clusters None [bare; complete] = Some [{[1%Z; 2%Z]}]
  /\ Dedupe.deduplicate None [bare; complete]
     = Some {[1%Z := 1%Z; 2%Z := 1%Z]}
  /\ (completeness bare < completeness complete)%nat.
Proof.
  split; [by vm_compute|]. split; [by vm_compute|]. vm_compute. lia.
Qed.

End Canonical.
(** ** Symmetry of the similarity signals *)

Module Symmetry.
Import Deduplicator.

Lemma basic_sim_sym s t : Dedupe.basic_sim s t = Dedupe.basic_sim t s.
Proof.
  unfold Dedupe.basic_sim. cbv zeta.
  rewrite (andb_comm (negb (bool_decide (Dedupe.word_set s = ∅)))).
  rewrite (intersection_comm_L (Dedupe.word_set s)).
  by rewrite (union_comm_L (Dedupe.word_set s)).
Qed.

Lemma overlap_fuzz_symmetric : fuzz_symmetric overlap_fuzz.
Proof. intros s t. split; apply basic_sim_sym. Qed.

Lemma field_sim_sym fuzz s t :
  (forall F, fuzz = Some F -> fuzz_symmetric F) ->
  Dedupe.field_sim fuzz s t = Dedupe.field_sim fuzz t s.
Proof.
  intros Hsym. destruct fuzz as [F|]; simpl.
  - by destruct (Hsym F eq_refl s t) as [_ ->].
  - apply basic_sim_sym.
Qed.

Lemma year_sim_sym y1 y2 : Dedupe.year_sim y1 y2 = Dedupe.year_sim y2 y1.
Proof.
  unfold Dedupe.year_sim.
  by replace (Z.abs (y2 - y1)) with (Z.abs (y1 - y2)) by lia.
Qed.

Lemma similarity_score_sym fuzz r1 r2 :
  (forall F, fuzz = Some F -> fuzz_symmetric F) ->
  Dedupe.similarity_score fuzz r1 r2 = Dedupe.similarity_score fuzz r2 r1.
Proof.
  intros Hsym.
  unfold Dedupe.similarity_score, Dedupe.accumulate, Dedupe.add_year,
    Dedupe.add_creator, Dedupe.add_title.
  rewrite (andb_comm (Dedupe.present (Dedupe.title_normalized r1))),
    (andb_comm (Dedupe.present (Dedupe.creator_normalized r1))),
    (andb_comm (Dedupe.year_present (Dedupe.year r1))).
  rewrite (field_sim_sym fuzz (Dedupe.text (Dedupe.title_normalized r1)))
    by done.
  rewrite (field_sim_sym fuzz (Dedupe.text (Dedupe.creator_normalized r1)))
    by done.
  by rewrite (year_sim_sym (default 0%Z (Dedupe.year r1))).
Qed.

Section Scores.
Context {U : Unicode} {D : Unidecode} {F : Rapidfuzz}.
Variable cfg : config.
Hypothesis Hsym : fuzz_symmetric F.

Lemma title_sym a b :
  calculate_title_similarity a b = calculate_title_similarity b a.
Proof.
  unfold calculate_title_similarity. rewrite (orb_comm (isna a)).
  destruct (isna b || isna a); [done|]. cbv zeta.
  destruct (Hsym (normalize_text a) (normalize_text b)) as [-> ->].
  set (k1 := extract_keywords a). set (k2 := extract_keywords b).
  rewrite (andb_comm (bool_decide (k1 = ∅))).
  rewrite (orb_comm (bool_decide (k1 = ∅))).
  assert (Hi : k1 ∩ k2 = k2 ∩ k1) by apply intersection_comm_L.
  assert (Hu : k1 ∪ k2 = k2 ∪ k1) by apply union_comm_L.
  by rewrite Hi, Hu.
Qed.

Lemma matching_initials_sym words1 words2 :
  matching_initials words1 words2 = matching_initials words2 words1.
Proof.
  revert words2.
  induction words1 as [|w1 words1 IH]; intros [|w2 words2]; simpl;
    try done.
  rewrite IH. f_equal.
  destruct (decide (head w1 = head w2)) as [Heq|Hne].
  - by rewrite !bool_decide_eq_true_2.
  - by rewrite !bool_decide_eq_false_2.
Qed.

Lemma author_sym a b :
  calculate_author_similarity a b = calculate_author_similarity b a.
Proof.
  unfold calculate_author_similarity. rewrite (orb_comm (isna a)).
  destruct (isna b || isna a); [done|]. cbv zeta.
  set (w1 := split (normalize_text a)).
  set (w2 := split (normalize_text b)).
  destruct (Hsym (normalize_text a) (normalize_text b)) as [-> _].
  rewrite (matching_initials_sym w1 w2).
  assert (Hlen : bool_decide (length w1 = length w2)
                 = bool_decide (length w2 = length w1))
    by (apply bool_decide_ext; split; congruence).
  assert (Hsur : bool_decide (default [] (last w1) = default [] (last w2))
                 = bool_decide (default [] (last w2)
                                = default [] (last w1)))
    by (apply bool_decide_ext; split; congruence).
  rewrite Hlen, Hsur.
  destruct (bool_decide (default [] (last w2) = default [] (last w1)))
    eqn:Heq.
  - apply bool_decide_eq_true in Heq. rewrite Heq.
    destruct (negb (bool_decide (default [] (last w1) = []))); [done|].
    cbn [andb].
    destruct (bool_decide (length w2 = length w1)) eqn:Hl; [|done].
    apply bool_decide_eq_true in Hl. by rewrite Hl.
  - cbn [andb].
    destruct (bool_decide (length w2 = length w1)) eqn:Hl; [|done].
    apply bool_decide_eq_true in Hl. by rewrite Hl.
Qed.

Lemma date_sym y1 y2 :
  calculate_date_similarity cfg y1 y2 = calculate_date_similarity cfg y2 y1.
Proof.
  unfold calculate_date_similarity.
  destruct y1 as [y1|], y2 as [y2|]; try done.
  rewrite (Z.eqb_sym y1 y2).
  by replace (Z.abs (y2 - y1)) with (Z.abs (y1 - y2)) by lia.
Qed.

Lemma place_sym a b :
  calculate_place_similarity a b = calculate_place_similarity b a.
Proof.
  unfold calculate_place_similarity. rewrite (orb_comm (isna a)).
  destruct (isna b || isna a); [done|]. cbv zeta.
  destruct (Hsym (normalize_text a) (normalize_text b)) as [-> _].
  set (w1 := list_to_set (split (normalize_text a)) : gset str).
  set (w2 := list_to_set (split (normalize_text b)) : gset str).
  rewrite (andb_comm (negb (bool_decide (w1 = ∅)))).
  assert (Hi : w1 ∩ w2 = w2 ∩ w1) by apply intersection_comm_L.
  assert (Hu : w1 ∪ w2 = w2 ∪ w1) by apply union_comm_L.
  by rewrite Hi, Hu.
Qed.

Lemma overall_sym r1 r2 :
  calculate_overall_similarity cfg r1 r2
  = calculate_overall_similarity cfg r2 r1.
Proof.
  unfold calculate_overall_similarity.
  by rewrite (title_sym (title r1)), (author_sym (author r1)),
    (date_sym (publication_year r1)), (place_sym (publication_place r1)).
Qed.

End Scores.

(** C5: with a symmetric string scorer, the score of [dedupe.py] and
    the title, author, date, place and overall scores of
    [RecordDeduplicator] do not depend on the order of the two
    records. *)
Theorem similarity_is_symmetric
    (U : Unicode) (D : Unidecode) (F : Rapidfuzz) (cfg : config) :
  fuzz_symmetric F ->
  (forall r1 r2, Dedupe.similarity_score (Some F) r1 r2
                 = Dedupe.similarity_score (Some F) r2 r1)
  /\ (forall r1 r2, Dedupe.similarity_score None r1 r2
                    = Dedupe.similarity_score None r2 r1)
  /\ (forall a b, calculate_title_similarity a b
                  = calculate_title_similarity b a)
  /\ (forall a b, calculate_author_similarity a b
                  = calculate_author_similarity b a)
  /\ (forall y1 y2, calculate_date_similarity cfg y1 y2
                    = calculate_date_similarity cfg y2 y1)
  /\ (forall a b, calculate_place_similarity a b
                  = calculate_place_similarity b a)
  /\ (forall r1 r2, calculate_overall_similarity cfg r1 r2
                    = calculate_overall_similarity cfg r2 r1).
Proof.
  intros Hsym. repeat split.
  - intros r1 r2. apply similarity_score_sym. by intros F' [= <-].
  - intros r1 r2. by apply similarity_score_sym.
  - by apply title_sym.
  - by apply author_sym.
  - apply date_sym.
  - by apply place_sym.
  - intros r1 r2. by apply overall_sym.
Qed.

Lemma similarity_is_symmetric_witness :
  Dedupe.similarity_score (Some overlap_fuzz) DedupeData.bare
    DedupeData.complete
  = Dedupe.similarity_score (Some overlap_fuzz) DedupeData.complete
      DedupeData.bare
  /\ calculate_overall_similarity (U := ascii_tables) (D := ascii_unidecode)
       (F := overlap_fuzz) default_config DeduplicatorData.ustc_copy
       DeduplicatorData.estc_copy
     = calculate_overall_similarity (U := ascii_tables)
         (D := ascii_unidecode) (F := overlap_fuzz) default_config
         DeduplicatorData.estc_copy DeduplicatorData.ustc_copy.
Proof.
  pose proof (similarity_is_symmetric ascii_tables ascii_unidecode
                overlap_fuzz default_config overlap_fuzz_symmetric)
    as (H1 & _ & _ & _ & _ & _ & H7).
  split; [apply H1|apply H7].
Defined.

End Symmetry.
(** ** Missing fields *)

Module MissingFields.
Import Deduplicator DeduplicatorSpec DeduplicatorData.


(** [Dedupe.similarity_score] is [DedupeFloat.similarity_score] read
    over the rationals. *)
Lemma similarity_score_exact fuzz r1 r2 :
  Dedupe.similarity_score fuzz r1 r2
  = DedupeFloat.similarity_score (A := DedupeFloat.exact)
      (DedupeFloat.rational fuzz) r1 r2.
Proof.
  assert (Hf : forall s t,
             Dedupe.field_sim fuzz s t
             = DedupeFloat.field_sim (A := DedupeFloat.exact)
                 (DedupeFloat.rational fuzz) s t).
  { intros s t. by destruct fuzz. }
  assert (Hy : forall y1 y2,
             Dedupe.year_sim y1 y2
             = DedupeFloat.year_sim (A := DedupeFloat.exact) y1 y2).
  { intros y1 y2. unfold Dedupe.year_sim, DedupeFloat.year_sim.
    cbn [DedupeFloat.of_int DedupeFloat.exact].
    by destruct (_ <=? _)%Z. }
  unfold Dedupe.similarity_score, DedupeFloat.similarity_score,
    Dedupe.accumulate, DedupeFloat.accumulate,
    Dedupe.add_year, DedupeFloat.add_year,
    Dedupe.add_creator, DedupeFloat.add_creator,
    Dedupe.add_title, DedupeFloat.add_title.
  rewrite !Hf, !Hy.
  destruct (Dedupe.present (Dedupe.title_normalized r1)
            && Dedupe.present (Dedupe.title_normalized r2));
    destruct (Dedupe.present (Dedupe.creator_normalized r1)
              && Dedupe.present (Dedupe.creator_normalized r2));
    destruct (Dedupe.year_present (Dedupe.year r1)
              && Dedupe.year_present (Dedupe.year r2));
    cbn [DedupeFloat.positive DedupeFloat.exact];
    by destruct (Qlt_le_dec _ _).
Qed.




(** In doubles the weights 0.6, 0.3 and 0.1 add up to
    0.9999999999999999, so two records that agree in every signal
    score 10000.000000000002 and not 10000: the score equals the
    weighted average of the signals only up to rounding. *)
Example rounding_shows_in_the_score :
  DedupeFloat.similarity_score (A := DedupeFloat.binary64)
    DedupeFloatSpec.always_100 DedupeData.complete DedupeData.complete
  = SpecFloat.S754_finite false 5497558138880001 (-39)
  /\ DedupeFloat.double_of_int 10000
     = SpecFloat.S754_finite false 5497558138880000 (-39).
Proof. by vm_compute. Qed.

(** Two records whose authors are empty strings rather than nulls:
    both word lists are empty, and the bonus for matching initials
    divides by their length. *)
Example empty_authors_raise :
  calculate_author_similarity (U := ascii_tables) (D := ascii_unidecode)
    (F := overlap_fuzz) (Text []) (Text []) = None.
Proof. reflexivity. Qed.

End MissingFields.
(** ** The normalizers *)

Module Normalizers.

Lemma ascii_lower_ascii s : is_ascii s -> is_ascii (map ascii_lower s).
Proof.
  unfold is_ascii. intros Hs. apply Forall_fmap.
  eapply Forall_impl; [exact Hs|]. intros c Hc. simpl.
  unfold ascii_lower. destruct ((65 <=? c) && (c <=? 90))%N eqn:E; [|done].
  apply andb_true_iff in E as [_ E]. apply N.leb_le in E. lia.
Qed.

Lemma sub_non_word_space_ascii (U : Unicode) s :
  ascii_laws U -> is_ascii s ->
  sub_non_word_space (U := U) s = sub_non_word_space (U := ascii_tables) s.
Proof.
  intros HU Hs. unfold sub_non_word_space.
  induction Hs as [|c s Hc Hs IH]; [done|]. simpl. rewrite IH. f_equal.
  unfold is_word. by rewrite (isalnum_ascii U HU c Hc).
Qed.

Lemma replace_fuel_ascii fuel old new s :
  is_ascii new -> is_ascii s -> is_ascii (replace_fuel fuel old new s).
Proof.
  intros Hnew. revert s.
  induction fuel as [|fuel IH]; intros s Hs; simpl; [by destruct s|].
  destruct s as [|c s]; [done|].
  destruct (starts_with old (c :: s)).
  - apply Forall_app. split; [done|]. apply IH.
    by apply Forall_drop.
  - apply Forall_cons in Hs as [Hc Hs]. constructor; [done|by apply IH].
Qed.

Lemma replace_ascii old new s :
  is_ascii new -> is_ascii s -> is_ascii (replace old new s).
Proof. apply replace_fuel_ascii. Qed.

(** On ASCII text the three normalizers do what they do with the ASCII
    tables alone. *)
Lemma normalize_title_ascii (U : Unicode) s :
  ascii_laws U -> is_ascii s ->
  FuzzyMatch.normalize_title (U := U) s
  = FuzzyMatch.normalize_title (U := ascii_tables) s.
Proof.
  intros HU Hs. unfold FuzzyMatch.normalize_title.
  destruct s as [|c s]; [done|].
  rewrite (lower_ascii U HU) by done.
  by rewrite sub_non_word_space_ascii by (by try apply ascii_lower_ascii).
Qed.

Lemma agent_normalize_text_ascii (U : Unicode) s :
  ascii_laws U -> is_ascii s ->
  AgentMatch.normalize_text (U := U) s
  = AgentMatch.normalize_text (U := ascii_tables) s.
Proof.
  intros HU Hs. unfold AgentMatch.normalize_text.
  destruct s as [|c s]; [done|].
  rewrite (lower_ascii U HU) by done.
  rewrite (nfkd_ascii U HU) by (by apply ascii_lower_ascii).
  rewrite sub_non_word_space_ascii; [done|done|].
  do 2 (apply replace_ascii; [solve_ascii|]).
  by apply ascii_lower_ascii.
Qed.

Lemma deduplicator_normalize_text_ascii
    (U : Unicode) (D : Deduplicator.Unidecode) s :
  ascii_laws U -> unidecode_ascii_law D -> is_ascii s ->
  Deduplicator.normalize_text (U := U) (D := D) (Deduplicator.Text s)
  = Deduplicator.normalize_text (U := ascii_tables) (D := ascii_unidecode)
      (Deduplicator.Text s).
Proof.
  intros HU HD Hs. unfold Deduplicator.normalize_text.
  rewrite (lower_ascii U HU) by done.
  rewrite HD by (by apply ascii_lower_ascii).
  by rewrite sub_non_word_space_ascii by (by try apply ascii_lower_ascii).
Qed.

(** C10: the normalizers are meant to remove punctuation, and all
    three return the title [a_b] as it is, underscore included. *)
Theorem underscore_survives_normalization
    (U : Unicode) (D : Deduplicator.Unidecode) :
  ascii_laws U -> unidecode_ascii_law D ->
  FuzzyMatch.normalize_title (lit "a_b") = lit "a_b"
  /\ AgentMatch.normalize_text (lit "a_b") = lit "a_b"
  /\ Deduplicator.normalize_text (Deduplicator.Text (lit "a_b")) = lit "a_b"
  /\ Exists (fun c => is_punctuation c = true) (lit "a_b").
Proof.
  intros HU HD. split; [|split; [|split]].
  - by rewrite normalize_title_ascii by (done || solve_ascii).
  - by rewrite agent_normalize_text_ascii by (done || solve_ascii).
  - by rewrite deduplicator_normalize_text_ascii by (done || solve_ascii).
  - right. by left.
Qed.

Lemma underscore_survives_witness :
  FuzzyMatch.normalize_title (U := ascii_tables) (lit "a_b") = lit "a_b"
  /\ AgentMatch.normalize_text (U := ascii_tables) (lit "a_b") = lit "a_b"
  /\ Deduplicator.normalize_text (U := ascii_tables) (D := ascii_unidecode)
       (Deduplicator.Text (lit "a_b")) = lit "a_b"
  /\ Exists (fun c => is_punctuation c = true) (lit "a_b").
Proof.
  apply (underscore_survives_normalization ascii_tables ascii_unidecode).
  - apply ascii_tables_laws.
  - intros s _. reflexivity.
Defined.

(** [normalize_text] of the matcher lowercases before it decomposes:
    the trade mark sign comes out as the capitals TM, and a second
    pass turns them into tm. *)
Example trade_mark_is_not_a_fixed_point :
  AgentMatch.normalize_text (U := trade_mark_tables) [trade_mark] = lit "TM"
  /\ AgentMatch.normalize_text (U := trade_mark_tables) (lit "TM") = lit "tm".
Proof. split; reflexivity. Qed.

End Normalizers.

(** ** The normalizers on ASCII text *)

Module NormalForm.

Lemma clean_not_space c : clean c = true -> isspace c = false.
Proof.
  unfold clean, isspace. intros H.
  repeat (apply orb_true_iff in H as [H|H]);
    rewrite ?andb_true_iff, ?N.leb_le, ?N.eqb_eq in H;
    repeat match goal with
           | |- (_ || _)%bool = false => apply orb_false_iff; split
           | |- (_ && _)%bool = false => apply andb_false_iff
           end;
    rewrite ?N.leb_gt, ?N.eqb_neq; lia.
Qed.

Lemma clean_lower c : clean c = true -> ascii_lower c = c.
Proof.
  unfold clean, ascii_lower. intros H.
  destruct ((65 <=? c) && (c <=? 90))%N eqn:E; [|done].
  apply andb_true_iff in E as [E1 E2]. apply N.leb_le in E1, E2.
  repeat (apply orb_true_iff in H as [H|H]);
    rewrite ?andb_true_iff, ?N.leb_le, ?N.eqb_eq in H; lia.
Qed.

Lemma clean_word c : clean c = true -> is_word (U := ascii_tables) c = true.
Proof.
  unfold clean, is_word. simpl. unfold ascii_alnum. intros H.
  repeat (apply orb_true_iff in H as [H|H]); rewrite H;
    by rewrite ?orb_true_r.
Qed.

Lemma clean_ascii c : clean c = true -> (c < 128)%N.
Proof.
  unfold clean. intros H.
  repeat (apply orb_true_iff in H as [H|H]);
    rewrite ?andb_true_iff, ?N.leb_le, ?N.eqb_eq in H; lia.
Qed.

Lemma word_lower_clean c :
  is_word (U := ascii_tables) (ascii_lower c) = true ->
  clean (ascii_lower c) = true.
Proof.
  unfold is_word, clean, ascii_lower. simpl. unfold ascii_alnum.
  destruct ((65 <=? c) && (c <=? 90))%N eqn:E.
  - apply andb_true_iff in E as [E1 E2]. apply N.leb_le in E1, E2.
    intros _. apply orb_true_iff. left. apply orb_true_iff. right.
    apply andb_true_iff. rewrite !N.leb_le. lia.
  - intros H.
    repeat (apply orb_true_iff in H as [H|H]).
    + by rewrite H.
    + by rewrite H in E.
    + rewrite H. by rewrite orb_true_r.
    + rewrite H. by rewrite orb_true_r.
Qed.

(** *** Splitting and joining *)

Lemma split_cons c s :
  split (c :: s)
  = if isspace c then split s
    else match s with
         | [] => [[c]]
         | c' :: _ =>
             if isspace c' then [c] :: split s
             else match split s with
                  | w :: ws => (c :: w) :: ws
                  | [] => [[c]]
                  end
         end.
Proof. reflexivity. Qed.

Lemma split_word_space w rest :
  spaceless w -> split (w ++ 32%N :: rest) = w :: split rest.
Proof.
  intros [Hne Hw]. induction Hw as [|c w Hc Hw IH]; [done|].
  destruct w as [|c2 w].
  - simpl app. rewrite split_cons, Hc. reflexivity.
  - change ((c :: c2 :: w) ++ 32%N :: rest)
      with (c :: (c2 :: w) ++ 32%N :: rest).
    rewrite split_cons, Hc.
    inversion Hw as [|? ? Hc2 _]; subst.
    rewrite IH by done. cbn [app]. by rewrite Hc2.
Qed.

Lemma split_word w : spaceless w -> split w = [w].
Proof.
  intros [Hne Hw]. induction Hw as [|c w Hc Hw IH]; [done|].
  rewrite split_cons, Hc. destruct w as [|c2 w]; [done|].
  inversion Hw as [|? ? Hc2 _]; subst. rewrite Hc2. by rewrite IH.
Qed.

Lemma split_join ws :
  Forall spaceless ws -> split (join (lit " ") ws) = ws.
Proof.
  induction 1 as [|w ws Hw Hws IH]; [done|].
  destruct ws as [|w' ws].
  - simpl. by apply split_word.
  - change (join (lit " ") (w :: w' :: ws))
      with (w ++ 32%N :: join (lit " ") (w' :: ws)).
    rewrite split_word_space by done. by rewrite IH.
Qed.

(** The words of [split] are non-empty runs of the non-space
    characters of the string. *)
Lemma split_words (P : char -> Prop) s :
  Forall (fun c => isspace c = false -> P c) s ->
  Forall (fun w => w <> [] /\ Forall (fun c => P c /\ isspace c = false) w)
         (split s).
Proof.
  induction 1 as [|c s Hc Hs IH]; [constructor|].
  rewrite split_cons. destruct (isspace c) eqn:Ec; [done|].
  destruct s as [|c' s'].
  - repeat constructor; done || auto.
  - destruct (isspace c') eqn:Ec'.
    + constructor; [|done]. split; [done|]. repeat constructor; auto.
    + destruct (split (c' :: s')) as [|w ws] eqn:Esplit.
      * repeat constructor; done || auto.
      * apply Forall_cons in IH as [[Hne Hw] Hws].
        constructor; [|done]. split; [done|]. constructor; auto.
Qed.

(** *** The normal form: clean words joined by single spaces *)

Lemma wordy_spaceless w : wordy w -> spaceless w.
Proof.
  intros [Hne Hw]. split; [done|].
  eapply Forall_impl; [exact Hw|]. apply clean_not_space.
Qed.

Lemma join_chars ws :
  Forall wordy ws ->
  Forall (fun c => clean c = true \/ c = 32%N) (join (lit " ") ws).
Proof.
  induction 1 as [|w ws [_ Hw] Hws IH]; [constructor|].
  assert (Hw' : Forall (fun c => clean c = true \/ c = 32%N) w).
  { eapply Forall_impl; [exact Hw|]. auto. }
  destruct ws as [|w' ws]; [done|].
  change (join (lit " ") (w :: w' :: ws))
    with (w ++ 32%N :: join (lit " ") (w' :: ws)).
  apply Forall_app. split; [done|]. constructor; [by right|done].
Qed.

Lemma lower_fixed t :
  Forall (fun c => clean c = true \/ c = 32%N) t -> map ascii_lower t = t.
Proof.
  induction 1 as [|c t [Hc| ->] _ IH]; [done| |]; simpl; rewrite IH.
  - by rewrite clean_lower.
  - done.
Qed.

Lemma sub_fixed t :
  Forall (fun c => clean c = true \/ c = 32%N) t ->
  sub_non_word_space (U := ascii_tables) t = t.
Proof.
  unfold sub_non_word_space.
  induction 1 as [|c t [Hc| ->] _ IH]; [done| |]; simpl; rewrite IH.
  - by rewrite (clean_word c Hc).
  - done.
Qed.

Lemma replace_fuel_absent fuel x new s :
  Forall (fun c => c <> x) s -> replace_fuel fuel [x] new s = s.
Proof.
  revert s. induction fuel as [|fuel IH]; intros s Hs; [by destruct s|].
  destruct Hs as [|c s Hc Hs]; [done|]. simpl.
  rewrite (proj2 (N.eqb_neq x c)) by done. simpl. by rewrite IH.
Qed.

Lemma replace_absent x new s :
  Forall (fun c => c <> x) s -> replace [x] new s = s.
Proof. apply replace_fuel_absent. Qed.

Lemma ligatures_absent t :
  is_ascii t ->
  replace FuzzyMatch.oe (lit "oe") (replace FuzzyMatch.ae (lit "ae") t) = t.
Proof.
  intros Hlt. unfold FuzzyMatch.ae, FuzzyMatch.oe.
  rewrite (replace_absent 230%N).
  - apply replace_absent. eapply Forall_impl; [exact Hlt|]. simpl. lia.
  - eapply Forall_impl; [exact Hlt|]. simpl. lia.
Qed.

(** After [re.sub] every character that is not white space is clean,
    provided every word character was. *)
Lemma sub_chars s :
  Forall (fun c => is_word (U := ascii_tables) c = true -> clean c = true) s ->
  Forall (fun c => isspace c = false -> clean c = true)
         (sub_non_word_space (U := ascii_tables) s).
Proof.
  unfold sub_non_word_space. intros Hs. apply Forall_fmap.
  eapply Forall_impl; [exact Hs|]. intros c Hc. simpl.
  destruct (is_word c) eqn:Ew; simpl; [auto|].
  destruct (isspace c) eqn:Es; simpl; [congruence|]. by intros [=].
Qed.

Lemma lower_chars s :
  Forall (fun c => is_word (U := ascii_tables) c = true -> clean c = true)
         (map ascii_lower s).
Proof.
  apply Forall_fmap, Forall_forall. intros c _. simpl. apply word_lower_clean.
Qed.

Lemma split_wordy s :
  Forall (fun c => isspace c = false -> clean c = true) s ->
  Forall wordy (split s).
Proof.
  intros Hs.
  eapply Forall_impl; [by apply (split_words (fun c => clean c = true))|].
  intros w [Hne Hw]. split; [done|].
  eapply Forall_impl; [exact Hw|]. by intros c [Hc _].
Qed.

(** *** [strip] after [collapse_spaces] is [join] after [split] *)

Lemma lstrip_app a b :
  lstrip (a ++ b) = match lstrip a with [] => lstrip b | r => r ++ b end.
Proof.
  induction a as [|c a IH]; simpl; [by destruct (lstrip b)|].
  by destruct (isspace c).
Qed.

Lemma rstrip_cons c y :
  reverse (lstrip (reverse (c :: y)))
  = match reverse (lstrip (reverse y)) with
    | [] => if isspace c then [] else [c]
    | r => c :: r
    end.
Proof.
  rewrite reverse_cons, lstrip_app.
  destruct (lstrip (reverse y)) as [|d r].
  - simpl. by destruct (isspace c).
  - rewrite reverse_app. change (reverse [c]) with [c]. cbn [app].
    destruct (reverse (d :: r)) eqn:E; [|done].
    apply (f_equal length) in E. by rewrite length_reverse in E.
Qed.

Lemma split_nonempty c s : isspace c = false -> split (c :: s) <> [].
Proof.
  intros Hc. rewrite split_cons, Hc. destruct s as [|c' s]; [done|].
  destruct (isspace c'); [done|]. by destruct (split (c' :: s)).
Qed.

Lemma rstrip_collapse s :
  reverse (lstrip (reverse (collapse_spaces s)))
  = lead s ++ join (lit " ") (split s).
Proof.
  induction s as [|c s IH]; [done|].
  unfold lead. rewrite split_cons. cbn [collapse_spaces].
  destruct (isspace c) eqn:Ec.
  - destruct s as [|c' s]; [done|].
    destruct (isspace c') eqn:Ec'.
    + rewrite IH. unfold lead. by rewrite Ec'.
    + rewrite rstrip_cons, IH. unfold lead. rewrite Ec'. cbn [app].
      pose proof (split_nonempty c' s Ec') as Hne.
      destruct (split (c' :: s)) as [|w ws] eqn:E; [done|].
      assert (Hw : w <> []).
      { pose proof (split_words (fun _ => True) (c' :: s)) as H.
        rewrite E in H. apply Forall_cons in H as [[H _] _]; [done|].
        by apply Forall_forall. }
      destruct w as [|d w]; [done|]. by destruct ws.
  - rewrite rstrip_cons, IH, Ec. cbn [app].
    destruct s as [|c' s]; [done|]. unfold lead.
    destruct (isspace c') eqn:Ec'.
    + destruct (split (c' :: s)) as [|w ws] eqn:E; [done|]. done.
    + pose proof (split_nonempty c' s Ec') as Hne.
      destruct (split (c' :: s)) as [|w ws] eqn:E; [done|].
      assert (Hw : w <> []).
      { pose proof (split_words (fun _ => True) (c' :: s)) as H.
        rewrite E in H. apply Forall_cons in H as [[H _] _]; [done|].
        by apply Forall_forall. }
      destruct w as [|d w]; [done|]. by destruct ws.
Qed.

Lemma lstrip_collapse_space c s :
  isspace c = true ->
  lstrip (collapse_spaces (c :: s)) = lstrip (collapse_spaces s).
Proof.
  intros Hc. cbn [collapse_spaces]. rewrite Hc.
  destruct s as [|c' s]; [done|]. by destruct (isspace c').
Qed.

Lemma strip_collapse s :
  strip (collapse_spaces s) = join (lit " ") (split s).
Proof.
  unfold strip. induction s as [|c s IH]; [done|].
  destruct (isspace c) eqn:Ec.
  - by rewrite lstrip_collapse_space, split_cons, Ec.
  - assert (Hl : lstrip (collapse_spaces (c :: s))
                 = collapse_spaces (c :: s)).
    { cbn [collapse_spaces]. rewrite Ec. simpl. by rewrite Ec. }
    rewrite Hl, rstrip_collapse. unfold lead. by rewrite Ec.
Qed.

(** *** The three normalizers on ASCII text *)

Lemma title_ascii_form (U : Unicode) s :
  ascii_laws U -> is_ascii s ->
  FuzzyMatch.normalize_title s = ascii_normal_form s.
Proof.
  intros HU Hs. rewrite Normalizers.normalize_title_ascii by done.
  unfold FuzzyMatch.normalize_title, ascii_normal_form.
  destruct s as [|c s]; [done|]. cbn [lower ascii_tables].
  apply ligatures_absent. eapply Forall_impl.
  - apply join_chars, split_wordy, sub_chars, lower_chars.
  - intros d [Hd| ->]; [by apply clean_ascii|done].
Qed.

Lemma text_ascii_form (U : Unicode) s :
  ascii_laws U -> is_ascii s ->
  AgentMatch.normalize_text s = ascii_normal_form s.
Proof.
  intros HU Hs. rewrite Normalizers.agent_normalize_text_ascii by done.
  unfold AgentMatch.normalize_text, ascii_normal_form.
  destruct s as [|c s]; [done|]. cbn [lower nfkd ascii_tables].
  by rewrite ligatures_absent by (by apply Normalizers.ascii_lower_ascii).
Qed.

Lemma deduplicator_ascii_form
    (U : Unicode) (D : Deduplicator.Unidecode) s :
  ascii_laws U -> unidecode_ascii_law D -> is_ascii s ->
  Deduplicator.normalize_text (Deduplicator.Text s) = ascii_normal_form s.
Proof.
  intros HU HD Hs.
  rewrite Normalizers.deduplicator_normalize_text_ascii by done.
  unfold Deduplicator.normalize_text, ascii_normal_form.
  cbn [lower ascii_tables Deduplicator.unidecode ascii_unidecode].
  apply strip_collapse.
Qed.

Lemma ascii_normal_form_words s :
  exists ws, Forall wordy ws /\ ascii_normal_form s = join (lit " ") ws.
Proof.
  eexists. split; [|reflexivity].
  apply split_wordy, sub_chars, lower_chars.
Qed.

Lemma ascii_normal_form_fixed ws :
  Forall wordy ws ->
  ascii_normal_form (join (lit " ") ws) = join (lit " ") ws.
Proof.
  intros Hws. unfold ascii_normal_form.
  pose proof (join_chars ws Hws) as Hc.
  rewrite (lower_fixed _ Hc), (sub_fixed _ Hc).
  by rewrite split_join
    by (eapply Forall_impl; [exact Hws|apply wordy_spaceless]).
Qed.

Lemma ascii_normal_form_idempotent s :
  ascii_normal_form (ascii_normal_form s) = ascii_normal_form s.
Proof.
  destruct (ascii_normal_form_words s) as (ws & Hws & ->).
  by apply ascii_normal_form_fixed.
Qed.

Lemma ascii_normal_form_ascii s : is_ascii (ascii_normal_form s).
Proof.
  destruct (ascii_normal_form_words s) as (ws & Hws & ->).
  eapply Forall_impl; [by apply join_chars|].
  intros d [Hd| ->]; [by apply clean_ascii|done].
Qed.

(** On ASCII text the three normalizers agree, return clean words
    joined by single spaces, and return their own output unchanged. *)
Theorem normalizers_on_ascii
    (U : Unicode) (D : Deduplicator.Unidecode) s :
  ascii_laws U -> unidecode_ascii_law D -> is_ascii s ->
  let t := ascii_normal_form s in
  FuzzyMatch.normalize_title s = t
  /\ AgentMatch.normalize_text s = t
  /\ Deduplicator.normalize_text (Deduplicator.Text s) = t
  /\ (exists ws, Forall wordy ws /\ t = join (lit " ") ws)
  /\ FuzzyMatch.normalize_title t = t
  /\ AgentMatch.normalize_text t = t
  /\ Deduplicator.normalize_text (Deduplicator.Text t) = t.
Proof.
  intros HU HD Hs t.
  pose proof (ascii_normal_form_ascii s) as Ht.
  pose proof (ascii_normal_form_idempotent s) as Hi.
  repeat split.
  - by apply title_ascii_form.
  - by apply text_ascii_form.
  - by apply deduplicator_ascii_form.
  - apply ascii_normal_form_words.
  - by rewrite title_ascii_form.
  - by rewrite text_ascii_form.
  - by rewrite deduplicator_ascii_form.
Qed.

Example de_anima_libri_tres_normal_form :
  FuzzyMatch.normalize_title (U := ascii_tables)
    (lit "  De Anima,   libri_tres. ") = lit "de anima libri_tres".
Proof. reflexivity. Qed.

End NormalForm.

(** ** The clusters of [find_clusters] are the components of similarity *)

Module DedupeComponents.
Import Dedupe DedupeSpec DedupeClusters ClusterSpec.

Lemma insert_linked fuzz records p a b :
  links_linked fuzz records p -> linked fuzz records a b ->
  links_linked fuzz records (<[a := b]> p).
Proof.
  intros Hp Hab x y Hx. destruct (decide (x = a)) as [->|Hne].
  - destruct (decide (a < length p)%nat) as [Hlt|Hge].
    + rewrite list_lookup_insert_eq in Hx by done. by injection Hx as <-.
    + rewrite list_insert_ge in Hx by lia. by apply Hp.
  - rewrite list_lookup_insert_ne in Hx by done. by apply Hp.
Qed.

Lemma find_linked fuzz records fuel p x p' r :
  links_linked fuzz records p -> find fuel p x = Some (p', r) ->
  links_linked fuzz records p' /\ linked fuzz records x r.
Proof.
  revert p x p' r.
  induction fuel as [|fuel IH]; intros p x p' r Hp; simpl; [done|].
  destruct (p !! x) as [q|] eqn:Hq; [|done].
  destruct (decide (q = x)) as [->|Hne].
  - intros [= <- <-]. split; [done|apply linked_refl].
  - destruct (find fuel p q) as [[p1 r1]|] eqn:Hf; [|done].
    intros [= <- <-]. destruct (IH _ _ _ _ Hp Hf) as [Hp1 Hl].
    assert (Hxr : linked fuzz records x r1).
    { eapply linked_trans; [by apply Hp|done]. }
    split; [by apply insert_linked|done].
Qed.

Lemma union_linked fuzz records fuel p x y p' :
  links_linked fuzz records p -> linked fuzz records x y ->
  union fuel p x y = Some p' -> links_linked fuzz records p'.
Proof.
  intros Hp Hxy. unfold union.
  destruct (find fuel p x) as [[p1 px]|] eqn:Hfx; [|done].
  destruct (find_linked _ _ _ _ _ _ _ Hp Hfx) as [Hp1 Hx].
  destruct (find fuel p1 y) as [[p2 py]|] eqn:Hfy; [|done].
  destruct (find_linked _ _ _ _ _ _ _ Hp1 Hfy) as [Hp2 Hy].
  intros [= <-]. destruct (decide (px = py)); [done|].
  apply insert_linked; [done|].
  eapply linked_trans; [apply linked_sym, Hx|].
  eapply linked_trans; [exact Hxy|exact Hy].
Qed.

Lemma compare_all_linked fuzz records fuel todo p p' :
  Forall (fun ij => (ij.1 < ij.2)%nat) todo ->
  links_linked fuzz records p ->
  compare_all fuzz records fuel todo p = Some p' ->
  links_linked fuzz records p'.
Proof.
  intros Htodo. revert p.
  induction Htodo as [|[i j] todo Hij _ IH]; intros p Hp; simpl.
  - by intros [= <-].
  - unfold compare. cbn [fst snd] in *.
    destruct (records !! i) as [ri|] eqn:Hri; [|done].
    destruct (records !! j) as [rj|] eqn:Hrj; [|done].
    destruct (Qge_bool _ _) eqn:Hs; [|by apply IH].
    destruct (union fuel p i j) as [p1|] eqn:Hu; [|done].
    apply IH. eapply union_linked; [done| |done].
    by eapply linked_pair.
Qed.

Lemma add_to_cluster_linked fuzz records root i r cm :
  filed_linked fuzz records cm ->
  records !! i = Some r -> linked fuzz records i root ->
  filed_linked fuzz records (add_to_cluster root (id r) cm).
Proof.
  intros Hcm Hr Hl.
  induction Hcm as [|[k c] cm Hc Hcm IH]; cbn [add_to_cluster].
  - constructor; [|constructor]. cbn [fst snd]. intros z Hz.
    apply elem_of_singleton in Hz as ->. by exists i, r.
  - destruct (decide (k = root)) as [->|Hne].
    + constructor; [|done]. cbn [fst snd] in *. intros z Hz.
      apply elem_of_union in Hz as [Hz|Hz]; [by apply Hc|].
      apply elem_of_singleton in Hz as ->. by exists i, r.
    + by constructor.
Qed.

Lemma build_clusters_linked fuzz records fuel todo p cm cm' :
  links_linked fuzz records p -> filed_linked fuzz records cm ->
  build_clusters records fuel todo p cm = Some cm' ->
  filed_linked fuzz records cm'.
Proof.
  revert p cm. induction todo as [|i todo IH]; intros p cm Hp Hcm; simpl.
  - by intros [= <-].
  - destruct (find fuel p i) as [[p1 root]|] eqn:Hf; [|done].
    destruct (records !! i) as [r|] eqn:Hr; [|done].
    destruct (find_linked _ _ _ _ _ _ _ Hp Hf) as [Hp1 Hl].
    apply IH; [done|]. by eapply add_to_cluster_linked.
Qed.

Lemma seq_links_linked fuzz records n :
  links_linked fuzz records (seq 0 n).
Proof.
  intros a y Ha. apply lookup_seq in Ha as [-> _]. apply linked_refl.
Qed.

Lemma pairs_ordered n : Forall (fun ij => (ij.1 < ij.2)%nat) (pairs n).
Proof.
  apply Forall_forall. intros [i j] Hin. apply pairs_spec in Hin.
  cbn [fst snd]. lia.
Qed.

(** Two ids of one cluster belong to records joined by a chain of
    similar pairs. *)
Lemma find_clusters_linked fuzz records clusters C x y :
  find_clusters fuzz records = Some clusters ->
  C ∈ clusters -> x ∈ C -> y ∈ C ->
  exists i j ri rj,
    records !! i = Some ri /\ records !! j = Some rj
    /\ id ri = x /\ id rj = y /\ linked fuzz records i j.
Proof.
  unfold find_clusters.
  destruct (length records) as [|m] eqn:Hn.
  { intros [= <-] HC. by apply elem_of_nil in HC. }
  rewrite <- Hn. set (n := length records).
  destruct (compare_all _ _ _ _ _) as [p|] eqn:Hc; [|done].
  destruct (build_clusters _ _ _ _ _) as [cm|] eqn:Hb; [|done].
  intros [= <-] HC Hx Hy.
  apply compare_all_linked in Hc;
    [|apply pairs_ordered|apply seq_links_linked].
  apply build_clusters_linked with (fuzz := fuzz) in Hb; [|done|constructor].
  apply list_elem_of_fmap in HC as ([k c] & -> & Hkc).
  unfold filed_linked in Hb. rewrite Forall_forall in Hb.
  specialize (Hb _ Hkc). cbn [fst snd] in *.
  destruct (Hb x Hx) as (i & ri & Hri & Hix & Hli).
  destruct (Hb y Hy) as (j & rj & Hrj & Hjy & Hlj).
  exists i, j, ri, rj. repeat split; try done.
  eapply linked_trans; [done|]. by apply linked_sym.
Qed.

(** *** The clusters partition the ids of the block *)

Lemma pairwise_disjoint_cons (A : gset Z) rest :
  pairwise_disjoint (A :: rest) <-> A ## ⋃ rest /\ pairwise_disjoint rest.
Proof.
  cbn [pairwise_disjoint]. split; intros [HA Hrest]; (split; [|done]).
  - intros z Hz Hz'. apply elem_of_union_list in Hz' as (B & HB & HzB).
    by apply (HA B HB z).
  - intros B HB z Hz HzB. apply (HA z Hz).
    apply elem_of_union_list. by exists B.
Qed.

Lemma add_to_cluster_ids root rid cm z :
  z ∈ ⋃ (add_to_cluster root rid cm).*2 <-> z ∈ ⋃ cm.*2 \/ z = rid.
Proof.
  induction cm as [|[k c] cm IH]; cbn [add_to_cluster].
  - cbn. rewrite elem_of_union, elem_of_singleton. tauto.
  - destruct (decide (k = root)) as [->|Hne]; cbn [fmap list_fmap snd union_list].
    + change (z ∈ (c ∪ {[rid]}) ∪ ⋃ cm.*2 <-> z ∈ c ∪ ⋃ cm.*2 \/ z = rid).
      rewrite !elem_of_union, elem_of_singleton. tauto.
    + change (z ∈ c ∪ ⋃ (add_to_cluster root rid cm).*2
              <-> z ∈ c ∪ ⋃ cm.*2 \/ z = rid).
      rewrite !elem_of_union, IH. tauto.
Qed.

Lemma add_to_cluster_nonempty root rid cm :
  Forall (fun kc : nat * gset Z => kc.2 <> ∅) cm ->
  Forall (fun kc : nat * gset Z => kc.2 <> ∅) (add_to_cluster root rid cm).
Proof.
  assert (Hne : forall c : gset Z, c ∪ {[rid]} <> ∅).
  { intros c Hc. apply (not_elem_of_empty (C := gset Z) rid).
    rewrite <- Hc. apply elem_of_union. right. by apply elem_of_singleton. }
  induction 1 as [|[k c] cm Hc Hcm IH]; cbn [add_to_cluster].
  - constructor; [|constructor]. cbn [snd]. intros Hs.
    apply (Hne ∅). by rewrite (left_id_L ∅ (∪)).
  - destruct (decide (k = root)); constructor; try done. apply Hne.
Qed.

Lemma add_to_cluster_disjoint root rid cm :
  rid ∉ ⋃ cm.*2 -> pairwise_disjoint cm.*2 ->
  pairwise_disjoint (add_to_cluster root rid cm).*2.
Proof.
  induction cm as [|[k c] cm IH]; cbn [add_to_cluster]; intros Hrid Hd.
  - cbn. split; [|done]. intros B HB. by apply elem_of_nil in HB.
  - change (((k, c) :: cm).*2) with (c :: cm.*2) in Hd, Hrid.
    apply pairwise_disjoint_cons in Hd as [Hc Hd].
    assert (Hr1 : rid ∉ c).
    { intros Hin. apply Hrid. apply elem_of_union_list. exists c.
      split; [left|done]. }
    assert (Hr2 : rid ∉ ⋃ cm.*2).
    { intros Hin. apply Hrid. apply elem_of_union_list in Hin as (B & HB & Hin).
      apply elem_of_union_list. exists B. split; [by right|done]. }
    destruct (decide (k = root)) as [->|Hne].
    + change (pairwise_disjoint ((c ∪ {[rid]}) :: cm.*2)).
      apply pairwise_disjoint_cons. split; [|done].
      intros z Hz Hz'. apply elem_of_union in Hz as [Hz|Hz].
      * by apply (Hc z).
      * apply elem_of_singleton in Hz as ->. done.
    + change (pairwise_disjoint (c :: (add_to_cluster root rid cm).*2)).
      apply pairwise_disjoint_cons. split; [|by apply IH].
      intros z Hz Hz'. apply add_to_cluster_ids in Hz' as [Hz'| ->].
      * by apply (Hc z).
      * done.
Qed.

Lemma distinct_ids records i j ri rj :
  NoDup (id <$> records) ->
  records !! i = Some ri -> records !! j = Some rj -> id ri = id rj -> i = j.
Proof.
  intros Hnd Hi Hj Heq.
  eapply (NoDup_lookup _ i j (id ri) Hnd); rewrite list_lookup_fmap.
  - by rewrite Hi.
  - rewrite Hj. cbn. by rewrite Heq.
Qed.

Lemma build_clusters_ids records fuel todo p cm cm' :
  build_clusters records fuel todo p cm = Some cm' ->
  Forall (fun kc : nat * gset Z => kc.2 <> ∅) cm ->
  Forall (fun kc : nat * gset Z => kc.2 <> ∅) cm'
  /\ (forall z, z ∈ ⋃ cm'.*2
                <-> z ∈ ⋃ cm.*2
                    \/ exists i r, i ∈ todo /\ records !! i = Some r
                                   /\ id r = z)
  /\ (NoDup (id <$> records) -> NoDup todo ->
      (forall i r, i ∈ todo -> records !! i = Some r -> id r ∉ ⋃ cm.*2) ->
      pairwise_disjoint cm.*2 -> pairwise_disjoint cm'.*2).
Proof.
  revert p cm. induction todo as [|i todo IH]; intros p cm; simpl.
  - intros [= <-] Hne. split; [done|]. split; [|done].
    intros z. split; [by left|]. intros [Hz|(i & r & Hi & _)]; [done|].
    by apply elem_of_nil in Hi.
  - destruct (find fuel p i) as [[p1 root]|] eqn:Hf; [|done].
    destruct (records !! i) as [r|] eqn:Hr; [|done].
    intros Hb Hne.
    destruct (IH _ _ Hb (add_to_cluster_nonempty root (id r) cm Hne))
      as (Hne' & Hids & Hdis).
    split; [done|]. split.
    + intros z. rewrite Hids, add_to_cluster_ids. split.
      * intros [[Hz| ->]|(j & rj & Hj & Hrj & Hz)].
        -- by left.
        -- right. exists i, r. split; [left|done].
        -- right. exists j, rj. split; [by right|done].
      * intros [Hz|(j & rj & Hj & Hrj & Hz)]; [by left; left|].
        apply elem_of_cons in Hj as [->|Hj].
        -- left. right. congruence.
        -- right. by exists j, rj.
    + intros Hnd Htodo Hfresh Hd.
      apply NoDup_cons in Htodo as [Hi Htodo].
      apply Hdis; [done|done| |].
      * intros j rj Hj Hrj Hin. apply add_to_cluster_ids in Hin as [Hin|Hin].
        -- by apply (Hfresh j rj ltac:(by right) Hrj).
        -- assert (j = i) as -> by (by eapply distinct_ids).
           done.
      * apply add_to_cluster_disjoint; [|done].
        apply (Hfresh i r); [left|done].
Qed.

Lemma find_clusters_ids fuzz records clusters :
  find_clusters fuzz records = Some clusters ->
  Forall (fun C => C <> ∅) clusters
  /\ ⋃ clusters = ids records
  /\ (NoDup (id <$> records) -> pairwise_disjoint clusters).
Proof.
  unfold find_clusters.
  destruct (length records) as [|m] eqn:Hn.
  { intros [= <-]. destruct records; [|done].
    split; [constructor|]. split; [|done]. done. }
  rewrite <- Hn. set (n := length records).
  destruct (compare_all _ _ _ _ _) as [p|] eqn:Hc; [|done].
  destruct (build_clusters _ _ _ _ _) as [cm|] eqn:Hb; [|done].
  intros [= <-].
  destruct (build_clusters_ids _ _ _ _ _ _ Hb ltac:(constructor))
    as (Hne & Hids & Hdis).
  split; [by apply Forall_fmap|]. split.
  - apply set_eq. intros z. rewrite Hids. unfold ids.
    rewrite elem_of_list_to_set, list_elem_of_fmap. split.
    + intros [Hz|(i & r & _ & Hr & Hz)].
      { apply elem_of_union_list in Hz as (B & HB & _).
        by apply elem_of_nil in HB. }
      exists r. split; [done|]. by eapply list_elem_of_lookup_2.
    + intros (r & -> & Hr). right.
      apply list_elem_of_lookup_1 in Hr as [i Hi]. exists i, r.
      split; [|done]. apply elem_of_seq.
      apply lookup_lt_Some in Hi. fold n in Hi. lia.
  - intros Hnd. apply Hdis; [done|apply NoDup_seq| |done].
    intros i r _ _ Hin. apply elem_of_union_list in Hin as (B & HB & _).
    by apply elem_of_nil in HB.
Qed.

(** When [find_clusters] returns, no cluster is empty, together the
    clusters hold exactly the ids of the block, and when the ids are
    distinct no id is in two clusters. *)
Theorem find_clusters_partitions_the_ids fuzz records clusters :
  find_clusters fuzz records = Some clusters ->
  Forall (fun C => C <> ∅) clusters
  /\ ⋃ clusters = ids records
  /\ (NoDup (id <$> records) -> pairwise_disjoint clusters).
Proof.
  intros Hfc.
  destruct (find_clusters_ids fuzz records clusters Hfc)
    as (Hne & Hids & Hdis).
  split; [exact Hne|]. split; [exact Hids|]. exact Hdis.
Qed.

(** *** Linked indices end in one cluster *)

Lemma same_trans p a b c : same p a b -> same p b c -> same p a c.
Proof.
  intros (r & ka & kb & Ha & Hb) (r' & kb' & kc & Hb' & Hc).
  destruct (path_fun _ _ _ _ _ _ Hb Hb') as [-> _]. by exists r', ka, kc.
Qed.

Lemma same_sym p a b : same p a b -> same p b a.
Proof. intros (r & ka & kb & Ha & Hb). by exists r, kb, ka. Qed.

Lemma linked_same fuzz records p d i j :
  length p = length records -> rooted p d ->
  (forall i j ri rj,
      (i < j)%nat -> records !! i = Some ri -> records !! j = Some rj ->
      similar fuzz ri rj = true -> same p i j) ->
  linked fuzz records i j ->
  (i < length records)%nat \/ (j < length records)%nat ->
  (i < length records)%nat /\ (j < length records)%nat /\ same p i j.
Proof.
  intros Hlen Hroot Hsim. induction 1 as [i|i j ri rj Hij Hri Hrj Hs| |].
  - intros Hi. assert (Hlt : (i < length records)%nat) by tauto.
    repeat split; try done.
    destruct (Hroot i ltac:(lia)) as (r & k & Hp & _). by exists r, k, k.
  - intros _. split; [by eapply lookup_lt_Some|].
    split; [by eapply lookup_lt_Some|]. by eapply Hsim.
  - intros Hor. destruct IHlinked as (Hi & Hj & Hsame); [tauto|].
    repeat split; try done. by apply same_sym.
  - intros Hor. destruct Hor as [Hi|Hk].
    + destruct IHlinked1 as (_ & Hj & Hs1); [by left|].
      destruct IHlinked2 as (_ & Hk & Hs2); [by left|].
      repeat split; try done. by eapply same_trans.
    + destruct IHlinked2 as (Hj & _ & Hs2); [by right|].
      destruct IHlinked1 as (Hi & _ & Hs1); [by right|].
      repeat split; try done. by eapply same_trans.
Qed.

Lemma linked_clustered fuzz records clusters i j ri rj :
  find_clusters fuzz records = Some clusters ->
  records !! i = Some ri -> records !! j = Some rj ->
  linked fuzz records i j ->
  exists C, C ∈ clusters /\ id ri ∈ C /\ id rj ∈ C.
Proof.
  unfold find_clusters. intros Hfc Hri Hrj Hl.
  pose proof (lookup_lt_Some _ _ _ Hri) as Hi.
  pose proof (lookup_lt_Some _ _ _ Hrj) as Hj.
  destruct (length records) as [|m] eqn:Hn; [lia|].
  rewrite <- Hn in *. set (n := length records) in *.
  pose proof (pairs_length n) as Hpl.
  destruct (compare_all_spec fuzz records (S (n * n)) (pairs n) (seq 0 n) 0)
    as (p & Hc & Hlp & Hrp & _ & Hsim).
  { apply seq_rooted. }
  { lia. }
  { by rewrite length_seq. }
  { apply pairs_in_range. }
  rewrite Hc in Hfc. rewrite length_seq in Hlp. simpl in Hrp.
  destruct (build_clusters_spec records (S (n * n)) (seq 0 n) p
              (length (pairs n)) []) as (cm & Hb & _ & Hfile).
  { done. }
  { lia. }
  { done. }
  { apply seq_in_range. }
  rewrite Hb in Hfc. injection Hfc as <-.
  destruct (linked_same fuzz records p (length (pairs n)) i j Hlp Hrp)
    as (_ & _ & root & ki & kj & Hpi & Hpj); [|done|by left|].
  { intros a b ra rb Hab Hra Hrb Hs. eapply Hsim; try done.
    apply pairs_spec. apply lookup_lt_Some in Hrb. fold n in Hrb. lia. }
  destruct (Hfile i ri root ki) as (c & Hl1 & Hin); try done.
  { apply elem_of_seq. lia. }
  destruct (Hfile j rj root kj) as (c' & Hl' & Hin'); try done.
  { apply elem_of_seq. lia. }
  assert (c' = c) as -> by congruence.
  exists c. split; [by eapply lookup_cluster_elem|done].
Qed.

(** With distinct ids, two records of a block are in one cluster
    exactly when a chain of similar pairs connects them. *)
Theorem clusters_are_similarity_components
    fuzz records clusters i j ri rj :
  NoDup (id <$> records) ->
  find_clusters fuzz records = Some clusters ->
  records !! i = Some ri -> records !! j = Some rj ->
  (exists C, C ∈ clusters /\ id ri ∈ C /\ id rj ∈ C)
  <-> linked fuzz records i j.
Proof.
  intros Hnd Hfc Hri Hrj. split.
  - intros (C & HC & Hi & Hj).
    destruct (find_clusters_linked _ _ _ _ _ _ Hfc HC Hi Hj)
      as (i' & j' & ri' & rj' & Hri' & Hrj' & Hi' & Hj' & Hl).
    assert (i' = i) as -> by (by eapply distinct_ids).
    assert (j' = j) as -> by (by eapply distinct_ids).
    done.
  - by eapply linked_clustered.
Qed.

End DedupeComponents.

(** ** What [deduplicate] marks *)

Module DedupeOutcome.
Import Dedupe DedupeSpec DedupeData DedupeBlocks DedupeClusters DedupeRerun.
Import ClusterSpec DedupeComponents.

Lemma clusters_are_similarity_components_witness :
  (exists C : gset Z,
      C ∈ [({[1%Z; 2%Z; 3%Z]} : gset Z)] /\ 1%Z ∈ C /\ 3%Z ∈ C)
  <-> linked None three_editions 0 2.
Proof.
  apply (clusters_are_similarity_components None three_editions
           [{[1%Z; 2%Z; 3%Z]}] 0 2 (edition 1 1499) (edition 3 1505)).
  - apply (bool_decide_unpack _). by vm_compute.
  - by vm_compute.
  - reflexivity.
  - reflexivity.
Defined.

Lemma unique_from_subset seen l r : r ∈ unique_from seen l -> r ∈ l.
Proof.
  revert seen. induction l as [|r0 l IH]; intros seen; simpl; [done|].
  destruct (decide (id r0 ∈ seen)).
  - intros Hr. right. by eapply IH.
  - intros Hr. apply elem_of_cons in Hr as [->|Hr]; [left|].
    right. by eapply IH.
Qed.

Lemma accept_from st C A :
  A ∈ (accept st C).1 -> A ∈ st.1 \/ (A = C /\ (1 < size C)%nat).
Proof.
  destruct st as [all processed]. unfold accept.
  destruct (1 <? size C)%nat eqn:Hs; [|by left].
  destruct (decide (C ∩ processed = ∅)); [|by left]. cbn [fst].
  intros HA. apply elem_of_app in HA as [HA|HA]; [by left|].
  apply list_elem_of_singleton in HA as ->. right.
  split; [done|]. by apply Nat.ltb_lt.
Qed.

Lemma foldl_accept_from clusters st A :
  A ∈ (foldl accept st clusters).1 ->
  A ∈ st.1 \/ (A ∈ clusters /\ (1 < size A)%nat).
Proof.
  revert st. induction clusters as [|C clusters IH]; intros st; simpl.
  - by left.
  - intros HA. destruct (IH _ HA) as [HA'|[HA' Hs]].
    + destruct (accept_from _ _ _ HA') as [?|[-> Hs]]; [by left|].
      right. split; [left|done].
    + right. split; [by right|done].
Qed.

Lemma process_blocks_from fuzz blocks st st' A :
  process_blocks fuzz blocks st = Some st' -> A ∈ st'.1 ->
  A ∈ st.1
  \/ exists key rs clusters,
       (key, rs) ∈ blocks /\ block_clusters fuzz rs = Some clusters
       /\ A ∈ clusters /\ (1 < size A)%nat.
Proof.
  revert st. induction blocks as [|[key rs] blocks IH]; intros st; simpl.
  - intros [= <-]. by left.
  - destruct (block_clusters fuzz rs) as [clusters|] eqn:Hb; [|done].
    intros Hp HA. destruct (IH _ Hp HA) as [HA'|HA'].
    + destruct (foldl_accept_from _ _ _ HA') as [?|[Hin Hs]]; [by left|].
      right. exists key, rs, clusters. split; [left|done].
    + destruct HA' as (k & rs' & cl & Hin & Hrest). right.
      exists k, rs', cl. split; [by right|done].
Qed.

Lemma block_clusters_ids fuzz rs clusters C x :
  block_clusters fuzz rs = Some clusters -> C ∈ clusters -> x ∈ C ->
  exists r, r ∈ rs /\ id r = x.
Proof.
  unfold block_clusters.
  destruct (length rs <? 2)%nat.
  { intros [= <-] HC. by apply elem_of_nil in HC. }
  destruct (length (unique_records rs) <? 2)%nat.
  { intros [= <-] HC. by apply elem_of_nil in HC. }
  intros Hfc HC Hx.
  destruct (find_clusters_ids _ _ _ Hfc) as (_ & Hids & _).
  assert (Hin : x ∈ ids (unique_records rs)).
  { rewrite <- Hids. apply elem_of_union_list. by exists C. }
  unfold ids in Hin.
  apply elem_of_list_to_set, list_elem_of_fmap in Hin as (r & -> & Hr).
  exists r. split; [|done]. by eapply unique_from_subset.
Qed.

Lemma block_keys_elem key r :
  key ∈ block_keys r ->
  exists y t,
    year r = Some y /\ title_normalized r = Some t
    /\ get_title_prefix t = key.2 /\ key.2 <> []
    /\ (key.1 = year_bucket y \/ key.1 = year_bucket y - 5
        \/ key.1 = year_bucket y + 5)%Z.
Proof.
  unfold block_keys.
  destruct (year r) as [y|]; [|intros H; by apply elem_of_nil in H].
  destruct (title_normalized r) as [t|]; [|intros H; by apply elem_of_nil in H].
  destruct (get_title_prefix t) as [|c pre] eqn:Hpre;
    [intros H; by apply elem_of_nil in H|].
  intros Hin. exists y, t. rewrite Hpre.
  repeat (apply elem_of_cons in Hin as [->|Hin]); cbn [fst snd];
    try (by apply elem_of_nil in Hin); repeat split; auto.
Qed.

Lemma kept_cluster_block fuzz publications all_clusters C :
  duplicate_clusters fuzz publications = Some all_clusters ->
  C ∈ all_clusters ->
  (1 < size C)%nat
  /\ exists key, forall x, x ∈ C ->
       exists r, r ∈ publications /\ selected r = true /\ id r = x
                 /\ key ∈ block_keys r.
Proof.
  unfold duplicate_clusters.
  destruct (process_blocks _ _ _) as [[all processed]|] eqn:Hp; [|done].
  intros [= <-] HC.
  destruct (process_blocks_from _ _ _ _ C Hp HC)
    as [Hnil|(key & rs & clusters & Hblock & Hbc & HCc & Hsize)].
  { by apply elem_of_nil in Hnil. }
  split; [done|]. exists key. intros x Hx.
  destruct (block_clusters_ids _ _ _ _ _ Hbc HCc Hx) as (r & Hr & <-).
  apply build_blocks_elem in Hblock. subst rs. unfold filed_under in Hr.
  apply list_elem_of_filter in Hr as [Hkey Hr].
  unfold fetch in Hr. apply list_elem_of_filter in Hr as [Hsel Hr].
  by exists r.
Qed.

(** Two records of one kept cluster were filed in one block: their
    titles have the same first three words and their years are less
    than fifteen apart. *)
Theorem merged_records_share_prefix_and_period
    fuzz publications all_clusters C x y :
  duplicate_clusters fuzz publications = Some all_clusters ->
  C ∈ all_clusters -> x ∈ C -> y ∈ C ->
  exists rx ry tx ty yx yy,
    rx ∈ publications /\ ry ∈ publications /\ id rx = x /\ id ry = y
    /\ title_normalized rx = Some tx /\ title_normalized ry = Some ty
    /\ year rx = Some yx /\ year ry = Some yy
    /\ get_title_prefix tx = get_title_prefix ty
    /\ get_title_prefix tx <> []
    /\ (Z.abs (yx - yy) < 15)%Z.
Proof.
  intros Hdup HC Hx Hy.
  destruct (kept_cluster_block _ _ _ _ Hdup HC) as (_ & key & Hkey).
  destruct (Hkey x Hx) as (rx & Hrx & _ & Hix & Hkx).
  destruct (Hkey y Hy) as (ry & Hry & _ & Hiy & Hky).
  apply block_keys_elem in Hkx as (yx & tx & Hyx & Htx & Hpx & Hne & Hbx).
  apply block_keys_elem in Hky as (yy & ty & Hyy & Hty & Hpy & _ & Hby).
  exists rx, ry, tx, ty, yx, yy. repeat split; try done.
  - congruence.
  - congruence.
  - unfold year_bucket in *.
    assert (H1 := Z.div_mod yx 5 ltac:(lia)).
    assert (H2 := Z.div_mod yy 5 ltac:(lia)).
    assert (H3 := Z.mod_pos_bound yx 5 ltac:(lia)).
    assert (H4 := Z.mod_pos_bound yy 5 ltac:(lia)).
    lia.
Qed.

Lemma merged_records_witness :
  exists rx ry tx ty yx yy,
    rx ∈ three_editions /\ ry ∈ three_editions
    /\ id rx = 1%Z /\ id ry = 2%Z
    /\ title_normalized rx = Some tx /\ title_normalized ry = Some ty
    /\ year rx = Some yx /\ year ry = Some yy
    /\ get_title_prefix tx = get_title_prefix ty
    /\ get_title_prefix tx <> []
    /\ (Z.abs (yx - yy) < 15)%Z.
Proof.
  apply (merged_records_share_prefix_and_period None three_editions
           [{[1%Z; 2%Z]}] {[1%Z; 2%Z]} 1%Z 2%Z).
  - by vm_compute.
  - apply list_elem_of_singleton. reflexivity.
  - apply (bool_decide_unpack _). by vm_compute.
  - apply (bool_decide_unpack _). by vm_compute.
Defined.

Lemma assign_all_from all canonical canonical' x m :
  assign_all canonical all = Some canonical' ->
  canonical' !! x = Some m ->
  canonical !! x = Some m \/ exists A, A ∈ all /\ x ∈ A.
Proof.
  revert canonical. induction all as [|A all IH]; intros canonical; simpl.
  - intros [= <-]. by left.
  - destruct (assign canonical A) as [c1|] eqn:Ha; [|done].
    intros Hall Hx. destruct (IH _ Hall Hx) as [Hc1|(B & HB & HxB)].
    + destruct (assign_lookup _ _ _ Ha) as (m' & _ & Hl).
      rewrite Hl in Hc1. destruct (decide (x ∈ A)).
      * right. exists A. split; [left|done].
      * by left.
    + right. exists B. split; [by right|done].
Qed.

(** When [deduplicate] returns, it has marked the records of the kept
    clusters and no others: a canonical id is given only to a fetched
    record whose title has a first word, it is at most the id it is
    given to, and it is its own canonical id. *)
Theorem canonical_ids_are_canonical fuzz publications canonical x m :
  deduplicate fuzz publications = Some canonical ->
  canonical !! x = Some m ->
  (m <= x)%Z /\ canonical !! m = Some m
  /\ exists r, r ∈ publications /\ id r = x
               /\ selected r = true /\ block_keys r <> [].
Proof.
  intros Hded Hxm. unfold deduplicate in Hded.
  destruct (duplicate_clusters fuzz publications) as [all|] eqn:Hdup;
    [|done].
  pose proof (duplicate_clusters_disjoint _ _ _ Hdup) as Hdis.
  destruct (assign_all_from _ _ _ _ _ Hded Hxm) as [He|(A & HA & HxA)].
  { by rewrite lookup_empty in He. }
  destruct (assign_all_lookup _ _ _ _ _ Hdis Hded HA HxA) as (m' & Hm & Hx').
  assert (m' = m) as -> by congruence.
  destruct (set_min_spec _ _ Hm) as [HmA Hle].
  split; [by apply Hle|]. split.
  - destruct (assign_all_lookup _ _ _ _ _ Hdis Hded HA HmA) as (m2 & Hm2 & ?).
    congruence.
  - destruct (kept_cluster_block _ _ _ _ Hdup HA) as (_ & key & Hkey).
    destruct (Hkey x HxA) as (r & Hr & Hsel & Hid & Hk).
    exists r. repeat split; try done. intros Hnil. rewrite Hnil in Hk.
    by apply elem_of_nil in Hk.
Qed.

Lemma canonical_ids_witness :
  (1 <= 2)%Z
  /\ ({[1%Z := 1%Z; 2%Z := 1%Z]} : gmap Z Z) !! 1%Z = Some 1%Z
  /\ exists r, r ∈ three_editions /\ id r = 2%Z
               /\ selected r = true /\ block_keys r <> [].
Proof.
  apply (canonical_ids_are_canonical None three_editions
           {[1%Z := 1%Z; 2%Z := 1%Z]} 2%Z 1%Z).
  - by vm_compute.
  - by vm_compute.
Defined.

Lemma find_clusters_partition_witness :
  Forall (fun C : gset Z => C <> ∅) [{[1%Z; 2%Z; 3%Z]}]
  /\ ⋃ [({[1%Z; 2%Z; 3%Z]} : gset Z)] = ids three_editions
  /\ (NoDup (id <$> three_editions)
      -> pairwise_disjoint [{[1%Z; 2%Z; 3%Z]}]).
Proof.
  apply (find_clusters_partitions_the_ids None three_editions
           [{[1%Z; 2%Z; 3%Z]}]).
  by vm_compute.
Defined.

End DedupeOutcome.

(** ** The fallback scorer and the title prefix *)

Module DedupeRange.
Import Dedupe DedupeSpec DedupeData.

Lemma ratio_range (a b : nat) :
  (a <= b)%nat -> (0 < b)%nat ->
  0 <= inject_Z (Z.of_nat a) / inject_Z (Z.of_nat b) * 100 <= 100.
Proof.
  intros Hab Hb.
  assert (H0 : 0 <= inject_Z (Z.of_nat a)).
  { change 0 with (inject_Z 0). rewrite <- Zle_Qle. lia. }
  assert (Hb' : 0 < inject_Z (Z.of_nat b)).
  { change 0 with (inject_Z 0). rewrite <- Zlt_Qlt. lia. }
  assert (Hle : inject_Z (Z.of_nat a) <= inject_Z (Z.of_nat b)).
  { rewrite <- Zle_Qle. lia. }
  set (x := inject_Z (Z.of_nat a)) in *.
  set (y := inject_Z (Z.of_nat b)) in *.
  assert (H1 : 0 <= x / y) by (apply Qle_shift_div_l; [done|lra]).
  assert (H2 : x / y <= 1) by (apply Qle_shift_div_r; [done|lra]).
  lra.
Qed.

Lemma basic_sim_range s t : 0 <= basic_sim s t <= 100.
Proof.
  unfold basic_sim.
  destruct (bool_decide (word_set s = ∅)) eqn:Hs; cbn [negb andb]; [lra|].
  destruct (bool_decide (word_set t = ∅)) eqn:Ht; cbn [negb andb]; [lra|].
  apply bool_decide_eq_false in Hs.
  apply ratio_range.
  - apply subseteq_size. intros z Hz. apply elem_of_intersection in Hz as [Hz _].
    apply elem_of_union. by left.
  - assert (Hpos : (0 < size (word_set s))%nat).
    { destruct (size (word_set s)) eqn:E; [|lia].
      by apply size_empty_inv, leibniz_equiv in E. }
    assert (Hsub : (size (word_set s) <= size (word_set s ∪ word_set t))%nat).
    { apply subseteq_size. intros z Hz. apply elem_of_union. by left. }
    lia.
Qed.

Lemma split_spaceless s : Forall spaceless (split s).
Proof.
  eapply Forall_impl.
  - apply (NormalForm.split_words (fun _ => True)). by apply Forall_forall.
  - intros w [Hne Hw]. split; [done|].
    eapply Forall_impl; [exact Hw|]. by intros c [_ Hc].
Qed.

Lemma join_nil ws : Forall spaceless ws -> join (lit " ") ws = [] -> ws = [].
Proof.
  intros Hws Hj. apply (f_equal split) in Hj.
  by rewrite NormalForm.split_join in Hj.
Qed.

(** [get_title_prefix] returns the first three words of the title
    joined by single spaces: splitting it gives those words back, a
    second application changes nothing, and the prefix is empty exactly
    when the title has no word. *)
Theorem title_prefix_is_the_first_three_words t :
  split (get_title_prefix t) = take 3 (split t)
  /\ get_title_prefix (get_title_prefix t) = get_title_prefix t
  /\ (get_title_prefix t = [] <-> split t = []).
Proof.
  assert (Hws : Forall spaceless (take 3 (split t))).
  { apply Forall_take, split_spaceless. }
  assert (H1 : split (get_title_prefix t) = take 3 (split t)).
  { unfold get_title_prefix, TITLE_PREFIX_LENGTH.
    destruct t as [|c t]; [done|]. by apply NormalForm.split_join. }
  split; [done|]. split.
  - destruct t as [|d t]; [done|].
    change (get_title_prefix (d :: t))
      with (join (lit " ") (take 3 (split (d :: t)))) in *.
    set (p := join (lit " ") (take 3 (split (d :: t)))) in *.
    unfold get_title_prefix, TITLE_PREFIX_LENGTH.
    destruct p as [|c p'] eqn:Hp; [done|].
    rewrite H1, take_take, Nat.min_id. done.
  - split.
    + intros Hp. rewrite Hp in H1. cbn in H1.
      destruct (split t) as [|w ws]; [done|]. done.
    + intros Hs. unfold get_title_prefix. destruct t as [|c t]; [done|].
      by rewrite Hs.
Qed.

End DedupeRange.

(** ** The signals of deduplicator.py *)

Module DeduplicatorFacts.
Import Deduplicator DeduplicatorData.

Lemma frac_unit (a b : nat) :
  (a <= b)%nat -> (0 < b)%nat -> unit_interval (frac a b).
Proof.
  intros Hab Hb. unfold unit_interval, frac.
  assert (H0 : 0 <= inject_Z (Z.of_nat a)).
  { change 0 with (inject_Z 0). rewrite <- Zle_Qle. lia. }
  assert (Hb' : 0 < inject_Z (Z.of_nat b)).
  { change 0 with (inject_Z 0). rewrite <- Zlt_Qlt. lia. }
  assert (Hle : inject_Z (Z.of_nat a) <= inject_Z (Z.of_nat b)).
  { rewrite <- Zle_Qle. lia. }
  split.
  - apply Qle_shift_div_l; [done|lra].
  - apply Qle_shift_div_r; [done|lra].
Qed.

Lemma overlap_unit (X Y : gset str) :
  X <> ∅ -> unit_interval (frac (size (X ∩ Y)) (size (X ∪ Y))).
Proof.
  intros HX. apply frac_unit.
  - apply subseteq_size. intros z Hz.
    apply elem_of_intersection in Hz as [Hz _]. apply elem_of_union. by left.
  - assert (Hpos : (0 < size X)%nat).
    { destruct (size X) eqn:E; [|lia].
      by apply size_empty_inv, leibniz_equiv in E. }
    assert (Hsub : (size X <= size (X ∪ Y))%nat).
    { apply subseteq_size. intros z Hz. apply elem_of_union. by left. }
    lia.
Qed.

Lemma matching_initials_le w1 w2 :
  (matching_initials w1 w2 <= length w1)%nat.
Proof.
  revert w2. induction w1 as [|x w1 IH]; intros [|y w2]; simpl; try lia.
  specialize (IH w2). destruct (bool_decide _); lia.
Qed.

Lemma overlap_fuzz_bounded : rapidfuzz_bounded overlap_fuzz.
Proof. intros s t. split; apply DedupeRange.basic_sim_range. Qed.

Section Signals.
Context {U : Unicode} {D : Unidecode} {F : Rapidfuzz}.
Variable cfg : config.

Lemma percent_unit (x : Q) : 0 <= x <= 100 -> unit_interval (x / 100).
Proof.
  intros Hx. unfold unit_interval. split.
  - apply Qle_shift_div_l; lra.
  - apply Qle_shift_div_r; lra.
Qed.

Lemma title_unit a b :
  rapidfuzz_bounded F -> unit_interval (calculate_title_similarity a b).
Proof.
  intros HF. unfold calculate_title_similarity.
  destruct (isna a || isna b); [unfold unit_interval; lra|]. cbv zeta.
  destruct (HF (normalize_text a) (normalize_text b)) as [Hr Ht].
  apply percent_unit in Hr, Ht.
  set (r := ratio _ _ / 100) in *. set (t := token_set_ratio _ _ / 100) in *.
  set (k1 := extract_keywords a). set (k2 := extract_keywords b).
  assert (Hk : unit_interval
    (if bool_decide (k1 = ∅) && bool_decide (k2 = ∅) then 1
     else if bool_decide (k1 = ∅) || bool_decide (k2 = ∅) then 0
          else if bool_decide (k1 ∪ k2 = ∅) then 0
               else frac (size (k1 ∩ k2)) (size (k1 ∪ k2)))).
  { destruct (bool_decide (k1 = ∅)) eqn:E1; cbn [andb orb].
    - destruct (bool_decide (k2 = ∅)); unfold unit_interval; lra.
    - destruct (bool_decide (k2 = ∅)); [unfold unit_interval; lra|].
      destruct (bool_decide (k1 ∪ k2 = ∅)); [unfold unit_interval; lra|].
      apply overlap_unit. by apply bool_decide_eq_false in E1. }
  set (k := if bool_decide (k1 = ∅) && bool_decide (k2 = ∅) then 1 else _)
    in *.
  unfold unit_interval in *. lra.
Qed.

Lemma py_min_le a b : py_min a b <= a /\ py_min a b <= b.
Proof. unfold py_min. destruct (Qlt_le_dec b a); lra. Qed.

Lemma py_min_ge a b c : c <= a -> c <= b -> c <= py_min a b.
Proof. unfold py_min. destruct (Qlt_le_dec b a); lra. Qed.

Lemma author_unit a b q :
  rapidfuzz_bounded F ->
  calculate_author_similarity a b = Some q -> unit_interval q.
Proof.
  intros HF. unfold calculate_author_similarity.
  destruct (isna a || isna b); [intros [= <-]; unfold unit_interval; lra|].
  cbv zeta.
  destruct (HF (normalize_text a) (normalize_text b)) as [Hr _].
  apply percent_unit in Hr. set (r := ratio _ _ / 100) in *.
  destruct (_ && _); [intros [= <-]; unfold unit_interval; lra|].
  set (w1 := split (normalize_text a)). set (w2 := split (normalize_text b)).
  destruct (bool_decide (length w1 = length w2)) eqn:El.
  - destruct (length w1) as [|n] eqn:En; [done|]. intros [= <-].
    assert (Hm : (matching_initials w1 w2 <= S n)%nat).
    { rewrite <- En. apply matching_initials_le. }
    pose proof (frac_unit _ _ Hm ltac:(lia)) as Hf.
    set (f := frac _ _) in *. unfold unit_interval in *. split.
    + apply py_min_ge; lra.
    + apply py_min_le.
  - intros [= <-]. unfold unit_interval in *. split.
    + apply py_min_ge; lra.
    + apply py_min_le.
Qed.

Lemma date_unit y1 y2 : unit_interval (calculate_date_similarity cfg y1 y2).
Proof.
  unfold calculate_date_similarity, unit_interval.
  destruct y1 as [y1|], y2 as [y2|]; try lra.
  repeat match goal with
         | |- context [if ?b then _ else _] => destruct b
         end; lra.
Qed.

Lemma py_max_unit a b :
  unit_interval a -> unit_interval b -> unit_interval (py_max a b).
Proof. unfold py_max. by destruct (Qlt_le_dec a b). Qed.

Lemma place_unit a b :
  rapidfuzz_bounded F -> unit_interval (calculate_place_similarity a b).
Proof.
  intros HF. unfold calculate_place_similarity.
  destruct (isna a || isna b); [unfold unit_interval; lra|]. cbv zeta.
  destruct (HF (normalize_text a) (normalize_text b)) as [Hr _].
  apply percent_unit in Hr.
  set (w1 := list_to_set (split (normalize_text a)) : gset str).
  set (w2 := list_to_set (split (normalize_text b)) : gset str).
  destruct (bool_decide (w1 = ∅)) eqn:E1; cbn [negb andb]; [done|].
  destruct (bool_decide (w2 = ∅)) eqn:E2; cbn [negb andb]; [done|].
  apply py_max_unit; [done|].
  apply overlap_unit. by apply bool_decide_eq_false in E1.
Qed.

End Signals.

(** With the default weights every score [calculate_overall_similarity]
    returns, the overall score included, is between 0 and 1. *)
Theorem scores_are_between_0_and_1
    (U : Unicode) (D : Unidecode) (F : Rapidfuzz) r1 r2 sc :
  rapidfuzz_bounded F ->
  calculate_overall_similarity default_config r1 r2 = Some sc ->
  unit_interval (s_title sc) /\ unit_interval (s_author sc)
  /\ unit_interval (s_date sc) /\ unit_interval (s_place sc)
  /\ unit_interval (s_overall sc).
Proof.
  intros HF. unfold calculate_overall_similarity.
  destruct (calculate_author_similarity _ _) as [a|] eqn:Ha; [|done].
  intros [= <-]. cbn [s_title s_author s_date s_place s_overall].
  pose proof (title_unit (title r1) (title r2) HF) as Ht.
  pose proof (author_unit _ _ _ HF Ha) as Hau.
  pose proof (date_unit default_config (publication_year r1)
                (publication_year r2)) as Hd.
  pose proof (place_unit (publication_place r1) (publication_place r2) HF)
    as Hp.
  repeat (split; [done|]).
  set (t := calculate_title_similarity _ _) in *.
  set (d := calculate_date_similarity _ _ _) in *.
  set (p := calculate_place_similarity _ _) in *.
  unfold weighted_sum, default_config, weights. cbn [foldl score_of fst snd].
  unfold unit_interval in *. lra.
Qed.

Lemma scores_witness :
  exists sc,
    calculate_overall_similarity (U := ascii_tables) (D := ascii_unidecode)
      (F := overlap_fuzz) default_config ustc_copy estc_copy = Some sc
    /\ unit_interval (s_title sc) /\ unit_interval (s_author sc)
    /\ unit_interval (s_date sc) /\ unit_interval (s_place sc)
    /\ unit_interval (s_overall sc).
Proof.
  eexists. split; [by vm_compute|].
  apply (scores_are_between_0_and_1 ascii_tables ascii_unidecode overlap_fuzz
           ustc_copy estc_copy).
  - apply overlap_fuzz_bounded.
  - by vm_compute.
Defined.

(** [calculate_author_similarity] divides by the number of words of
    the first name: it raises ZeroDivisionError exactly when neither
    author is null and neither has a word left after normalization. *)
Theorem author_similarity_raises_iff
    (U : Unicode) (D : Unidecode) (F : Rapidfuzz) a b :
  calculate_author_similarity a b = None
  <-> isna a = false /\ isna b = false
      /\ split (normalize_text a) = [] /\ split (normalize_text b) = [].
Proof.
  unfold calculate_author_similarity.
  destruct (isna a) eqn:Ea; [split; [done|by intros [? _]]|].
  destruct (isna b) eqn:Eb; [split; [done|by intros (_ & ? & _)]|].
  cbn [orb]. cbv zeta.
  set (w1 := split (normalize_text a)). set (w2 := split (normalize_text b)).
  split.
  - destruct (_ && _); [done|].
    destruct (bool_decide (length w1 = length w2)) eqn:El; [|done].
    apply bool_decide_eq_true in El.
    destruct (length w1) eqn:E1; [|done]. intros _.
    repeat split; try done.
    + by apply nil_length_inv.
    + apply nil_length_inv. congruence.
  - intros (_ & _ & -> & ->). reflexivity.
Qed.

(** The date signal never grows with the distance between the two
    years, whatever the configured tolerance. *)
Theorem date_similarity_decreases_with_distance cfg y1 y2 y3 y4 :
  (Z.abs (y1 - y2) <= Z.abs (y3 - y4))%Z ->
  calculate_date_similarity cfg (Some y3) (Some y4)
  <= calculate_date_similarity cfg (Some y1) (Some y2).
Proof.
  intros Hd. unfold calculate_date_similarity. cbv zeta.
  set (tol := date_tolerance_years cfg).
  repeat match goal with
         | |- context [(?a =? ?b)%Z] =>
             destruct (Z.eqb_spec a b)
         | |- context [(?a <=? ?b)%Z] =>
             destruct (Z.leb_spec a b)
         end; try lra; lia.
Qed.

Lemma date_similarity_witness :
  calculate_date_similarity default_config (Some 1500%Z) (Some 1507%Z)
  <= calculate_date_similarity default_config (Some 1500%Z) (Some 1503%Z).
Proof.
  apply (date_similarity_decreases_with_distance default_config
           1500 1503 1500 1507).
  lia.
Defined.

(** [is_duplicate_pair] reports a duplicate only when the title, the
    author and the overall score each reach their threshold; with
    positive thresholds no pair with a null title or a null author is
    a duplicate. *)
Theorem duplicates_have_title_and_author
    (U : Unicode) (D : Unidecode) (F : Rapidfuzz) cfg r1 r2 sc :
  0 < title_similarity_threshold cfg ->
  0 < author_similarity_threshold cfg ->
  is_duplicate_pair cfg r1 r2 = Some (true, sc) ->
  isna (title r1) = false /\ isna (title r2) = false
  /\ isna (author r1) = false /\ isna (author r2) = false
  /\ title_similarity_threshold cfg <= s_title sc
  /\ author_similarity_threshold cfg <= s_author sc
  /\ overall_score_threshold cfg <= s_overall sc.
Proof.
  intros Ht Ha. unfold is_duplicate_pair.
  destruct (calculate_overall_similarity cfg r1 r2) as [sc'|] eqn:Hsc;
    [|done].
  intros [= Hb <-].
  apply andb_true_iff in Hb as [Hb Hap].
  apply andb_true_iff in Hb as [Hov Htp].
  unfold Qge_bool in *. apply Qle_bool_iff in Hov, Htp, Hap.
  unfold calculate_overall_similarity in Hsc.
  destruct (calculate_author_similarity _ _) as [a|] eqn:Hau; [|done].
  injection Hsc as <-. cbn [s_title s_author s_overall] in *.
  assert (Hti : isna (title r1) || isna (title r2) = false).
  { destruct (isna (title r1) || isna (title r2)) eqn:E; [|done].
    unfold calculate_title_similarity in Htp. rewrite E in Htp. lra. }
  assert (Hai : isna (author r1) || isna (author r2) = false).
  { destruct (isna (author r1) || isna (author r2)) eqn:E; [|done].
    unfold calculate_author_similarity in Hau. rewrite E in Hau.
    injection Hau as <-. lra. }
  apply orb_false_iff in Hti as [-> ->].
  apply orb_false_iff in Hai as [-> ->]. done.
Qed.

Lemma duplicates_witness :
  exists sc,
    is_duplicate_pair (U := ascii_tables) (D := ascii_unidecode)
      (F := overlap_fuzz) default_config ustc_copy ustc_copy = Some (true, sc)
    /\ isna (title ustc_copy) = false /\ isna (title ustc_copy) = false
    /\ isna (author ustc_copy) = false /\ isna (author ustc_copy) = false
    /\ title_similarity_threshold default_config <= s_title sc
    /\ author_similarity_threshold default_config <= s_author sc
    /\ overall_score_threshold default_config <= s_overall sc.
Proof.
  eexists. split; [by vm_compute|].
  apply (duplicates_have_title_and_author ascii_tables ascii_unidecode
           overlap_fuzz default_config ustc_copy ustc_copy).
  - by vm_compute.
  - by vm_compute.
  - by vm_compute.
Defined.

Lemma score_all_None (U : Unicode) group :
  score_all group = None
  <-> exists idx r, (idx, r) ∈ group /\ isna (source_catalogue r) = true.
Proof.
  induction group as [|[idx r] group IH]; simpl.
  - split; [done|]. intros (? & ? & H & _). by apply elem_of_nil in H.
  - destruct (primary_score r) as [q|] eqn:Hp.
    + destruct (score_all group) as [tl|].
      * split; [done|]. intros (i & r' & Hin & Hna). exfalso.
        apply elem_of_cons in Hin as [[= -> ->]|Hin].
        -- unfold primary_score in Hp. by destruct (source_catalogue r).
        -- assert (Some tl = None) by (apply IH; eauto). done.
      * split; [|done]. intros _.
        destruct (proj1 IH eq_refl) as (i & r' & Hin & Hna).
        exists i, r'. split; [by right|done].
    + split; [|done]. intros _. exists idx, r. split; [left|].
      unfold primary_score in Hp. by destruct (source_catalogue r).
Qed.

(** [_select_primary_record] raises exactly when the group is empty
    ([max] of an empty list) or the source catalogue of one of its
    records is null ([.lower()] on a null). *)
Theorem select_primary_record_raises_iff (U : Unicode) group :
  _select_primary_record group = None
  <-> group = []
      \/ exists idx r, (idx, r) ∈ group /\ isna (source_catalogue r) = true.
Proof.
  unfold _select_primary_record.
  destruct (score_all group) as [[|first rest]|] eqn:Hs.
  - split; [|done]. intros _. left. destruct group as [|[i r] g]; [done|].
    simpl in Hs. by destruct (primary_score r), (score_all g).
  - split; [done|]. intros [->|Hna]; [done|].
    apply (proj2 (score_all_None U group)) in Hna. congruence.
  - split; [|done]. intros _. right.
    by apply (proj1 (score_all_None U group)).
Qed.

End DeduplicatorFacts.

(** ** The DataFrame methods of deduplicator.py *)

Module FrameFacts.
Import Deduplicator DeduplicatorData DeduplicatorFrames.

Lemma filter_label_length (df : frame) l :
  NoDup (index df) -> (length (filter (fun row => row.1 = l) df) <= 1)%nat.
Proof.
  unfold index. induction df as [|[k r] df IH]; [intros _; cbn; lia|].
  rewrite fmap_cons, NoDup_cons. intros [Hk Hnd].
  rewrite (filter_cons (fun row : nat * record => row.1 = l)). cbn [fst] in *.
  destruct (decide (k = l)) as [->|Hne]; [|by apply IH].
  cbn [length]. destruct (filter _ df) as [|[k' r'] rest] eqn:Hf; [done|].
  exfalso. apply Hk.
  assert (Hin : (k', r') ∈ filter (fun row => row.1 = l) df)
    by (rewrite Hf; left).
  apply list_elem_of_filter in Hin as [Heq Hin]. cbn in Heq. subst k'.
  apply list_elem_of_fmap. by exists (l, r').
Qed.

Lemma loc_length (df : frame) labels rows :
  NoDup (index df) -> loc df labels = Some rows ->
  length rows = length labels.
Proof.
  intros Hnd. revert rows.
  induction labels as [|l labels IH]; intros rows; simpl.
  - by intros [= <-].
  - pose proof (filter_label_length df l Hnd) as Hl.
    destruct (filter _ df) as [|row rest]; [done|].
    destruct (loc df labels) as [tl|]; [|done].
    intros [= <-]. cbn [app length] in *. rewrite length_app, (IH tl) by done.
    lia.
Qed.

Section Confidence.
Context {U : Unicode} {D : Unidecode} {F : Rapidfuzz}.
Variable cfg : config.

Lemma pair_similarities_iloc group rows todo sims i j gi :
  pair_similarities cfg group rows todo = Some sims ->
  (i, j) ∈ todo -> (group !! i = Some gi \/ group !! j = Some gi) ->
  (gi < length rows)%nat.
Proof.
  revert sims. induction todo as [|[a b] todo IH]; intros sims; simpl.
  - intros _ Hin. by apply elem_of_nil in Hin.
  - destruct (group !! a) as [ga|] eqn:Ha; [|done].
    destruct (group !! b) as [gb|] eqn:Hb; [|done].
    destruct (iloc rows ga) as [r1|] eqn:H1; [|done].
    destruct (iloc rows gb) as [r2|] eqn:H2; [|done].
    destruct (calculate_overall_similarity cfg r1 r2); [|done].
    destruct (pair_similarities cfg group rows todo) as [tl|] eqn:Hp; [|done].
    intros _ Hin Hg. apply elem_of_cons in Hin as [[= -> ->]|Hin].
    + unfold iloc in H1, H2.
      destruct Hg as [Hg|Hg]; rewrite Hg in *.
      * injection Ha as <-. destruct (rows !! gi) eqn:E; [|done].
        by eapply lookup_lt_Some.
      * injection Hb as <-. destruct (rows !! gi) eqn:E; [|done].
        by eapply lookup_lt_Some.
    + by eapply IH.
Qed.

End Confidence.

(** [_calculate_group_confidence] reads the rows of the group by
    position, with the labels of the group as positions: for a group
    of two or more it returns a confidence only when every label of
    the group is below the size of the group, and raises otherwise. *)
Theorem group_confidence_reads_labels_as_positions
    (U : Unicode) (D : Unidecode) (F : Rapidfuzz) cfg group df q :
  NoDup (index df) ->
  _calculate_group_confidence cfg group df = Some q ->
  length group <> 1%nat ->
  Forall (fun l => (l < length group)%nat) group.
Proof.
  intros Hnd. unfold _calculate_group_confidence.
  destruct (decide (length group = 1%nat)); [done|].
  destruct (loc df group) as [rows|] eqn:Hloc; [|done].
  destruct (pair_similarities _ _ _ _) as [sims|] eqn:Hp; [|done].
  intros _ _. apply Forall_forall. intros l Hl.
  apply list_elem_of_lookup_1 in Hl as [i Hi].
  pose proof (lookup_lt_Some _ _ _ Hi) as Hlt.
  rewrite <- (loc_length df group rows Hnd Hloc).
  destruct i as [|i].
  - eapply (pair_similarities_iloc cfg _ _ _ _ 0%nat 1%nat); [done| |by left].
    apply DedupeClusters.pairs_spec. lia.
  - eapply (pair_similarities_iloc cfg _ _ _ _ 0%nat (S i)); [done| |by right].
    apply DedupeClusters.pairs_spec. lia.
Qed.

Lemma group_confidence_witness :
  exists q,
    _calculate_group_confidence (U := ascii_tables) (D := ascii_unidecode)
      (F := overlap_fuzz) default_config [0%nat; 1%nat] two_copies = Some q
    /\ Forall (fun l => (l < 2)%nat) [0%nat; 1%nat].
Proof.
  eexists. split; [by vm_compute|].
  eapply (group_confidence_reads_labels_as_positions ascii_tables
           ascii_unidecode overlap_fuzz default_config [0%nat; 1%nat]
           two_copies).
  - apply (bool_decide_unpack _). by vm_compute.
  - by vm_compute.
  - by vm_compute.
Defined.

(** The same two rows after a filter removed the row between them:
    the group of the labels 0 and 2 has no row at position 2. *)
Example group_confidence_after_a_filter :
  _calculate_group_confidence (U := ascii_tables) (D := ascii_unidecode)
    (F := overlap_fuzz) default_config [0%nat; 2%nat] filtered_copies = None.
Proof. reflexivity. Qed.

(** *** [find_duplicate_groups] *)

Section Groups.
Context {U : Unicode} {D : Unidecode} {F : Rapidfuzz} {O : SetOrder}.
Variable cfg : config.

Lemma check_matches_spec record potential st st' :
  check_matches cfg record potential st = Some st' ->
  exists added,
    st'.1 = st.1 ++ added /\ st'.2 = st.2 ∪ list_to_set added
    /\ added `sublist_of` potential.*1
    /\ forall m, m ∈ added ->
         exists rm sc, (m, rm) ∈ potential
                       /\ is_duplicate_pair cfg record rm = Some (true, sc).
Proof.
  revert st. induction potential as [|[m rm] potential IH]; intros st; simpl.
  - intros [= <-]. exists []. rewrite app_nil_r. cbn.
    rewrite (right_id_L ∅ (∪)). repeat split; try done.
    intros m Hm. by apply elem_of_nil in Hm.
  - destruct (is_duplicate_pair cfg record rm) as [[b sc]|] eqn:Hd; [|done].
    intros Hc. destruct (IH _ Hc) as (added & H1 & H2 & H3 & H4).
    destruct b; cbn [fst snd] in *.
    + exists (m :: added). rewrite H1, H2, <- app_assoc. cbn [app list_to_set].
      rewrite (assoc_L (∪)). repeat split; try done.
      * by apply sublist_skip.
      * intros m' Hm'. apply elem_of_cons in Hm' as [->|Hm'].
        -- exists rm, sc. split; [left|done].
        -- destruct (H4 m' Hm') as (rm' & sc' & Hin & Hdup).
           exists rm', sc'. split; [by right|done].
    + exists added. repeat split; try done.
      * by apply sublist_cons.
      * intros m' Hm'. destruct (H4 m' Hm') as (rm' & sc' & Hin & Hdup).
        exists rm', sc'. split; [by right|done].
Qed.

Lemma group_rows_grouped df rows st st' :
  NoDup (index df) -> rows ⊆ df -> grouped cfg df st ->
  group_rows cfg df rows st = Some st' -> grouped cfg df st'.
Proof.
  intros Hnd. revert st.
  induction rows as [|[idx record] rows IH]; intros [groups processed];
    cbn [group_rows].
  - by intros _ ? [= <-].
  - intros Hsub Hinv.
    assert (Hrows : rows ⊆ df).
    { intros x Hx. apply Hsub. by right. }
    assert (Hidx : (idx, record) ∈ df) by (apply Hsub; left).
    destruct (decide (idx ∈ processed)) as [|Hfresh]; [by apply IH|].
    set (potential := potential_matches df (processed ∪ {[idx]}) idx record).
    destruct (check_matches _ _ _ _) as [[matches processed2]|] eqn:Hc;
      [|done].
    apply IH; [done|].
    destruct (check_matches_spec _ _ _ _ Hc) as (added & H1 & H2 & H3 & H4).
    cbn [fst snd app] in H1, H2. subst matches processed2.
    destruct Hinv as (Hnd1 & Hproc & Hidxs & Hstars). cbn [fst snd] in *.
    assert (Hadded : forall m, m ∈ added ->
              exists rm sc, (m, rm) ∈ df /\ m <> idx /\ (m ∉ processed)
                /\ is_duplicate_pair cfg record rm = Some (true, sc)
                /\ year_bucket rm = year_bucket record
                /\ title_first rm = title_first record).
    { intros m Hm. destruct (H4 m Hm) as (rm & sc & Hin & Hdup).
      unfold potential, potential_matches in Hin.
      apply list_elem_of_filter in Hin as [(Hne & Hnp & Hy & Ht) Hin].
      cbn [fst snd] in *. exists rm, sc. repeat split; try done.
      intros Hp. apply Hnp. apply elem_of_union. by left. }
    assert (Hnda : NoDup added).
    { eapply sublist_NoDup; [|exact H3].
      eapply sublist_NoDup; [exact Hnd|].
      unfold index. apply fmap_sublist, sublist_filter. }
    destruct (1 <? length (idx :: added))%nat.
    + split; [|split; [|split]]; cbn [fst snd].
      * rewrite concat_app. cbn [concat]. rewrite app_nil_r.
        apply NoDup_app. split; [done|]. split.
        -- intros l Hl Hl'. apply Hproc in Hl.
           apply elem_of_cons in Hl' as [->|Hl']; [done|].
           destruct (Hadded l Hl') as (? & ? & _ & _ & Hnp & _). done.
        -- apply NoDup_cons. split; [|done]. intros Hin.
           destruct (Hadded idx Hin) as (? & ? & _ & Hne & _). done.
      * intros l. rewrite concat_app. cbn [concat]. rewrite app_nil_r.
        intros Hl. apply elem_of_app in Hl as [Hl|Hl].
        -- apply elem_of_union. left. apply elem_of_union. left.
           by apply Hproc.
        -- apply elem_of_cons in Hl as [->|Hl].
           ++ apply elem_of_union. left. apply elem_of_union. right.
              by apply elem_of_singleton.
           ++ apply elem_of_union. right. by apply elem_of_list_to_set.
      * intros l. rewrite concat_app. cbn [concat]. rewrite app_nil_r.
        intros Hl. apply elem_of_app in Hl as [Hl|Hl]; [by apply Hidxs|].
        apply elem_of_cons in Hl as [->|Hl].
        -- apply list_elem_of_fmap. by exists (idx, record).
        -- destruct (Hadded l Hl) as (rm & ? & Hin & _).
           apply list_elem_of_fmap. by exists (l, rm).
      * apply Forall_app. split; [done|]. constructor; [|constructor].
        exists idx, added, record. split; [done|]. split; [done|].
        intros m Hm.
        destruct (Hadded m Hm) as (rm & sc & Hin & _ & _ & Hdup & Hy & Ht).
        by exists rm, sc.
    + split; [done|]. split; [|done]. cbn [fst snd].
      intros l Hl. apply elem_of_union. left. apply elem_of_union. left.
      by apply Hproc.
Qed.

Lemma concat_singletons (l : list nat) : concat (map (fun i => [i]) l) = l.
Proof. induction l as [|i l IH]; [done|]. cbn. by rewrite IH. Qed.

Lemma find_duplicate_groups_grouped df groups :
  NoDup (index df) -> find_duplicate_groups cfg df = Some groups ->
  concat groups ≡ₚ index df /\ Forall (around_first cfg df) groups.
Proof.
  intros Hnd. unfold find_duplicate_groups.
  destruct (group_rows cfg df df ([], ∅)) as [[gs processed]|] eqn:Hg; [|done].
  intros [= <-].
  apply group_rows_grouped in Hg as (Hnd1 & _ & Hidxs & Hstars);
    [|done|done|].
  2:{ split; [constructor|]. split; [intros l Hl; by apply elem_of_nil in Hl|].
      split; [intros l Hl; by apply elem_of_nil in Hl|constructor]. }
  cbn [fst snd] in *.
  set (singles := set_to_list _).
  assert (Hs : forall l, l ∈ singles <-> l ∈ index df /\ l ∉ concat gs).
  { intros l. unfold singles. rewrite set_to_list_perm, elem_of_elements.
    rewrite elem_of_difference, !elem_of_list_to_set. done. }
  split.
  - rewrite concat_app, concat_singletons.
    apply NoDup_Permutation; [|done|].
    + apply NoDup_app. split; [done|]. split.
      * intros l Hl Hl'. apply Hs in Hl'. tauto.
      * unfold singles. rewrite set_to_list_perm. apply NoDup_elements.
    + intros l. rewrite elem_of_app, Hs. split.
      * intros [Hl|[Hl _]]; [by apply Hidxs|done].
      * intros Hl. destruct (decide (l ∈ concat gs)); [by left|by right].
  - apply Forall_app. split; [done|].
    apply Forall_forall. intros g Hg'.
    apply list_elem_of_fmap in Hg' as (idx & -> & Hin).
    apply Hs in Hin as [Hin _].
    apply list_elem_of_fmap in Hin as ([i r] & -> & Hin).
    exists i, [], r. split; [done|]. split; [done|].
    intros m Hm. by apply elem_of_nil in Hm.
Qed.

End Groups.

(** Over distinct labels, the groups of [find_duplicate_groups] hold
    every label of the frame exactly once. *)
Theorem duplicate_groups_partition_the_index
    (U : Unicode) (D : Unidecode) (F : Rapidfuzz) (O : SetOrder)
    cfg df groups :
  NoDup (index df) -> find_duplicate_groups cfg df = Some groups ->
  concat groups ≡ₚ index df.
Proof. intros Hnd Hf. by apply (find_duplicate_groups_grouped cfg). Qed.

Lemma duplicate_groups_witness :
  concat [[0%nat; 2%nat]] ≡ₚ index filtered_copies.
Proof.
  apply (duplicate_groups_partition_the_index ascii_tables ascii_unidecode
           overlap_fuzz elements_order default_config filtered_copies).
  - apply (bool_decide_unpack _). by vm_compute.
  - by vm_compute.
Defined.

(** Every group is built around its first row: each further row is a
    duplicate pair with the first one and shares its five-year bucket
    and the first three characters of its normalized title.  Rows of
    one group need not be duplicates of each other. *)
Theorem duplicate_groups_are_built_around_the_first_row
    (U : Unicode) (D : Unidecode) (F : Rapidfuzz) (O : SetOrder)
    cfg df groups :
  NoDup (index df) -> find_duplicate_groups cfg df = Some groups ->
  Forall (around_first cfg df) groups.
Proof. intros Hnd Hf. by apply (find_duplicate_groups_grouped cfg). Qed.

Lemma groups_around_first_witness :
  Forall (around_first (U := ascii_tables) (D := ascii_unidecode)
            (F := overlap_fuzz) default_config filtered_copies)
         [[0%nat; 2%nat]].
Proof.
  apply (duplicate_groups_are_built_around_the_first_row ascii_tables
           ascii_unidecode overlap_fuzz elements_order default_config
           filtered_copies).
  - apply (bool_decide_unpack _). by vm_compute.
  - by vm_compute.
Defined.

(** *** [_merge_field] *)

Lemma max_by_len_spec best rest :
  max_by_len best rest ∈ best :: rest
  /\ forall w, w ∈ best :: rest ->
       (length w <= length (max_by_len best rest))%nat.
Proof.
  revert best. induction rest as [|v rest IH]; intros best; simpl.
  - split; [left|]. intros w Hw. by apply list_elem_of_singleton in Hw as ->.
  - destruct (Nat.ltb_spec (length best) (length v)) as [Hlt|Hge].
    + destruct (IH v) as [Hin Hmax]. split; [by right|].
      intros w Hw. apply elem_of_cons in Hw as [->|Hw]; [|by apply Hmax].
      specialize (Hmax v ltac:(left)). lia.
    + destruct (IH best) as [Hin Hmax]. split.
      * apply elem_of_cons in Hin as [->|Hin]; [left|right; by right].
      * intros w Hw. apply elem_of_cons in Hw as [->|Hw]; [by apply Hmax; left|].
        apply elem_of_cons in Hw as [->|Hw].
        -- specialize (Hmax best ltac:(left)). lia.
        -- apply Hmax. by right.
Qed.

Lemma elem_of_dropna column s : s ∈ dropna column <-> Text s ∈ column.
Proof.
  unfold dropna. rewrite list_elem_of_omap. split.
  - intros (c & Hc & Hs). destruct c; try done. by injection Hs as ->.
  - intros Hs. by exists (Text s).
Qed.

(** [_merge_field] keeps, of a string field, a longest value that is
    not blank, and nothing when every value is blank or null; of a
    numeric field it keeps a value that is not zero whenever the
    group has one. *)
Theorem merge_field_keeps_the_longest_and_the_nonzero :
  (forall column,
      match _merge_field_string column with
      | Some v =>
          Text v ∈ column /\ strip v <> []
          /\ forall w, Text w ∈ column -> strip w <> [] ->
               (length w <= length v)%nat
      | None => forall w, Text w ∈ column -> strip w = []
      end)
  /\ (forall column,
        match _merge_field_numeric column with
        | Some v =>
            Some v ∈ column
            /\ (v = 0%Z -> forall w, Some w ∈ column -> w = 0%Z)
        | None => forall w, Some w ∉ column
        end).
Proof.
  split.
  - intros column. unfold _merge_field_string.
    destruct (dropna column) as [|s0 values] eqn:Hv.
    { intros w Hw. apply elem_of_dropna in Hw. rewrite Hv in Hw.
      by apply elem_of_nil in Hw. }
    rewrite <- Hv. clear s0 values Hv.
    destruct (filter _ (dropna column)) as [|first rest] eqn:Hf.
    + intros w Hw. apply elem_of_dropna in Hw.
      destruct (decide (strip w = [])) as [|Hne]; [done|].
      assert (Hin : w ∈ filter (fun v => strip v <> []) (dropna column)).
      { by apply list_elem_of_filter. }
      rewrite Hf in Hin. by apply elem_of_nil in Hin.
    + destruct (max_by_len_spec first rest) as [Hin Hmax].
      rewrite <- Hf in Hin, Hmax.
      apply list_elem_of_filter in Hin as [Hne Hin].
      split; [by apply elem_of_dropna|]. split; [done|].
      intros w Hw Hwne. apply Hmax. apply list_elem_of_filter.
      split; [done|]. by apply elem_of_dropna.
  - intros column. unfold _merge_field_numeric.
    assert (Hom : forall w, w ∈ omap (fun v : option Z => v) column
                            <-> Some w ∈ column).
    { intros w. rewrite list_elem_of_omap. split.
      - intros (c & Hc & ->). done.
      - intros Hw. by exists (Some w). }
    destruct (omap _ column) as [|first values] eqn:Hv.
    { intros w Hw. apply Hom in Hw. by apply elem_of_nil in Hw. }
    rewrite <- Hv in *.
    destruct (filter _ (omap _ column)) as [|value rest] eqn:Hf.
    + split; [apply Hom; rewrite Hv; left|].
      intros _ w Hw. apply Hom in Hw.
      destruct (decide (w = 0%Z)) as [|Hne]; [done|].
      assert (Hin : w ∈ filter (fun v => v <> 0%Z)
                          (omap (fun v : option Z => v) column)).
      { by apply list_elem_of_filter. }
      rewrite Hf in Hin. by apply elem_of_nil in Hin.
    + assert (Hin : value ∈ filter (fun v => v <> 0%Z)
                              (omap (fun v : option Z => v) column)).
      { rewrite Hf. left. }
      apply list_elem_of_filter in Hin as [Hne Hin].
      split; [by apply Hom|]. done.
Qed.

End FrameFacts.

(** ** The strategies of bph_ia_fuzzy_match.py *)

Module FuzzyFacts.
Import FuzzyMatch FuzzyStrategies FuzzySpec.

Lemma insert_hit_perm h l : insert_hit h l ≡ₚ h :: l.
Proof.
  induction l as [|d l IH]; simpl; [done|].
  destruct (Qlt_le_dec (score h) (score d)); [|done].
  rewrite IH. apply Permutation_swap.
Qed.

Lemma sort_hits_perm l : sort_hits l ≡ₚ l.
Proof.
  induction l as [|h l IH]; simpl; [done|].
  by rewrite insert_hit_perm, IH.
Qed.

Lemma insert_hit_descending h l :
  descending l -> descending (insert_hit h l).
Proof.
  induction l as [|d l IH]; simpl.
  - intros _. by split.
  - intros [Hd Hl]. destruct (Qlt_le_dec (score h) (score d)) as [Hlt|Hge].
    + simpl. split; [|by apply IH].
      rewrite insert_hit_perm. constructor; [lra|done].
    + simpl. split; [|by split]. constructor; [done|].
      eapply Forall_impl; [exact Hd|]. simpl. intros x Hx. lra.
Qed.

Lemma sort_hits_descending l : descending (sort_hits l).
Proof.
  induction l as [|h l IH]; simpl; [done|]. by apply insert_hit_descending.
Qed.

Lemma descending_take n l : descending l -> descending (take n l).
Proof.
  revert n. induction l as [|h l IH]; intros [|n]; simpl; try done.
  intros [Hd Hl]. split; [by apply Forall_take|by apply IH].
Qed.

Lemma descending_head l h d :
  descending l -> head l = Some h -> d ∈ l -> score d <= score h.
Proof.
  destruct l as [|h' l]; [done|]. simpl. intros [Hd _] [= ->] Hin.
  apply elem_of_cons in Hin as [->|Hin]; [lra|].
  rewrite Forall_forall in Hd. by apply Hd.
Qed.

Lemma unique_matches_subset seen l h : h ∈ unique_matches seen l -> h ∈ l.
Proof.
  revert seen. induction l as [|m l IH]; intros seen; simpl; [done|].
  destruct (decide (identifier (ia_work m) ∈ seen)).
  - intros Hh. right. by eapply IH.
  - intros Hh. apply elem_of_cons in Hh as [->|Hh]; [left|].
    right. by eapply IH.
Qed.

Lemma unique_matches_nodup seen l :
  NoDup ((fun h => identifier (ia_work h)) <$> unique_matches seen l)
  /\ forall h, h ∈ unique_matches seen l -> identifier (ia_work h) ∉ seen.
Proof.
  revert seen. induction l as [|m l IH]; intros seen; simpl.
  - split; [constructor|]. intros h Hh. by apply elem_of_nil in Hh.
  - destruct (decide (identifier (ia_work m) ∈ seen)) as [|Hfresh]; [apply IH|].
    destruct (IH (seen ∪ {[identifier (ia_work m)]})) as [Hnd Hnot].
    split.
    + rewrite fmap_cons. apply NoDup_cons. split; [|done].
      intros Hin. apply list_elem_of_fmap in Hin as (h & Heq & Hh).
      apply (Hnot h Hh). apply elem_of_union. right.
      by apply elem_of_singleton.
    + intros h Hh. apply elem_of_cons in Hh as [->|Hh]; [done|].
      intros Hin. apply (Hnot h Hh). apply elem_of_union. by left.
Qed.

Section Strategies.
Context {U : Unicode} {F : Rapidfuzz} {R : Surnames}.

Lemma match_exact_prefix_by_strategy t ix n :
  Forall by_strategy (match_exact_prefix t ix n).
Proof.
  unfold match_exact_prefix. apply Forall_take, Forall_forall.
  intros h Hh. apply list_elem_of_omap in Hh as ([norm w] & _ & Hh).
  cbn [fst snd] in Hh. destruct (starts_with _ _); [|done].
  injection Hh as <-. by left.
Qed.

Lemma match_substring_by_strategy t ix :
  Forall by_strategy (match_substring t ix).
Proof.
  unfold match_substring. destruct (_ <? _)%nat; [constructor|].
  destruct (decide _); [constructor|].
  apply Forall_take, Forall_forall.
  intros h Hh. apply list_elem_of_omap in Hh as ([norm w] & _ & Hh).
  cbn [fst snd] in Hh. destruct (_ && _); [|done].
  injection Hh as <-. right. by left.
Qed.

Lemma match_fuzzy_by_strategy t ix : Forall by_strategy (match_fuzzy t ix).
Proof.
  unfold match_fuzzy. destruct (_ <? _)%nat; [constructor|].
  destruct (filter _ _) as [|e es]; [constructor|].
  apply Forall_take. rewrite sort_hits_perm. apply Forall_forall.
  intros h Hh. apply list_elem_of_omap in Hh as ([norm w] & _ & Hh).
  cbn [fst snd] in Hh. destruct (Qge_bool _ _) eqn:Hs; [|done].
  injection Hh as <-. right. right. left. split; [done|].
  cbn [score]. by apply Qle_bool_iff in Hs.
Qed.

Lemma match_author_title_by_strategy w ix :
  Forall by_strategy (match_author_title w ix).
Proof.
  unfold match_author_title.
  destruct (bph_author w) as [[|a author]|]; try constructor.
  destruct (bph_title w) as [[|t rest]|]; try constructor.
  apply Forall_take. rewrite sort_hits_perm. apply Forall_forall.
  intros h Hh. apply list_elem_of_In, in_flat_map in Hh as (s & _ & Hh).
  apply list_elem_of_In in Hh.
  destruct (by_author ix !! lower s) as [works|];
    [|by apply elem_of_nil in Hh].
  apply list_elem_of_omap in Hh as (work & _ & Hh).
  destruct (Qge_bool _ _) eqn:Hs; [|done].
  injection Hh as <-. right. right. right. split; [done|].
  cbn [score]. by apply Qle_bool_iff in Hs.
Qed.

End Strategies.

(** What [find_matches] reports: at most five matches, no Internet
    Archive identifier twice, the scores falling from [best_score],
    each match with the score its strategy stands for, and [found]
    exactly when there is a match. *)
Theorem find_matches_reports_the_best_five
    (U : Unicode) (F : Rapidfuzz) (R : Surnames) w ix :
  let o := find_matches w ix in
  (length (matches o) <= 5)%nat
  /\ NoDup ((fun h => identifier (ia_work h)) <$> matches o)
  /\ descending (matches o)
  /\ Forall by_strategy (matches o)
  /\ (forall h, h ∈ matches o -> score h <= best_score o)
  /\ (found o = true <-> matches o <> [])
  /\ (found o = false -> best_score o = 0 /\ best_method o = None).
Proof.
  intros o. unfold o, find_matches. cbn [matches best_score found best_method].
  set (all := _ ++ _ ++ _ ++ _).
  set (unique := sort_hits (unique_matches ∅ all)).
  assert (Hdesc : descending unique) by apply sort_hits_descending.
  assert (Hperm : unique ≡ₚ unique_matches ∅ all) by apply sort_hits_perm.
  assert (Hall : Forall by_strategy all).
  { unfold all. repeat (apply Forall_app; split).
    - apply match_exact_prefix_by_strategy.
    - apply match_substring_by_strategy.
    - apply match_fuzzy_by_strategy.
    - apply match_author_title_by_strategy. }
  split; [rewrite length_take; lia|]. split.
  { eapply sublist_NoDup; [|apply fmap_sublist, sublist_take].
    rewrite Hperm. apply unique_matches_nodup. }
  split; [by apply descending_take|]. split.
  { apply Forall_take. rewrite Hperm. apply Forall_forall. intros h Hh.
    apply unique_matches_subset in Hh. rewrite Forall_forall in Hall.
    by apply Hall. }
  split.
  { intros h Hh. apply subseteq_take in Hh.
    destruct unique as [|h0 rest] eqn:Hu; [by apply elem_of_nil in Hh|].
    cbn. by eapply descending_head. }
  split.
  { destruct unique as [|h0 rest]; cbn; [done|]. split; [done|].
    intros _. apply bool_decide_eq_true. lia. }
  destruct unique as [|h0 rest]; cbn; [done|].
  intros Hf. apply bool_decide_eq_false in Hf. lia.
Qed.

Lemma omap_all_Some {A B} (f : A -> B) (l : list A) :
  omap (fun x => Some (f x)) l = map f l.
Proof. induction l as [|x l IH]; [done|]. cbn. by rewrite IH. Qed.

(** A BPH title without a letter or digit normalizes to the empty
    string, the empty string is a prefix of every title, and so
    [match_exact_prefix] reports the first five titles of the index
    with score 100 and [find_matches] reports the work as found. *)
Theorem wordless_title_matches_by_prefix
    (U : Unicode) (F : Rapidfuzz) (R : Surnames) w ix :
  normalize_title (get_text (bph_title w)) = [] ->
  all_titles ix <> [] ->
  match_exact_prefix (get_text (bph_title w)) ix 50
  = take 5 (map (fun e => mkHit (lit "exact_prefix") 100 e.2) (all_titles ix))
  /\ found (find_matches w ix) = true
  /\ 100 <= best_score (find_matches w ix).
Proof.
  intros Hnorm Hne.
  assert (Hpre : match_exact_prefix (get_text (bph_title w)) ix 50
                 = take 5 (map (fun e => mkHit (lit "exact_prefix") 100 e.2)
                               (all_titles ix))).
  { unfold match_exact_prefix. rewrite Hnorm. cbn [take starts_with].
    by rewrite omap_all_Some. }
  split; [done|].
  unfold find_matches. cbn [found best_score]. rewrite Hpre.
  destruct (all_titles ix) as [|e es]; [done|]. cbn [map take app].
  set (h0 := mkHit (lit "exact_prefix") 100 e.2).
  cbn [unique_matches]. rewrite decide_False by set_solver.
  set (unique := sort_hits _).
  assert (Hin : h0 ∈ unique).
  { unfold unique. rewrite sort_hits_perm. left. }
  pose proof (sort_hits_descending
                (h0 :: unique_matches (∅ ∪ {[identifier (ia_work h0)]})
                         (take 4 (map (fun e => mkHit (lit "exact_prefix")
                                                  100 e.2) es)
                          ++ match_substring (get_text (bph_title w)) ix
                          ++ match_fuzzy (get_text (bph_title w)) ix
                          ++ match_author_title w ix))) as Hdesc.
  fold unique in Hdesc.
  destruct unique as [|hb rest]; [by apply elem_of_nil in Hin|].
  split; [done|]. cbn.
  by apply (descending_head (hb :: rest) hb h0).
Qed.

Lemma wordless_title_witness :
  let ix := build_ia_indices (U := ascii_tables) (R := no_surnames)
              [ia_de_anima; ia_physica] in
  match_exact_prefix (U := ascii_tables) (get_text (bph_title untitled)) ix 50
  = take 5 (map (fun e => mkHit (lit "exact_prefix") 100 e.2) (all_titles ix))
  /\ found (find_matches (U := ascii_tables) (F := overlap_fuzz)
              (R := no_surnames) untitled ix) = true
  /\ 100 <= best_score (find_matches (U := ascii_tables) (F := overlap_fuzz)
                          (R := no_surnames) untitled ix).
Proof.
  apply (wordless_title_matches_by_prefix ascii_tables overlap_fuzz
           no_surnames untitled).
  - reflexivity.
  - by vm_compute.
Defined.

(** *** [build_ia_indices] *)

Section Index.
Context {U : Unicode} {R : Surnames}.

Lemma append_to_lookup key work index k :
  append_to key work index !! k
  = if decide (key = k) then Some (default [] (index !! k) ++ [work])
    else index !! k.
Proof.
  unfold append_to. destruct (decide (key = k)) as [->|Hne].
  - by rewrite lookup_insert_eq.
  - by rewrite lookup_insert_ne.
Qed.

Lemma append_all_lookup work (keys : list str) index k :
  NoDup keys ->
  foldr (fun word ix => append_to word work ix) index keys !! k
  = if decide (k ∈ keys) then Some (default [] (index !! k) ++ [work])
    else index !! k.
Proof.
  induction 1 as [|key keys Hkey Hnd IH]; cbn [foldr].
  - destruct (decide (k ∈ [])) as [Hin|]; [by apply elem_of_nil in Hin|done].
  - rewrite append_to_lookup. destruct (decide (key = k)) as [->|Hne].
    + rewrite decide_True by left. rewrite IH.
      by rewrite decide_False by done.
    + rewrite IH. destruct (decide (k ∈ keys)).
      * by rewrite decide_True by (by right).
      * rewrite decide_False; [done|]. intros Hin.
        apply elem_of_cons in Hin as [->|Hin]; done.
Qed.

Lemma all_titles_from ix ws :
  all_titles (foldl index_work ix ws)
  = all_titles ix
    ++ omap (fun w => match indexed_title w with
                      | [] => None
                      | _ => Some (indexed_title w, w)
                      end) ws.
Proof.
  revert ix. induction ws as [|w ws IH]; intros ix.
  - cbn. by rewrite app_nil_r.
  - cbn [foldl]. rewrite IH. unfold index_work. cbn [all_titles].
    cbn [omap list_omap]. unfold indexed_title.
    destruct (normalize_title (get_text (title w))); [done|].
    by rewrite <- app_assoc.
Qed.

Lemma by_title_from ix ws t :
  by_normalized_title (foldl index_work ix ws) !! t
  = match filter (fun w => indexed_title w = t /\ t <> []) ws with
    | [] => by_normalized_title ix !! t
    | l => Some (default [] (by_normalized_title ix !! t) ++ l)
    end.
Proof.
  revert ix. induction ws as [|w ws IH]; intros ix; [done|].
  cbn [foldl]. rewrite IH. clear IH.
  rewrite (filter_cons (fun w => indexed_title w = t /\ t <> [])).
  unfold index_work. cbn [by_normalized_title]. fold (indexed_title w).
  destruct (decide (indexed_title w = t /\ t <> [])) as [[Heq Hne]|Hno].
  - rewrite Heq. destruct t as [|c t]; [done|].
    rewrite append_to_lookup, decide_True by done. cbn [from_option id].
    destruct (filter _ ws); [done|]. by rewrite <- app_assoc.
  - destruct (indexed_title w) as [|c n] eqn:Hn; [done|].
    rewrite append_to_lookup, decide_False; [done|].
    intros <-. apply Hno. by split.
Qed.

Lemma by_words_from ix ws word :
  by_words (foldl index_work ix ws) !! word
  = match filter (fun w => word ∈ extract_significant_words
                                    (get_text (title w)) 4) ws with
    | [] => by_words ix !! word
    | l => Some (default [] (by_words ix !! word) ++ l)
    end.
Proof.
  revert ix. induction ws as [|w ws IH]; intros ix; [done|].
  cbn [foldl]. rewrite IH. clear IH.
  rewrite (filter_cons (fun w => word ∈ extract_significant_words
                                          (get_text (title w)) 4)).
  unfold index_work. cbn [by_words].
  rewrite append_all_lookup by apply NoDup_elements.
  destruct (decide (word ∈ extract_significant_words _ _)) as [Hin|Hout].
  - rewrite decide_True by (by apply elem_of_elements). cbn [from_option id].
    destruct (filter _ ws); [done|]. by rewrite <- app_assoc.
  - rewrite decide_False; [done|]. by rewrite elem_of_elements.
Qed.

End Index.

(** Looking up what [build_ia_indices] built: [all_titles] lists the
    rows with a non-empty normalized title in table order, a
    normalized title leads to exactly the rows that have it, and a
    word leads to exactly the rows whose title has it as a
    significant word. *)
Theorem index_lookup_returns_the_rows_indexed
    (U : Unicode) (R : Surnames) ws :
  all_titles (build_ia_indices ws)
  = omap (fun w => match indexed_title w with
                   | [] => None
                   | _ => Some (indexed_title w, w)
                   end) ws
  /\ (forall t,
        by_normalized_title (build_ia_indices ws) !! t
        = match filter (fun w => indexed_title w = t /\ t <> []) ws with
          | [] => None
          | l => Some l
          end)
  /\ (forall word,
        by_words (build_ia_indices ws) !! word
        = match filter (fun w => word ∈ extract_significant_words
                                          (get_text (title w)) 4) ws with
          | [] => None
          | l => Some l
          end).
Proof.
  unfold build_ia_indices. split; [|split].
  - by rewrite all_titles_from.
  - intros t. rewrite by_title_from. cbn [by_normalized_title].
    rewrite lookup_empty. by destruct (filter _ ws).
  - intros word. rewrite by_words_from. cbn [by_words].
    rewrite lookup_empty. by destruct (filter _ ws).
Qed.

Lemma filter_none {A} (P : A -> Prop) `{!forall x, Decision (P x)} l :
  (forall y, y ∈ l -> ~ P y) -> filter P l = [].
Proof.
  induction l as [|x l IH]; [done|]. intros Hno.
  rewrite (filter_cons P), decide_False by (apply Hno; left).
  apply IH. intros y Hy. apply Hno. by right.
Qed.

Lemma filter_identifier ws (w : ia_row) (P : ia_row -> Prop)
    `{!forall x, Decision (P x)} :
  NoDup (identifier <$> ws) -> w ∈ ws ->
  length (filter (fun work => identifier work = identifier w) (filter P ws))
  = if decide (P w) then 1%nat else 0%nat.
Proof.
  induction ws as [|x ws IH]; [intros _ Hw; by apply elem_of_nil in Hw|].
  rewrite fmap_cons, NoDup_cons. intros [Hx Hnd] Hw.
  assert (Hfresh : forall y, y ∈ ws -> identifier y <> identifier x).
  { intros y Hy Heq. apply Hx. rewrite <- Heq. by apply list_elem_of_fmap_2. }
  rewrite (filter_cons P). apply elem_of_cons in Hw as [->|Hw].
  - assert (Hrest : filter (fun work => identifier work = identifier x)
                      (filter P ws) = []).
    { apply filter_none. intros y Hy Hid.
      apply list_elem_of_filter in Hy as [_ Hy]. by apply (Hfresh y Hy). }
    destruct (decide (P x)).
    + rewrite (filter_cons (fun work => identifier work = identifier x)).
      rewrite decide_True by done. cbn [length]. by rewrite Hrest.
    + by rewrite Hrest.
  - destruct (decide (P x)).
    + rewrite (filter_cons (fun work => identifier work = identifier w)).
      rewrite decide_False by (intros Heq; by apply (Hfresh w Hw)).
      by apply IH.
    + by apply IH.
Qed.

Lemma sum_indicator (S : gset (list N)) (l : list (list N)) :
  NoDup l ->
  sum_list (map (fun x => if decide (x ∈ S) then 1%nat else 0%nat) l)
  = size (list_to_set l ∩ S : gset (list N)).
Proof.
  induction 1 as [|x l Hx Hnd IH]; cbn [map sum_list].
  - change (list_to_set []) with (∅ : gset (list N)).
    by rewrite (left_absorb_L ∅ (∩)), size_empty.
  - change (list_to_set (x :: l))
      with ({[x]} ∪ list_to_set l : gset (list N)).
    rewrite IH. destruct (decide (x ∈ S)) as [Hin|Hout].
    + assert (Heq : ({[x]} ∪ list_to_set l) ∩ S
                    = {[x]} ∪ (list_to_set l ∩ S :> gset (list N))).
      { apply set_eq. intros z.
        rewrite !elem_of_intersection, !elem_of_union, elem_of_intersection,
          elem_of_singleton. split; [tauto|]. intros [->|?]; tauto. }
      assert (Hsz : size ({[x]} ∪ (list_to_set l ∩ S) : gset (list N))
                    = (size ({[x]} : gset (list N))
                       + size (list_to_set l ∩ S : gset (list N)))%nat).
      { apply size_union. intros z Hz Hz'.
        apply elem_of_singleton in Hz as ->.
        apply elem_of_intersection in Hz' as [Hz' _].
        by apply elem_of_list_to_set in Hz'. }
      assert (H1 : size ({[x]} : gset (list N)) = 1%nat)
        by apply size_singleton.
      rewrite Heq, Hsz, H1. done.
    + cbn [id Nat.add]. f_equal. apply set_eq. intros z.
      rewrite !elem_of_intersection, elem_of_union, elem_of_singleton.
      split; [tauto|]. intros [[->|?] ?]; tauto.
Qed.

(** Over rows with distinct identifiers, the count [match_substring]
    and [match_fuzzy] keep for an indexed row is the number of
    significant words its title shares with the BPH title. *)
Theorem candidates_count_the_shared_words
    (U : Unicode) (R : Surnames) ws w bph_title :
  NoDup (identifier <$> ws) -> w ∈ ws ->
  candidates (build_ia_indices ws) (extract_significant_words bph_title 4)
             (identifier w)
  = size (extract_significant_words bph_title 4
          ∩ extract_significant_words (get_text (title w)) 4).
Proof.
  intros Hnd Hw. unfold candidates.
  set (B := extract_significant_words bph_title 4).
  set (S := extract_significant_words (get_text (title w)) 4).
  assert (HB : list_to_set (elements B) = B)
    by apply (list_to_set_elements_L (C := gset (list N))).
  rewrite <- HB at 2.
  rewrite <- (sum_indicator S) by apply NoDup_elements.
  f_equal. apply map_ext. intros word.
  unfold build_ia_indices. rewrite by_words_from. cbn [by_words].
  rewrite lookup_empty.
  pose proof (filter_identifier ws w
                (fun w0 : ia_row =>
                   word ∈ extract_significant_words (get_text (title w0)) 4)
                Hnd Hw) as Hlen.
  cbv beta in Hlen.
  destruct (filter _ ws) as [|x l]; cbn [from_option id app]; exact Hlen.
Qed.

Lemma candidates_witness :
  candidates (build_ia_indices (U := ascii_tables) (R := no_surnames)
                [ia_de_anima; ia_physica])
             (extract_significant_words (U := ascii_tables)
                (lit "Aristotelis de anima") 4)
             (identifier ia_de_anima)
  = size (extract_significant_words (U := ascii_tables)
            (lit "Aristotelis de anima") 4
          ∩ extract_significant_words (U := ascii_tables)
              (get_text (title ia_de_anima)) 4).
Proof.
  apply (candidates_count_the_shared_words ascii_tables no_surnames
           [ia_de_anima; ia_physica] ia_de_anima).
  - apply (bool_decide_unpack _). by vm_compute.
  - left.
Defined.

End FuzzyFacts.

(** ** The matcher: order of the tiers and of the candidates *)

Module MatcherFacts.
Import AgentMatch MatcherSpec MatcherData MatcherOrder.

Lemma Qge_bool_false a b : Qge_bool a b = false -> a < b.
Proof.
  intros H. apply Qnot_le_lt. intros Hle.
  apply Qle_bool_iff in Hle. unfold Qge_bool in H. congruence.
Qed.

(** A higher embedding score never lowers the tier of a candidate,
    and neither does a matching author or a matching year. *)
Theorem tier_rises_with_the_signals use_llm s1 s2 a1 a2 y1 y2 :
  s1 <= s2 ->
  (truthy a1 = true -> truthy a2 = true) ->
  (truthy y1 = true -> truthy y2 = true) ->
  (tier_rank (tier use_llm s1 a1 y1) <= tier_rank (tier use_llm s2 a2 y2))%nat.
Proof.
  intros Hs Ha Hy. unfold tier.
  unfold EMBEDDING_THRESHOLD_HIGH, EMBEDDING_THRESHOLD_MEDIUM,
    EMBEDDING_THRESHOLD_LOW.
  destruct (Qge_bool s1 0.85) eqn:H1; destruct (Qge_bool s1 0.75) eqn:M1;
    destruct (Qge_bool s1 0.60) eqn:L1;
    destruct (Qge_bool s2 0.85) eqn:H2; destruct (Qge_bool s2 0.75) eqn:M2;
    destruct (Qge_bool s2 0.60) eqn:L2;
    repeat match goal with
           | H : Qge_bool _ _ = true |- _ => apply Qle_bool_iff in H
           | H : Qge_bool _ _ = false |- _ => apply Qge_bool_false in H
           end;
    try (exfalso; lra);
    destruct (truthy a1); destruct (truthy a2); try (by specialize (Ha eq_refl));
    destruct (truthy y1); destruct (truthy y2); try (by specialize (Hy eq_refl));
    destruct use_llm; cbn [andb orb]; vm_compute; lia.
Qed.

Lemma tier_rises_witness :
  (tier_rank (tier true 0.7 VNone (VInt 1)) <=
   tier_rank (tier true 0.9 VNone (VInt 1)))%nat.
Proof.
  apply (tier_rises_with_the_signals true 0.7 0.9 VNone VNone (VInt 1) (VInt 1)).
  - by vm_compute.
  - done.
  - done.
Defined.

Section Candidates.
Context {U : Unicode} {F : Rapidfuzz} {S : Services}.
Variable use_llm : bool.
Variable llm_mode : str.
Variable ia_works : list IAWork.

Lemma insert_desc_perm c cs : insert_desc c cs ≡ₚ c :: cs.
Proof.
  induction cs as [|d cs IH]; simpl; [done|].
  destruct (Qlt_le_dec _ _); [|done]. rewrite IH. apply Permutation_swap.
Qed.

Lemma sort_desc_perm cs : sort_desc cs ≡ₚ cs.
Proof.
  induction cs as [|c cs IH]; simpl; [done|].
  by rewrite insert_desc_perm, IH.
Qed.

Lemma insert_desc_falling c cs : falling cs -> falling (insert_desc c cs).
Proof.
  induction cs as [|d cs IH]; simpl.
  - intros _. by split.
  - intros [Hd Hcs]. destruct (Qlt_le_dec _ _) as [Hlt|Hge].
    + simpl. split; [|by apply IH].
      rewrite insert_desc_perm. constructor; [lra|done].
    + simpl. split; [|by split]. constructor; [done|].
      eapply Forall_impl; [exact Hd|]. simpl. intros x Hx. lra.
Qed.

Lemma sort_desc_falling cs : falling (sort_desc cs).
Proof.
  induction cs as [|c cs IH]; simpl; [done|]. by apply insert_desc_falling.
Qed.

Lemma collect_pairs bph hits cs :
  collect use_llm ia_works bph hits = Some cs ->
  Forall (fun c => c_bph_work c = bph /\ c_ia_work c ∈ ia_works) cs
  /\ length cs = length (filter (fun hit => (0 <= hit.2)%Z) hits).
Proof.
  revert cs. induction hits as [|[score idx] hits IH]; intros cs; simpl.
  - intros [= <-]. by split.
  - rewrite (filter_cons (fun hit : Q * Z => (0 <= hit.2)%Z)). cbn [snd].
    destruct (Z.ltb_spec idx 0) as [Hneg|Hpos].
    + rewrite decide_False by lia. apply IH.
    + rewrite decide_True by lia.
      destruct (ia_works !! Z.to_nat idx) as [ia|] eqn:Hia; [|done].
      destruct (collect use_llm ia_works bph hits) as [cs'|]; [|done].
      intros [= <-]. destruct (IH cs' eq_refl) as [Hall Hlen]. split.
      * constructor; [|done]. split; [done|].
        by eapply list_elem_of_lookup_2.
      * cbn [length]. by rewrite Hlen.
Qed.

Lemma llm_evaluate_shape cand :
  let res := llm_evaluate cand in
  r_bph_work res = c_bph_work cand
  /\ (is_match res = true <-> r_ia_work res <> None)
  /\ (forall ia, r_ia_work res = Some ia -> ia = c_ia_work cand).
Proof.
  assert (He : forall message,
             let res := llm_error cand message in
             r_bph_work res = c_bph_work cand
             /\ (is_match res = true <-> r_ia_work res <> None)
             /\ (forall ia, r_ia_work res = Some ia -> ia = c_ia_work cand)).
  { intros message. cbn. split; [done|]. split; [|done]. by split. }
  unfold llm_evaluate.
  destruct (messages_create cand) as [text|message]; [|apply He].
  destruct (match search_json text with
            | Some matched => json_loads matched
            | None => _
            end) as [result|message]; [|apply He].
  destruct (subscript result (lit "verdict")) as [verdict|message];
    [|apply He].
  destruct verdict; try apply He.
  destruct (subscript result (lit "confidence")) as [confidence|message];
    [|apply He].
  destruct (subscript result (lit "reasoning")) as [reasoning|message];
    [|apply He].
  cbn. split; [done|]. destruct (_ || _); cbn.
  - split; [by split|]. by intros ia [= <-].
  - split; [by split|]. done.
Qed.

End Candidates.

(** [find_candidates] returns one candidate for each hit of the index
    that is not negative: the scores and works of the candidates are,
    up to order, the scores of those hits and the works at their
    positions.  The candidates come best embedding score first, each
    pairing the BPH work asked about with a work of the archive. *)
Theorem candidates_come_best_first
    (U : Unicode) (F : Rapidfuzz) (S : Services) use_llm ia_works bph cs :
  find_candidates use_llm ia_works bph = Some cs ->
  falling cs
  /\ (fun c => (embedding_score c, c_ia_work c)) <$> cs
     ≡ₚ kept_hits ia_works (faiss_search bph)
  /\ Forall (fun c => c_bph_work c = bph /\ c_ia_work c ∈ ia_works) cs
  /\ length cs
     = length (filter (fun hit => (0 <= hit.2)%Z) (faiss_search bph)).
Proof.
  unfold find_candidates.
  destruct (collect _ _ _ _) as [cs'|] eqn:Hc; [|done].
  intros [= <-]. destruct (collect_pairs _ _ _ _ _ Hc) as [Hall Hlen].
  split; [apply sort_desc_falling|]. split; [|split].
  - rewrite sort_desc_perm.
    rewrite (AgentMatchFacts.collect_kept _ _ _ _ _ Hc) at 1.
    rewrite <- list_fmap_compose.
    generalize (kept_hits ia_works (faiss_search bph)). intros l.
    induction l as [|[score ia] l IH]; [done|]. cbn. by constructor.
  - by rewrite sort_desc_perm.
  - by rewrite sort_desc_perm.
Qed.

Lemma candidates_come_best_first_witness :
  falling [close_match]
  /\ (fun c => (embedding_score c, c_ia_work c)) <$> [close_match]
     ≡ₚ kept_hits [de_anima_ia]
          (faiss_search (Services := close_services) de_anima)
  /\ Forall (fun c => c_bph_work c = de_anima /\ c_ia_work c ∈ [de_anima_ia])
            [close_match]
  /\ length [close_match]
     = length (filter (fun hit : Q * Z => (0 <= hit.2)%Z)
                      (faiss_search (Services := close_services) de_anima)).
Proof.
  apply (candidates_come_best_first ascii_tables overlap_fuzz close_services
           true [de_anima_ia] de_anima [close_match]).
  vm_compute. reflexivity.
Defined.

(** Whatever path [match_work] takes, its result carries the BPH work
    it was asked about, it names an archive work exactly when it is a
    match, and the work it names is the one of the best candidate. *)
Theorem a_match_names_the_best_candidate
    (U : Unicode) (F : Rapidfuzz) (S : Services)
    use_llm llm_mode ia_works bph res :
  match_work use_llm llm_mode ia_works bph = Some res ->
  r_bph_work res = bph
  /\ (is_match res = true <-> r_ia_work res <> None)
  /\ (forall ia, r_ia_work res = Some ia ->
        ia ∈ ia_works
        /\ exists best rest,
             find_candidates use_llm ia_works bph = Some (best :: rest)
             /\ ia = c_ia_work best).
Proof.
  unfold match_work.
  destruct (find_candidates use_llm ia_works bph) as [[|best rest]|] eqn:Hf;
    [| |done].
  { intros [= <-]. cbn. split; [done|]. split; [|done]. by split. }
  assert (Hbest : c_bph_work best = bph /\ c_ia_work best ∈ ia_works).
  { unfold find_candidates in Hf.
    destruct (collect _ _ _ _) as [cs'|] eqn:Hc; [|done].
    injection Hf as Hf. destruct (collect_pairs _ _ _ _ _ Hc) as [Hall _].
    rewrite <- sort_desc_perm, Hf in Hall. by inversion Hall. }
  destruct Hbest as [Hb Hia].
  assert (Hname : forall ia, ia = c_ia_work best ->
            ia ∈ ia_works
            /\ exists best' rest',
                 Some (best :: rest) = Some (best' :: rest')
                 /\ ia = c_ia_work best').
  { intros ia ->. split; [done|]. by exists best, rest. }
  destruct (bool_decide (c_confidence best = lit "high")).
  { intros [= <-]. cbn. split; [done|]. split; [by split|].
    intros ia [= <-]. by apply Hname. }
  destruct (_ && _).
  { intros [= <-]. cbn. split; [done|]. split; [by split|].
    intros ia [= <-]. by apply Hname. }
  destruct (_ || _).
  - intros [= <-]. destruct (llm_evaluate_shape best) as (H1 & H2 & H3).
    split; [congruence|]. split; [done|].
    intros ia Hia'. apply Hname. by apply H3.
  - intros [= <-]. cbn. split; [done|]. split; [|done]. by split.
Qed.

Lemma a_match_witness :
  let res := mkResult de_anima (Some physica) true (JStr (lit "high"))
               (lit "same_work") (JStr (lit "same text")) (lit "llm") in
  r_bph_work res = de_anima
  /\ (is_match res = true <-> r_ia_work res <> None)
  /\ (forall ia, r_ia_work res = Some ia ->
        ia ∈ [physica]
        /\ exists best rest,
             find_candidates (U := ascii_tables) (F := overlap_fuzz)
               (S := same_work_services) true [physica] de_anima
             = Some (best :: rest)
             /\ ia = c_ia_work best).
Proof.
  apply (a_match_names_the_best_candidate ascii_tables overlap_fuzz
           same_work_services true (lit "full") [physica] de_anima).
  by vm_compute.
Defined.


End MatcherFacts.

(** ** [extract_surname] and [run_matching] *)

Module AgentRunFacts.
Import AgentMatch AgentRun MatcherData MatcherFacts.

Section Surname.
Context {U : Unicode} {G : Digits}.
Hypothesis HU : ascii_laws U.

Lemma sub_dated_fuel_chars (P : char -> Prop) fuel name :
  Forall P name -> Forall P (sub_dated_fuel fuel name).
Proof.
  revert name. induction fuel as [|fuel IH]; intros name Hn; [done|].
  destruct Hn as [|c name Hc Hn]; [done|]. cbn [sub_dated_fuel].
  assert (Hspan : forall s inside rest,
            Forall P s -> span_to_close s = Some (inside, rest) ->
            Forall P rest).
  { clear. induction s as [|d s IHs]; intros inside rest Hs; [done|].
    apply Forall_cons in Hs as [Hd Hs]. simpl.
    destruct (d =? 41)%N; [by intros [= _ <-]|].
    destruct (span_to_close s) as [[i r]|] eqn:E; [|done].
    intros [= _ <-]. by eapply IHs. }
  destruct (c =? 40)%N; [|constructor; [done|by apply IH]].
  destruct (span_to_close name) as [[inside rest]|] eqn:E;
    [|constructor; [done|by apply IH]].
  destruct (existsb isdecimal inside); [|constructor; [done|by apply IH]].
  apply IH. by eapply Hspan.
Qed.

Lemma before_comma_chars (P : char -> Prop) name :
  Forall P name -> Forall P (before_comma name).
Proof.
  induction 1 as [|c name Hc Hn IH]; [done|]. simpl.
  destruct (c =? 44)%N; [done|by constructor].
Qed.

Lemma split_chars (P : char -> Prop) s :
  Forall P s -> Forall (Forall P) (split s).
Proof.
  intros Hs. eapply Forall_impl.
  - apply (NormalForm.split_words P). eapply Forall_impl; [exact Hs|]. auto.
  - intros w [_ Hw]. eapply Forall_impl; [exact Hw|]. by intros c [Hc _].
Qed.

Lemma word_char_lower_clean c :
  (c < 128)%N -> is_word c = true -> clean (ascii_lower c) = true.
Proof.
  intros Hc. unfold is_word. rewrite (isalnum_ascii U HU c Hc).
  unfold ascii_alnum, ascii_lower, clean.
  destruct ((65 <=? c) && (c <=? 90))%N eqn:E.
  - apply andb_true_iff in E as [E1 E2]. apply N.leb_le in E1, E2.
    intros _. apply orb_true_iff. left. apply orb_true_iff. right.
    apply andb_true_iff. rewrite !N.leb_le. lia.
  - intros H. apply orb_true_iff in H as [H|H95].
    + apply orb_true_iff in H as [H|Hlow].
      * apply orb_true_iff in H as [Hdig|Hup].
        -- by rewrite Hdig.
        -- by rewrite Hup in E.
      * rewrite Hlow. by rewrite orb_true_r.
    + rewrite H95. by rewrite orb_true_r.
Qed.

Lemma first_long_word_clean words :
  Forall is_ascii words ->
  let s := first_long_word words in
  s = [] \/ ((2 < length s)%nat /\ Forall (fun c => clean c = true) s).
Proof.
  induction 1 as [|word words Hw Hws IH]; [by left|]. cbn [first_long_word].
  destruct (Nat.ltb_spec 2 (length (sub_non_word word))) as [Hlen|_];
    [|done].
  right.
  assert (Hclean : Forall (fun c => (c < 128)%N /\ is_word c = true)
                          (sub_non_word word)).
  { apply Forall_forall. intros c Hc.
    apply list_elem_of_filter in Hc as [Hc Hin]. split; [|done].
    unfold is_ascii in Hw. rewrite Forall_forall in Hw. by apply Hw. }
  rewrite (lower_ascii U HU)
    by (eapply Forall_impl; [exact Hclean|]; by intros c [Hc _]).
  split; [by rewrite length_map|].
  apply Forall_fmap. eapply Forall_impl; [exact Hclean|].
  intros c [Hc Hword]. by apply word_char_lower_clean.
Qed.

Lemma sub_dated_fuel_clean fuel s :
  Forall (fun c => clean c = true) s -> sub_dated_fuel fuel s = s.
Proof.
  revert s. induction fuel as [|fuel IH]; intros s Hs; [done|].
  destruct Hs as [|c s Hc Hs]; [done|]. cbn [sub_dated_fuel].
  assert (H40 : (c =? 40)%N = false).
  { apply N.eqb_neq. intros ->. by vm_compute in Hc. }
  by rewrite H40, IH.
Qed.

Lemma before_comma_clean s :
  Forall (fun c => clean c = true) s -> before_comma s = s.
Proof.
  induction 1 as [|c s Hc Hs IH]; [done|]. simpl.
  assert (H44 : (c =? 44)%N = false).
  { apply N.eqb_neq. intros ->. by vm_compute in Hc. }
  by rewrite H44, IH.
Qed.

Lemma sub_non_word_clean s :
  Forall (fun c => clean c = true) s -> sub_non_word s = s.
Proof.
  unfold sub_non_word, str. induction 1 as [|c s Hc Hs IH]; [done|].
  rewrite filter_cons_True; [by rewrite IH|]. unfold is_word.
  rewrite (isalnum_ascii U HU c) by (by apply NormalForm.clean_ascii).
  by apply (NormalForm.clean_word c).
Qed.

Lemma extract_surname_clean s :
  (2 < length s)%nat -> Forall (fun c => clean c = true) s ->
  extract_surname s = s.
Proof.
  intros Hlen Hs. unfold extract_surname, sub_dated.
  destruct s as [|c0 s0] eqn:E; [done|]. rewrite <- E in *. clear E c0 s0.
  rewrite sub_dated_fuel_clean, before_comma_clean by done.
  rewrite NormalForm.split_word.
  - cbn [first_long_word]. rewrite sub_non_word_clean by done.
    rewrite (proj2 (Nat.ltb_lt 2 (length s))) by done.
    rewrite (lower_ascii U HU)
      by (eapply Forall_impl; [exact Hs|]; apply NormalForm.clean_ascii).
    apply NormalForm.lower_fixed.
    eapply Forall_impl; [exact Hs|]. intros c Hc. by left.
  - split; [intros ->; cbn in Hlen; lia|].
    eapply Forall_impl; [exact Hs|]. apply NormalForm.clean_not_space.
Qed.

End Surname.

(** On an ASCII name [extract_surname] returns nothing or one word of
    more than two lowercase letters, digits and underscores, and it
    returns its own result unchanged. *)
Theorem surname_is_one_lowercase_word (U : Unicode) (G : Digits) name :
  ascii_laws U -> is_ascii name ->
  let s := extract_surname name in
  (s = [] \/ ((2 < length s)%nat /\ Forall (fun c => clean c = true) s))
  /\ extract_surname s = s.
Proof.
  intros HU Hn s.
  assert (Hs : s = [] \/ ((2 < length s)%nat
                          /\ Forall (fun c => clean c = true) s)).
  { unfold s, extract_surname. destruct name as [|c name]; [by left|].
    apply (first_long_word_clean HU).
    apply split_chars, before_comma_chars, sub_dated_fuel_chars, Hn. }
  split; [done|]. destruct Hs as [->|[Hlen Hclean]]; [done|].
  by apply extract_surname_clean.
Qed.

Lemma surname_witness :
  let s := extract_surname (U := ascii_tables) (G := ascii_digits) ficino in
  (s = [] \/ ((2 < length s)%nat /\ Forall (fun c => clean c = true) s))
  /\ extract_surname (U := ascii_tables) (G := ascii_digits) s = s.
Proof.
  apply (surname_is_one_lowercase_word ascii_tables ascii_digits ficino).
  - apply ascii_tables_laws.
  - unfold ficino. solve_ascii.
Defined.

Example surname_of_ficino :
  extract_surname (U := ascii_tables) (G := ascii_digits) ficino
  = lit "ficino"
  /\ extract_surname (U := ascii_tables) (G := ascii_digits)
       (lit "Marsilio Ficino (1433-1499)") = lit "marsilio"
  /\ extract_surname (U := ascii_tables) (G := ascii_digits)
       (lit "Li, Bo") = [].
Proof. by vm_compute. Qed.

Section Run.
Context {U : Unicode} {F : Rapidfuzz} {S : Services}.
Variable use_llm : bool.
Variable llm_mode : str.
Variable ia_works : list IAWork.

Lemma match_work_echo bph res :
  match_work use_llm llm_mode ia_works bph = Some res ->
  r_bph_work res = bph /\ (is_match res = true <-> r_ia_work res <> None).
Proof.
  unfold match_work.
  destruct (find_candidates use_llm ia_works bph) as [[|best rest]|] eqn:Hf;
    [| |done].
  { intros [= <-]. cbn. split; [done|]. by split. }
  assert (Hbest : c_bph_work best = bph).
  { unfold find_candidates in Hf.
    destruct (collect _ _ _ _) as [cs'|] eqn:Hc; [|done].
    injection Hf as Hf. destruct (collect_pairs _ _ _ _ _ Hc) as [Hall _].
    rewrite <- sort_desc_perm, Hf in Hall. inversion Hall as [|? ? [? _]].
    done. }
  destruct (bool_decide (c_confidence best = lit "high")).
  { intros [= <-]. cbn. split; [done|]. by split. }
  destruct (_ && _).
  { intros [= <-]. cbn. split; [done|]. by split. }
  destruct (_ || _).
  - intros [= <-]. destruct (llm_evaluate_shape best) as (H1 & H2 & _).
    split; [congruence|done].
  - intros [= <-]. cbn. split; [done|]. by split.
Qed.

End Run.

(** [run_matching] returns one result for each BPH work, in the order
    of the works, each carrying its work; a result names an archive
    work exactly when it is a match, so the report that prints
    [r.ia_work.title] of every match never meets a missing work. *)
Theorem results_line_up_with_the_works
    (U : Unicode) (F : Rapidfuzz) (S : Services)
    use_llm llm_mode ia_works bph_works results :
  run_matching use_llm llm_mode ia_works bph_works = Some results ->
  r_bph_work <$> results = bph_works
  /\ Forall (fun r => is_match r = true <-> r_ia_work r <> None) results
  /\ (llm_calls results <= length bph_works)%nat.
Proof.
  revert results.
  induction bph_works as [|bph works IH]; intros results; simpl.
  - intros [= <-]. repeat split; [constructor|]. cbn. lia.
  - destruct (match_work use_llm llm_mode ia_works bph) as [res|] eqn:Hm;
      [|done].
    destruct (run_matching use_llm llm_mode ia_works works) as [rs|]; [|done].
    intros [= <-]. destruct (IH rs eq_refl) as (H1 & H2 & H3).
    destruct (match_work_echo _ _ _ _ _ Hm) as [Hb Hi].
    split; [by rewrite fmap_cons, Hb, H1|]. split; [by constructor|].
    unfold llm_calls in *.
    rewrite (filter_cons (fun r => method r = lit "llm")).
    destruct (decide _); cbn [length]; lia.
Qed.

Lemma results_line_up_witness :
  let results :=
    [mkResult de_anima (Some physica) true (JStr (lit "high"))
       (lit "same_work") (JStr (lit "same text")) (lit "llm")] in
  r_bph_work <$> results = [de_anima]
  /\ Forall (fun r => is_match r = true <-> r_ia_work r <> None) results
  /\ (llm_calls results <= length [de_anima])%nat.
Proof.
  apply (results_line_up_with_the_works ascii_tables overlap_fuzz
           same_work_services true (lit "full") [physica] [de_anima]).
  by vm_compute.
Defined.

(** The title of section 2 of the normalizers, once more: a witness
    for the three normalizers on an ASCII title. *)
Lemma normalizers_on_ascii_witness :
  let s := lit "  De Anima,   libri_tres. " in
  let t := ascii_normal_form s in
  FuzzyMatch.normalize_title (U := ascii_tables) s = t
  /\ AgentMatch.normalize_text (U := ascii_tables) s = t
  /\ Deduplicator.normalize_text (U := ascii_tables) (D := ascii_unidecode)
       (Deduplicator.Text s) = t
  /\ (exists ws, Forall wordy ws /\ t = join (lit " ") ws)
  /\ FuzzyMatch.normalize_title (U := ascii_tables) t = t
  /\ AgentMatch.normalize_text (U := ascii_tables) t = t
  /\ Deduplicator.normalize_text (U := ascii_tables) (D := ascii_unidecode)
       (Deduplicator.Text t) = t.
Proof.
  apply (NormalForm.normalizers_on_ascii ascii_tables ascii_unidecode
           (lit "  De Anima,   libri_tres. ")).
  - apply ascii_tables_laws.
  - intros s _. reflexivity.
  - solve_ascii.
Defined.

End AgentRunFacts.
